(** * The obby game (jumper.c): model and properties

    This development embeds the collision resolvers, the character
    controller ([physics_step]) and the fixed-step driver of the main loop
    of [jumper.c], and proves the properties the specification states about
    them.  It then embeds the rest of the program that computes: the demo
    map, the projection and the geometry that is drawn, the camera, and the
    event handling and menu of the main loop; and proves further properties
    of the code.  Of the file loader only the handling of its temporary
    arrays is modelled; the calls that draw are left out.

    Conventions of the embedding.
    - A C [double] is an exact rational ([Q]): rounding, infinities and NaN
      are not modelled, arithmetic is exact.  Decimal literals denote the
      rational they spell.  Equality of whole states is Leibniz equality;
      equality of computed numbers is [Qeq] ([==]), and two states that
      hold the same numbers, whatever fractions represent them, are related
      by [Player_eq].
    - A C [int] is a [Z] in the range of a 32-bit signed integer where the
      code computes it from a [double] or by arithmetic on such a value;
      leaving the range, like reading an array outside its bounds, is
      undefined behaviour and reported as [Undefined].
    - [sin], [cos] and [sqrt] come from the C math library; they are
      parameters of the model ([Libm]).
    - The globals [map_w], [map_h], [map_cells], [map_rots], which the
      physics only reads, are passed as a [Map] record. *)

From Stdlib Require Import ZArith QArith Qround Qminmax Qpower Lqa Lia List
  Bool.
Import ListNotations.

Open Scope Q_scope.

(** ** C arithmetic *)

Definition Qltb (a b : Q) : bool := negb (Qle_bool b a).
Definition Qleb (a b : Q) : bool := Qle_bool a b.

Notation "a <? b" := (Qltb a b) (at level 70, no associativity) : Q_scope.
Notation "a <=? b" := (Qleb a b) (at level 70, no associativity) : Q_scope.
Notation "a >? b" := (Qltb b a) (at level 70, no associativity) : Q_scope.
Notation "a >=? b" := (Qleb b a) (at level 70, no associativity) : Q_scope.

Definition fmin (a b : Q) : Q := if a <? b then a else b.

(** Outcome of a computation that may hit undefined behaviour of C, or, for
    the driver's [while] loop, run out of the fuel that bounds it. *)
Inductive result (A : Type) : Type :=
| Ok (a : A)
| Undefined
| OutOfFuel.

Arguments Ok {A} a.
Arguments Undefined {A}.
Arguments OutOfFuel {A}.

Definition bind {A B : Type} (r : result A) (k : A -> result B) : result B :=
  match r with
  | Ok a => k a
  | Undefined => Undefined
  | OutOfFuel => OutOfFuel
  end.

Notation "x <- e ;; k" := (bind e (fun x => k))
  (at level 61, e at next level, right associativity).
Notation "' pat <- e ;; k" := (bind e (fun x => match x with pat => k end))
  (at level 61, pat pattern, e at next level, right associativity).

Definition INT_MIN : Z := (- 2 ^ 31)%Z.
Definition INT_MAX : Z := (2 ^ 31 - 1)%Z.

Definition int_of (z : Z) : result Z :=
  if ((INT_MIN <=? z) && (z <=? INT_MAX))%Z then Ok z else Undefined.

Definition int_add (a b : Z) : result Z := int_of (a + b)%Z.
Definition int_mul (a b : Z) : result Z := int_of (a * b)%Z.

(** [floor] of math.h, and the conversion [(int) d], which truncates toward
    zero and is undefined outside the range of [int]. *)
Definition c_floor (d : Q) : Q := inject_Z (Qfloor d).
Definition Qtrunc (d : Q) : Z := if d <? 0 then Qceiling d else Qfloor d.
Definition int_of_double (d : Q) : result Z := int_of (Qtrunc d).

(** Reading [a[i]]. *)
Definition read (a : list Z) (i : Z) : result Z :=
  if (i <? 0)%Z then Undefined
  else match nth_error a (Z.to_nat i) with
       | Some v => Ok v
       | None => Undefined
       end.

(** ** Constants and data *)

Definition CELL_SIZE : Q := 1.0.
Definition PLAYER_RADIUS : Q := 0.28.
Definition PLAYER_HEIGHT : Q := 1.8.

Definition TILE_EMPTY : Z := 0.
Definition TILE_CUBE : Z := 1.
Definition TILE_WEDGE : Z := 2.
Definition TILE_END : Z := 3.

Definition GRAVITY : Q := 20.0.
Definition WALK_ACCEL : Q := 100.0.
Definition AIR_ACCEL : Q := 60.0.
Definition MAX_WALK_SPEED : Q := 7.0.
Definition JUMP_VELOCITY : Q := 8.0.
Definition FRICTION : Q := 6.0.
Definition BUNNY_HOP_TIME : Q := 0.1.

Record Player : Type := mkPlayer {
  px : Q; py : Q; pz : Q;
  vx : Q; vy : Q; vz : Q;
  yaw : Q; pitch : Q;
  grounded : bool;
  time_since_grounded : Q
}.

Definition set_px (v : Q) (p : Player) : Player :=
  mkPlayer v (py p) (pz p) (vx p) (vy p) (vz p) (yaw p) (pitch p)
           (grounded p) (time_since_grounded p).
Definition set_py (v : Q) (p : Player) : Player :=
  mkPlayer (px p) v (pz p) (vx p) (vy p) (vz p) (yaw p) (pitch p)
           (grounded p) (time_since_grounded p).
Definition set_pz (v : Q) (p : Player) : Player :=
  mkPlayer (px p) (py p) v (vx p) (vy p) (vz p) (yaw p) (pitch p)
           (grounded p) (time_since_grounded p).
Definition set_vx (v : Q) (p : Player) : Player :=
  mkPlayer (px p) (py p) (pz p) v (vy p) (vz p) (yaw p) (pitch p)
           (grounded p) (time_since_grounded p).
Definition set_vy (v : Q) (p : Player) : Player :=
  mkPlayer (px p) (py p) (pz p) (vx p) v (vz p) (yaw p) (pitch p)
           (grounded p) (time_since_grounded p).
Definition set_vz (v : Q) (p : Player) : Player :=
  mkPlayer (px p) (py p) (pz p) (vx p) (vy p) v (yaw p) (pitch p)
           (grounded p) (time_since_grounded p).
Definition set_yaw (v : Q) (p : Player) : Player :=
  mkPlayer (px p) (py p) (pz p) (vx p) (vy p) (vz p) v (pitch p)
           (grounded p) (time_since_grounded p).
Definition set_pitch (v : Q) (p : Player) : Player :=
  mkPlayer (px p) (py p) (pz p) (vx p) (vy p) (vz p) (yaw p) v
           (grounded p) (time_since_grounded p).
Definition set_grounded (b : bool) (p : Player) : Player :=
  mkPlayer (px p) (py p) (pz p) (vx p) (vy p) (vz p) (yaw p) (pitch p)
           b (time_since_grounded p).
Definition set_time_since_grounded (v : Q) (p : Player) : Player :=
  mkPlayer (px p) (py p) (pz p) (vx p) (vy p) (vz p) (yaw p) (pitch p)
           (grounded p) v.

Record Input : Type := mkInput {
  move_fwd : Q;
  move_strafe : Q;
  jump : bool;
  sprint : bool;
  mouse_dx : Z;
  mouse_dy : Z
}.

(** The map globals; cells and rotations are [uint8_t] values, row-major. *)
Record Map : Type := mkMap {
  map_w : Z;
  map_h : Z;
  map_cells : list Z;
  map_rots : list Z
}.

(** ** Helpers *)

Definition clampd (v a b : Q) : Q :=
  if v <? a then a else if v >? b then b else v.

Definition lerp (a b t : Q) : Q := a + (b - a) * t.

Definition approach (cur target maxDelta : Q) : Q :=
  let d := target - cur in
  if d >? maxDelta then cur + maxDelta
  else if d <? - maxDelta then cur - maxDelta
  else target.

(** ** Collisions *)

Definition in_map (m : Map) (x z : Z) : bool :=
  ((x >=? 0) && (z >=? 0) && (x <? map_w m) && (z <? map_h m))%Z.

Definition cell_index (m : Map) (x z : Z) : result Z :=
  zw <- int_mul z (map_w m) ;; int_add zw x.

Definition tile_at (m : Map) (x z : Z) : result Z :=
  if negb (in_map m x z) then Ok TILE_CUBE
  else i <- cell_index m x z ;; read (map_cells m) i.

(** The locals of [resolve_cube]: the cell's box and the player's box.  The
    callers pass cells of the map, for which [cx + 1] and [cz + 1] are at most
    [map_w] and [map_h]. *)
Definition cell_min_x (cx : Z) : Q := inject_Z cx * CELL_SIZE.
Definition cell_max_x (cx : Z) : Q := inject_Z (cx + 1) * CELL_SIZE.
Definition cell_min_y : Q := 0.0.
Definition cell_max_y : Q := 1.0.
Definition cell_min_z (cz : Z) : Q := inject_Z cz * CELL_SIZE.
Definition cell_max_z (cz : Z) : Q := inject_Z (cz + 1) * CELL_SIZE.

Definition pmin_x (p : Player) : Q := px p - PLAYER_RADIUS.
Definition pmax_x (p : Player) : Q := px p + PLAYER_RADIUS.
Definition pmin_y (p : Player) : Q := py p.
Definition pmax_y (p : Player) : Q := py p + PLAYER_HEIGHT.
Definition pmin_z (p : Player) : Q := pz p - PLAYER_RADIUS.
Definition pmax_z (p : Player) : Q := pz p + PLAYER_RADIUS.

(** The early-return test of [resolve_cube]. *)
Definition cube_disjoint (p : Player) (cx cz : Z) : bool :=
  (pmax_x p <=? cell_min_x cx) || (pmin_x p >=? cell_max_x cx)
  || (pmax_y p <=? cell_min_y) || (pmin_y p >=? cell_max_y)
  || (pmax_z p <=? cell_min_z cz) || (pmin_z p >=? cell_max_z cz).

Definition pen_x (p : Player) (cx : Z) : Q :=
  fmin (pmax_x p - cell_min_x cx) (cell_max_x cx - pmin_x p).
Definition pen_y (p : Player) : Q :=
  fmin (pmax_y p - cell_min_y) (cell_max_y - pmin_y p).
Definition pen_z (p : Player) (cz : Z) : Q :=
  fmin (pmax_z p - cell_min_z cz) (cell_max_z cz - pmin_z p).

Definition resolve_cube (p : Player) (cx cz : Z) : Player :=
  if cube_disjoint p cx cz then p
  else if (pen_y p <=? pen_x p cx) && (pen_y p <=? pen_z p cz) then
    let cell_center_y := (cell_min_y + cell_max_y) * 0.5 in
    let player_center_y := (pmin_y p + pmax_y p) * 0.5 in
    if player_center_y >? cell_center_y then
      set_grounded true (set_vy 0.0 (set_py (cell_max_y + 0.001) p))
    else
      let p1 := set_py (cell_min_y - PLAYER_HEIGHT - 0.001) p in
      if vy p1 >? 0 then set_vy 0.0 p1 else p1
  else if pen_x p cx <=? pen_z p cz then
    let p1 :=
      if px p <? (cell_min_x cx + cell_max_x cx) * 0.5
      then set_px (px p - pen_x p cx) p
      else set_px (px p + pen_x p cx) p in
    set_vx (vx p1 * 0.3) p1
  else
    let p1 :=
      if pz p <? (cell_min_z cz + cell_max_z cz) * 0.5
      then set_pz (pz p - pen_z p cz) p
      else set_pz (pz p + pen_z p cz) p in
    set_vz (vz p1 * 0.3) p1.

Definition wedge_height_at_local (lx lz : Q) (rot : Z) : Q :=
  let lx := clampd lx 0.0 1.0 in
  let lz := clampd lz 0.0 1.0 in
  if (rot =? 0)%Z then lx
  else if (rot =? 1)%Z then 1.0 - lx
  else if (rot =? 2)%Z then lz
  else 1.0 - lz.

(** The early-return test of [resolve_wedge], and the surface height it
    compares the foot with. *)
Definition wedge_outside (p : Player) (cx cz : Z) : bool :=
  let lx := px p - inject_Z cx in
  let lz := pz p - inject_Z cz in
  (lx <? - PLAYER_RADIUS) || (lx >? 1.0 + PLAYER_RADIUS)
  || (lz <? - PLAYER_RADIUS) || (lz >? 1.0 + PLAYER_RADIUS).

Definition wedge_surf (p : Player) (cx cz rot : Z) : Q :=
  wedge_height_at_local (px p - inject_Z cx) (pz p - inject_Z cz) rot.

Definition resolve_wedge (p : Player) (cx cz rot : Z) : Player :=
  if wedge_outside p cx cz then p
  else
    let surf := wedge_surf p cx cz rot in
    if py p <=? surf + 0.001 then
      let p1 := set_py (surf + 0.001) p in
      let p2 := if vy p1 <? 0.0 then set_vy 0.0 p1 else p1 in
      set_grounded true p2
    else p.

(** The test of the [TILE_END] branch of [resolve_collisions]. *)
Definition goal_overlap (p : Player) (mx mz : Z) : bool :=
  let minx := inject_Z mx in
  let maxx := inject_Z (mx + 1) in
  let minz := inject_Z mz in
  let maxz := inject_Z (mz + 1) in
  (px p + PLAYER_RADIUS >=? minx) && (px p - PLAYER_RADIUS <=? maxx)
  && (pz p + PLAYER_RADIUS >=? minz) && (pz p - PLAYER_RADIUS <=? maxz).

(** The body of the double loop of [resolve_collisions] for the offsets
    [ox], [oz]; the state is the player and the [level_complete] flag. *)
Definition resolve_cell (m : Map) (cx cz : Z) (st : Player * bool)
    (oz ox : Z) : result (Player * bool) :=
  let '(p, level_complete) := st in
  mx <- int_add cx ox ;;
  mz <- int_add cz oz ;;
  if negb (in_map m mx mz) then Ok st
  else
    t <- tile_at m mx mz ;;
    if (t =? TILE_CUBE)%Z then Ok (resolve_cube p mx mz, level_complete)
    else if (t =? TILE_WEDGE)%Z then
      i <- cell_index m mx mz ;;
      rot <- read (map_rots m) i ;;
      Ok (resolve_wedge p mx mz rot, level_complete)
    else if (t =? TILE_END)%Z then
      if goal_overlap p mx mz then Ok (p, true) else Ok st
    else Ok st.

(** A [for] loop over an explicit list of values of the loop variable. *)
Fixpoint for_each {S V : Type} (body : S -> V -> result S) (vs : list V)
    (s : S) : result S :=
  match vs with
  | [] => Ok s
  | v :: vs' => s' <- body s v ;; for_each body vs' s'
  end.

Definition offsets : list Z := [-1; 0; 1]%Z.

Definition resolve_cells (m : Map) (st : Player * bool)
    : result (Player * bool) :=
  cx <- int_of_double (c_floor (px (fst st))) ;;
  cz <- int_of_double (c_floor (pz (fst st))) ;;
  for_each
    (fun st oz => for_each (fun st ox => resolve_cell m cx cz st oz ox)
                           offsets st)
    offsets st.

(** The final floor clamp of [resolve_collisions]. *)
Definition floor_clamp (p : Player) : Player :=
  if py p <? 0.0 then set_grounded true (set_vy 0.0 (set_py 0.0 p)) else p.

Definition resolve_collisions (m : Map) (st : Player * bool)
    : result (Player * bool) :=
  '(p, level_complete) <- resolve_cells m st ;;
  Ok (floor_clamp p, level_complete).

(** ** Physics step (camera-relative movement) *)

(** The functions of math.h the step calls. *)
Record Libm : Type := mkLibm {
  sin : Q -> Q;
  cos : Q -> Q;
  sqrt : Q -> Q
}.

Section Controller.

Variable libm : Libm.

(** Lines 553-571: the wish direction [(wish_x, wish_z)] and [wish_len], the
    length measured before the direction is normalised. *)
Definition wish_dir (p : Player) (inp : Input) : Q * Q * Q :=
  let yaw_for_move := yaw p in
  let forward_x := sin libm yaw_for_move in
  let forward_z := cos libm yaw_for_move in
  let right_x := forward_z in
  let right_z := - forward_x in
  let raw_fwd := move_fwd inp in
  let raw_str := move_strafe inp in
  let in_len := sqrt libm (raw_fwd * raw_fwd + raw_str * raw_str) in
  let raw_fwd := if in_len >? 1.0 then raw_fwd / in_len else raw_fwd in
  let raw_str := if in_len >? 1.0 then raw_str / in_len else raw_str in
  let wish_x := forward_x * raw_fwd + right_x * raw_str in
  let wish_z := forward_z * raw_fwd + right_z * raw_str in
  let wish_len := sqrt libm (wish_x * wish_x + wish_z * wish_z) in
  if wish_len >? 1e-6
  then (wish_x / wish_len, wish_z / wish_len, wish_len)
  else (wish_x, wish_z, wish_len).

(** Lines 573-584: acceleration toward the target velocity, and friction. *)
Definition horizontal_velocity (p : Player) (inp : Input) (dt : Q) : Player :=
  let '(wish_x, wish_z, wish_len) := wish_dir p inp in
  let accel := if grounded p then WALK_ACCEL else AIR_ACCEL in
  let target_speed :=
    if grounded p
    then MAX_WALK_SPEED * (if sprint inp then 1.5 else 1.0)
    else MAX_WALK_SPEED in
  let target_vx := wish_x * target_speed in
  let target_vz := wish_z * target_speed in
  let maxdv := accel * dt in
  let p := set_vx (approach (vx p) target_vx maxdv) p in
  let p := set_vz (approach (vz p) target_vz maxdv) p in
  if grounded p && (wish_len <? 1e-3) then
    let p := set_vx (approach (vx p) 0.0 (FRICTION * dt)) p in
    set_vz (approach (vz p) 0.0 (FRICTION * dt)) p
  else p.

(** Lines 586-591: update time since grounded. *)
Definition update_ground_timer (p : Player) (dt : Q) : Player :=
  if grounded p then set_time_since_grounded 0.0 p
  else set_time_since_grounded (time_since_grounded p + dt) p.

(** Line 593. *)
Definition apply_gravity (p : Player) (dt : Q) : Player :=
  set_vy (vy p - GRAVITY * dt) p.

(** Lines 594-598: the jump test and the jump. *)
Definition jump_test (p : Player) (inp : Input) : bool :=
  (grounded p || (time_since_grounded p <? BUNNY_HOP_TIME)) && jump inp.

Definition apply_jump (p : Player) (inp : Input) : Player :=
  if jump_test p inp then
    set_time_since_grounded BUNNY_HOP_TIME
      (set_grounded false (set_vy JUMP_VELOCITY p))
  else p.

(** Lines 600-602. *)
Definition integrate (p : Player) (dt : Q) : Player :=
  let p := set_px (px p + vx p * dt) p in
  let p := set_py (py p + vy p * dt) p in
  set_pz (pz p + vz p * dt) p.

(** The player as [physics_step] hands it to [resolve_collisions]. *)
Definition before_collisions (p : Player) (inp : Input) (dt : Q) : Player :=
  let p := horizontal_velocity p inp dt in
  let p := update_ground_timer p dt in
  let p := apply_gravity p dt in
  let p := apply_jump p inp in
  integrate p dt.

Definition physics_step (m : Map) (st : Player * bool) (inp : Input) (dt : Q)
    : result (Player * bool) :=
  let '(p, level_complete) := st in
  resolve_collisions m (before_collisions p inp dt, level_complete).

End Controller.

(** ** The fixed-step driver (the simulation part of the main loop) *)

Definition PHYS_DT : Q := 1.0 / 120.0.
Definition substeps : Z := 2.
Definition MOUSE_SMOOTH : Q := 0.6.

(** The locals of [main] that survive a frame, and the smoothing globals. *)
Record Driver : Type := mkDriver {
  state_prev : Player;
  state_curr : Player;
  level_complete : bool;
  accumulator : Q;
  prev_time : Q;
  mouse_dx_smooth : Q;
  mouse_dy_smooth : Q
}.

(** What a frame takes from outside the simulation: the clock, the [Input]
    left by event handling and key polling, the menu flag and the settings
    globals.  The event handling itself (menus, map loading, restart) is
    modelled further below, in [main_iteration]. *)
Record Frame : Type := mkFrame {
  cur : Q;
  inp : Input;
  menu_open : bool;
  mouse_sensitivity : Q;
  invert_mouse_y : bool;
  invert_mouse_x : bool
}.

(** The fields [main] assigns to [render_player]. *)
Record Render : Type := mkRender {
  r_px : Q; r_py : Q; r_pz : Q;
  r_vx : Q; r_vy : Q; r_vz : Q;
  r_yaw : Q; r_pitch : Q;
  r_grounded : bool
}.

(** The state [main] starts its loop with, [t0] being the first reading of
    the clock. *)
Definition init_driver (t0 : Q) : Driver :=
  let s := mkPlayer 3.5 2.0 3.5 0 0 0 0.0 0.0 false 0 in
  mkDriver s s false 0.0 t0 0.0 0.0.

(** Lines 688-691. *)
Definition frame_clock (d : Driver) (f : Frame) : Driver :=
  let frame_dt := clampd (cur f - prev_time d) 0.0 0.25 in
  mkDriver (state_prev d) (state_curr d) (level_complete d)
           (accumulator d + frame_dt) (cur f)
           (mouse_dx_smooth d) (mouse_dy_smooth d).

(** Lines 838-849: mouse smoothing, applied to the yaw and pitch of
    [state_curr]. *)
Definition look_update (d : Driver) (f : Frame) : Driver :=
  let dx := lerp (mouse_dx_smooth d) (inject_Z (mouse_dx (inp f)))
                 (1.0 - MOUSE_SMOOTH) in
  let dy := lerp (mouse_dy_smooth d) (inject_Z (mouse_dy (inp f)))
                 (1.0 - MOUSE_SMOOTH) in
  let curr :=
    if negb (menu_open f) then
      let xsign := if invert_mouse_x f then - 1.0 else 1.0 in
      let c := set_yaw (yaw (state_curr d) + xsign * dx * mouse_sensitivity f)
                       (state_curr d) in
      let ysign := if invert_mouse_y f then 1.0 else - 1.0 in
      let c := set_pitch (pitch c + ysign * dy * mouse_sensitivity f) c in
      set_pitch (clampd (pitch c) (- 1.45) 1.45) c
    else state_curr d in
  mkDriver (state_prev d) curr (level_complete d) (accumulator d)
           (prev_time d) dx dy.

(** The values [0 .. n-1] of a counting [for] loop. *)
Definition count_up (n : Z) : list Z := map Z.of_nat (seq 0 (Z.to_nat n)).

Section Driver.

Variable libm : Libm.
Variable m : Map.

(** Line 855: one accumulated fixed step, run as [substeps] physics steps. *)
Definition fixed_step (st : Player * bool) (i : Input)
    : result (Player * bool) :=
  for_each
    (fun st (_ : Z) => physics_step libm m st i (PHYS_DT / inject_Z substeps))
    (count_up substeps) st.

(** Lines 854-857.  The loop is bounded by [fuel]; next to the accumulator
    and the state it returns a trace, which the program does not have: the
    [Input] given to each fixed step and the state after it. *)
Fixpoint step_loop (fuel : nat) (i : Input) (acc : Q) (st : Player * bool)
    : result (Q * (Player * bool) * list (Input * (Player * bool))) :=
  if acc >=? PHYS_DT then
    match fuel with
    | O => OutOfFuel
    | S fuel' =>
        st' <- fixed_step st i ;;
        '(acc', st'', tr) <- step_loop fuel' i (acc - PHYS_DT) st' ;;
        Ok (acc', st'', (i, st') :: tr)
    end
  else Ok (acc, st, []).

(** Lines 858-868. *)
Definition interpolate (prev curr : Player) (alpha : Q) : Render :=
  mkRender
    (px prev + (px curr - px prev) * alpha)
    (py prev + (py curr - py prev) * alpha)
    (pz prev + (pz curr - pz prev) * alpha)
    (vx prev + (vx curr - vx prev) * alpha)
    (vy prev + (vy curr - vy prev) * alpha)
    (vz prev + (vz curr - vz prev) * alpha)
    (yaw prev + (yaw curr - yaw prev) * alpha)
    (pitch prev + (pitch curr - pitch prev) * alpha)
    (grounded curr).

(** What one frame yields: [alpha] and [render_player], and for the record
    the [state_prev] the frame interpolated from and the trace of the fixed
    steps it ran. *)
Record FrameOut : Type := mkFrameOut {
  alpha : Q;
  render_player : Render;
  frame_prev : Player;
  steps_run : list (Input * (Player * bool))
}.

(** One iteration of the main loop, lines 688-691 and 838-868. *)
Definition frame (fuel : nat) (d : Driver) (f : Frame)
    : result (Driver * FrameOut) :=
  let d := frame_clock d f in
  let d := look_update d f in
  let prev := state_curr d in
  '(acc, (curr, lc), tr) <-
     step_loop fuel (inp f) (accumulator d) (state_curr d, level_complete d) ;;
  let alpha := acc / PHYS_DT in
  Ok (mkDriver prev curr lc acc (prev_time d)
               (mouse_dx_smooth d) (mouse_dy_smooth d),
      mkFrameOut alpha (interpolate prev curr alpha) prev tr).

(** The main loop over the frames [fs]. *)
Fixpoint run (fuel : nat) (d : Driver) (fs : list Frame)
    : result (Driver * list FrameOut) :=
  match fs with
  | [] => Ok (d, [])
  | f :: fs' =>
      '(d', o) <- frame fuel d f ;;
      '(d'', os) <- run fuel d' fs' ;;
      Ok (d'', o :: os)
  end.

End Driver.

(** ** The demo map *)

(** Writing [a[i] = v]. *)
Definition write (a : list Z) (i : Z) (v : Z) : result (list Z) :=
  if (i <? 0)%Z || (Z.of_nat (length a) <=? i)%Z then Undefined
  else Ok (firstn (Z.to_nat i) a ++ v :: skipn (S (Z.to_nat i)) a).

(** The values [a .. b-1] of a counting [for] loop. *)
Definition count_from (a b : Z) : list Z :=
  map (fun k => (a + Z.of_nat k)%Z) (seq 0 (Z.to_nat (b - a))).

(** [generate_demo_map], lines 224-248; the two arrays are the fresh
    blocks of [map_w * map_h] bytes that [memset] has filled ([malloc] is
    taken to succeed). *)
Definition generate_demo_map : result Map :=
  let map_w := 32%Z in
  let map_h := 32%Z in
  let map_cells := repeat TILE_EMPTY (Z.to_nat (map_w * map_h)) in
  let map_rots := repeat 0%Z (Z.to_nat (map_w * map_h)) in
  map_cells <-
    for_each
      (fun cells z =>
         for_each
           (fun cells x =>
              if (z =? 0)%Z || (x =? 0)%Z || (z =? map_h - 1)%Z
                 || (x =? map_w - 1)%Z
              then write cells (z * map_w + x) TILE_CUBE
              else write cells (z * map_w + x) TILE_EMPTY)
           (count_up map_w) cells)
      (count_up map_h) map_cells ;;
  map_cells <- write map_cells (6 * map_w + 6) TILE_WEDGE ;;
  map_rots <- write map_rots (6 * map_w + 6) 0 ;;
  map_cells <- write map_cells (6 * map_w + 8) TILE_WEDGE ;;
  map_rots <- write map_rots (6 * map_w + 8) 1 ;;
  map_cells <- write map_cells (8 * map_w + 6) TILE_WEDGE ;;
  map_rots <- write map_rots (8 * map_w + 6) 2 ;;
  map_cells <- write map_cells (8 * map_w + 8) TILE_WEDGE ;;
  map_rots <- write map_rots (8 * map_w + 8) 3 ;;
  map_cells <-
    for_each (fun cells x => write cells (12 * map_w + x) TILE_CUBE)
             (count_from 10 18) map_cells ;;
  map_cells <-
    write map_cells (Z.quot map_h 2 * map_w + Z.quot map_w 2) TILE_END ;;
  Ok (mkMap map_w map_h map_cells map_rots).

(** ** The loader's temporary arrays

    Of [load_map_json_like] (lines 103-221) the model has what it does with
    the cells once the text is scanned: the store of a scanned cell into the
    two temporary arrays, and the copy of those arrays into the map.  The
    reading of the file and the scanning of its text are left out. *)

Definition tmpw : Z := 128.
Definition tmph : Z := 128.

(** [calloc(nmemb, size)]: a block of [nmemb * size] zero bytes. *)
Definition calloc (nmemb size : Z) : list Z :=
  repeat 0%Z (Z.to_nat (nmemb * size)).

(** Lines 133 and 134. *)
Definition tmp_types_block : list Z := calloc (tmpw * tmph) 1.
Definition tmp_rots_block : list Z := calloc (tmpw * tmph) 0.

(** The conversion [(uint8_t) v]. *)
Definition uint8 (v : Z) : Z := (v mod 256)%Z.

(** Lines 159-162: the store of a cell written as a pair [[type, rot]]; the
    state is the pair of the blocks [tmp_types] and [tmp_rots]. *)
Definition store_pair (tmp : list Z * list Z) (row col type rot : Z)
    : result (list Z * list Z) :=
  let '(tmp_types, tmp_rots) := tmp in
  if ((row <? tmph) && (col <? tmpw))%Z then
    rw <- int_mul row tmpw ;;
    i <- int_add rw col ;;
    tmp_types <- write tmp_types i (uint8 type) ;;
    tmp_rots <- write tmp_rots i (uint8 (Z.land rot 3)) ;;
    Ok (tmp_types, tmp_rots)
  else Ok tmp.

(** Lines 176-179: the store of a cell written as a bare number. *)
Definition store_value (tmp : list Z * list Z) (row col val : Z)
    : result (list Z * list Z) :=
  let '(tmp_types, tmp_rots) := tmp in
  if ((row <? tmph) && (col <? tmpw))%Z then
    rw <- int_mul row tmpw ;;
    i <- int_add rw col ;;
    tmp_types <- write tmp_types i (uint8 val) ;;
    tmp_rots <- write tmp_rots i 0 ;;
    Ok (tmp_types, tmp_rots)
  else Ok tmp.

(** Lines 192-213: the map is set up from what the scan left: the width and
    height read ([w], [h], 0 when absent), the number of rows scanned
    ([row]) and the two blocks.  Both calls of [malloc] are taken to
    succeed; every byte of the new arrays is written before it is read. *)
Definition install_map (w h row : Z) (tmp : list Z * list Z) : result Map :=
  let '(tmp_types, tmp_rots) := tmp in
  let w := if (w <=? 0)%Z then tmpw else w in
  let h := if (h <=? 0)%Z then row else h in
  let map_w := w in
  let map_h := h in
  n <- int_mul map_w map_h ;;
  let map_cells := repeat 0%Z (Z.to_nat n) in
  let map_rots := repeat 0%Z (Z.to_nat n) in
  '(map_cells, map_rots) <-
    for_each
      (fun arrays rz =>
         for_each
           (fun '(cells, rots) rx =>
              '(v, r) <-
                (if ((rz <? tmph) && (rx <? tmpw))%Z then
                   rw <- int_mul rz tmpw ;;
                   i <- int_add rw rx ;;
                   v <- read tmp_types i ;;
                   r <- read tmp_rots i ;;
                   Ok (v, r)
                 else Ok (0%Z, 0%Z)) ;;
              rw <- int_mul rz map_w ;;
              j <- int_add rw rx ;;
              cells <- write cells j v ;;
              rots <- write rots j r ;;
              Ok (cells, rots))
           (count_up map_w) arrays)
      (count_up map_h) (map_cells, map_rots) ;;
  Ok (mkMap map_w map_h map_cells map_rots).

(** ** Drawing geometry *)

Module Vec3.
Record t : Type := mk { x : Q; y : Q; z : Q }.
End Vec3.

Module Camera.
Record t : Type := mk {
  x : Q; y : Q; z : Q;
  yaw : Q; pitch : Q;
  fov : Q
}.
End Camera.

Definition WIN_W : Z := 1280.
Definition WIN_H : Z := 768.

(** [project_point], lines 251-267: [None] is the return value 0, which
    leaves [*sx] and [*sy] unwritten; [tan] is the tangent of math.h.  Where
    that tangent is 0, [scale] is an infinity and the two products are
    infinite or not a number: their conversion to [int] is undefined. *)
Definition project_point (libm : Libm) (tan : Q -> Q) (p : Vec3.t)
    (cam : Camera.t) : result (option (Z * Z)) :=
  let rx := Vec3.x p - Camera.x cam in
  let ry := Vec3.y p - Camera.y cam in
  let rz := Vec3.z p - Camera.z cam in
  let cosy := cos libm (- Camera.yaw cam) in
  let siny := sin libm (- Camera.yaw cam) in
  let x1 := rx * cosy - rz * siny in
  let z1 := rx * siny + rz * cosy in
  let cosp := cos libm (- Camera.pitch cam) in
  let sinp := sin libm (- Camera.pitch cam) in
  let y1 := ry * cosp - z1 * sinp in
  let z2 := ry * sinp + z1 * cosp in
  if z2 <=? 0.001 then Ok None
  else
    let aspect := inject_Z WIN_W / inject_Z WIN_H in
    let t := tan (Camera.fov cam * 0.5) in
    if Qeq_bool t 0 then Undefined
    else
      let scale := 1.0 / t in
      let xndc := (x1 / z2) * scale * aspect in
      let yndc := (y1 / z2) * scale in
      sx <- int_of_double ((xndc * 0.5 + 0.5) * inject_Z WIN_W) ;;
      sy <- int_of_double ((- yndc * 0.5 + 0.5) * inject_Z WIN_H) ;;
      Ok (Some (sx, sy)).

(** The corners [draw_wire_cube] computes (lines 270-279) for a cube of side
    [s] centred at [(cx, cy, cz)]. *)
Definition wire_cube_corners (cx cy cz s : Q) : list Vec3.t :=
  let hs := s * 0.5 in
  [ Vec3.mk (cx - hs) (cy - hs) (cz - hs);
    Vec3.mk (cx + hs) (cy - hs) (cz - hs);
    Vec3.mk (cx + hs) (cy - hs) (cz + hs);
    Vec3.mk (cx - hs) (cy - hs) (cz + hs);
    Vec3.mk (cx - hs) (cy + hs) (cz - hs);
    Vec3.mk (cx + hs) (cy + hs) (cz - hs);
    Vec3.mk (cx + hs) (cy + hs) (cz + hs);
    Vec3.mk (cx - hs) (cy + hs) (cz + hs) ].

(** The corners [draw_wedge] computes (lines 292-327) for the tile
    [(tx, tz)] and the rotation [rot]: four on the ground, then the four of
    the sloped top. *)
Definition wedge_corners (tx tz rot : Z) : list Vec3.t :=
  let x0 := inject_Z tx in
  let x1 := inject_Z tx + 1.0 in
  let z0 := inject_Z tz in
  let z1 := inject_Z tz + 1.0 in
  let '(h00, h10, h01, h11) :=
    if (rot =? 0)%Z then (0.0, 1.0, 0.0, 1.0)
    else if (rot =? 1)%Z then (1.0, 0.0, 1.0, 0.0)
    else if (rot =? 2)%Z then (0.0, 0.0, 1.0, 1.0)
    else (1.0, 1.0, 0.0, 0.0) in
  [ Vec3.mk x0 0.0 z0; Vec3.mk x1 0.0 z0; Vec3.mk x1 0.0 z1;
    Vec3.mk x0 0.0 z1;
    Vec3.mk x0 h00 z0; Vec3.mk x1 h10 z0; Vec3.mk x1 h11 z1;
    Vec3.mk x0 h01 z1 ].

(** What [draw_map] (lines 348-360) draws for the cell [(x, z)] of tile [t]
    and rotation [r]: the corners it has [draw_wire_cube] or [draw_wedge]
    compute, or nothing. *)
Definition draw_cell (t r : Z) (x z : Z) : option (list Vec3.t) :=
  if (t =? TILE_EMPTY)%Z then None
  else if (t =? TILE_CUBE)%Z then
    Some (wire_cube_corners (inject_Z x + 0.5) 0.5 (inject_Z z + 0.5) 1.0)
  else if (t =? TILE_WEDGE)%Z then Some (wedge_corners x z r)
  else if (t =? TILE_END)%Z then
    Some (wire_cube_corners (inject_Z x + 0.5) 0.5 (inject_Z z + 0.5) 1.0)
  else None.

(** Lines 870-875: camera follow. *)
Definition camera_follow (cam : Camera.t) (render_player : Render)
    : Camera.t :=
  Camera.mk (lerp (Camera.x cam) (r_px render_player) 0.12)
            (lerp (Camera.y cam) (r_py render_player + 0.6) 0.12)
            (lerp (Camera.z cam) (r_pz render_player) 0.12)
            (lerp (Camera.yaw cam) (r_yaw render_player) 0.18)
            (lerp (Camera.pitch cam) (r_pitch render_player) 0.18)
            (Camera.fov cam).

(** ** Events, the menu and the whole main loop

    The loop of [main] without its drawing calls.  What it takes from
    outside is explicit: the clock, the events [SDL_PollEvent] hands out, the
    keyboard state, and what [load_map_json_like] does for a path. *)

(** The key codes the event handling tells apart; any other is
    [SDLK_other]. *)
Inductive Key : Type :=
| SDLK_ESCAPE | SDLK_UP | SDLK_DOWN | SDLK_RETURN | SDLK_LEFT | SDLK_RIGHT
| SDLK_i | SDLK_x | SDLK_BACKSPACE | SDLK_other.

Definition Key_eqb (a b : Key) : bool :=
  match a, b with
  | SDLK_ESCAPE, SDLK_ESCAPE | SDLK_UP, SDLK_UP | SDLK_DOWN, SDLK_DOWN
  | SDLK_RETURN, SDLK_RETURN | SDLK_LEFT, SDLK_LEFT | SDLK_RIGHT, SDLK_RIGHT
  | SDLK_i, SDLK_i | SDLK_x, SDLK_x | SDLK_BACKSPACE, SDLK_BACKSPACE
  | SDLK_other, SDLK_other => true
  | _, _ => false
  end.

(** An [SDL_Event] by its type, with the fields the loop reads; the text
    of a text-input event is its bytes before the terminating NUL. *)
Inductive Event : Type :=
| SDL_QUIT
| SDL_KEYDOWN (sym : Key)
| SDL_TEXTINPUT (text : list Z)
| SDL_MOUSEMOTION (xrel yrel : Z)
| SDL_other_event.

(** The entries of the keyboard state array the loop reads. *)
Record Keyboard : Type := mkKeyboard {
  SDL_SCANCODE_W : bool; SDL_SCANCODE_S : bool;
  SDL_SCANCODE_A : bool; SDL_SCANCODE_D : bool;
  SDL_SCANCODE_SPACE : bool;
  SDL_SCANCODE_LSHIFT : bool; SDL_SCANCODE_RSHIFT : bool;
  SDL_SCANCODE_R : bool
}.

(** The text in [load_err]: empty, or one of the two messages the loop
    prints into it. *)
Inductive LoadErr : Type :=
| no_message
| enter_a_path_first
| failed_to_load (code : Z).

(** The menu globals and [running], with the two modes of SDL the loop
    switches: relative mouse mode and text input.  [load_path] is the
    string in the buffer, up to its terminating NUL. *)
Record Menu : Type := mkMenu {
  running : bool;
  menu_selected : Z;
  menu_sub : Z;
  load_path : list Z;
  load_path_len : Z;
  load_err : LoadErr;
  relative_mouse_mode : bool;
  text_input : bool
}.

Definition set_running (b : bool) (u : Menu) : Menu :=
  mkMenu b (menu_selected u) (menu_sub u) (load_path u) (load_path_len u)
         (load_err u) (relative_mouse_mode u) (text_input u).
Definition set_menu_selected (v : Z) (u : Menu) : Menu :=
  mkMenu (running u) v (menu_sub u) (load_path u) (load_path_len u)
         (load_err u) (relative_mouse_mode u) (text_input u).
Definition set_menu_sub (v : Z) (u : Menu) : Menu :=
  mkMenu (running u) (menu_selected u) v (load_path u) (load_path_len u)
         (load_err u) (relative_mouse_mode u) (text_input u).
Definition set_load_path (s : list Z) (u : Menu) : Menu :=
  mkMenu (running u) (menu_selected u) (menu_sub u) s (load_path_len u)
         (load_err u) (relative_mouse_mode u) (text_input u).
Definition set_load_path_len (v : Z) (u : Menu) : Menu :=
  mkMenu (running u) (menu_selected u) (menu_sub u) (load_path u) v
         (load_err u) (relative_mouse_mode u) (text_input u).
Definition set_load_err (e : LoadErr) (u : Menu) : Menu :=
  mkMenu (running u) (menu_selected u) (menu_sub u) (load_path u)
         (load_path_len u) e (relative_mouse_mode u) (text_input u).
Definition SDL_SetRelativeMouseMode (b : bool) (u : Menu) : Menu :=
  mkMenu (running u) (menu_selected u) (menu_sub u) (load_path u)
         (load_path_len u) (load_err u) b (text_input u).
Definition SDL_StartTextInput (u : Menu) : Menu :=
  mkMenu (running u) (menu_selected u) (menu_sub u) (load_path u)
         (load_path_len u) (load_err u) (relative_mouse_mode u) true.
Definition SDL_StopTextInput (u : Menu) : Menu :=
  mkMenu (running u) (menu_selected u) (menu_sub u) (load_path u)
         (load_path_len u) (load_err u) (relative_mouse_mode u) false.

Definition set_cur (t : Q) (f : Frame) : Frame :=
  mkFrame t (inp f) (menu_open f) (mouse_sensitivity f) (invert_mouse_y f)
          (invert_mouse_x f).
Definition set_inp (i : Input) (f : Frame) : Frame :=
  mkFrame (cur f) i (menu_open f) (mouse_sensitivity f) (invert_mouse_y f)
          (invert_mouse_x f).
Definition set_menu_open (b : bool) (f : Frame) : Frame :=
  mkFrame (cur f) (inp f) b (mouse_sensitivity f) (invert_mouse_y f)
          (invert_mouse_x f).
Definition set_mouse_sensitivity (v : Q) (f : Frame) : Frame :=
  mkFrame (cur f) (inp f) (menu_open f) v (invert_mouse_y f)
          (invert_mouse_x f).
Definition set_invert_mouse_y (b : bool) (f : Frame) : Frame :=
  mkFrame (cur f) (inp f) (menu_open f) (mouse_sensitivity f) b
          (invert_mouse_x f).
Definition set_invert_mouse_x (b : bool) (f : Frame) : Frame :=
  mkFrame (cur f) (inp f) (menu_open f) (mouse_sensitivity f)
          (invert_mouse_y f) b.

(** Everything the main loop carries from one iteration to the next: the
    menu, the frame's clock, [Input] and settings, the simulation, the map
    globals and the camera. *)
Record Loop : Type := mkLoop {
  ui : Menu;
  fr : Frame;
  drv : Driver;
  world : Map;
  cam : Camera.t
}.

Definition with_ui (u : Menu) (l : Loop) : Loop :=
  mkLoop u (fr l) (drv l) (world l) (cam l).
Definition with_fr (f : Frame) (l : Loop) : Loop :=
  mkLoop (ui l) f (drv l) (world l) (cam l).
Definition with_drv (d : Driver) (l : Loop) : Loop :=
  mkLoop (ui l) (fr l) d (world l) (cam l).
Definition with_world (m : Map) (l : Loop) : Loop :=
  mkLoop (ui l) (fr l) (drv l) m (cam l).

Definition M_PI : Q := 3.14159265358979323846.

(** Lines 657-683 and the initial values of the globals: the state [main]
    enters its loop with, [m] being the map it has loaded or generated and
    [t0] the first reading of the clock. *)
Definition init_loop (m : Map) (t0 : Q) : Loop :=
  let d := init_driver t0 in
  mkLoop (mkMenu true 0 0 [] 0 no_message true true)
         (mkFrame t0 (mkInput 0 0 false false 0 0) false 0.0028 true false)
         d m
         (Camera.mk (px (state_curr d)) (py (state_curr d) + 0.6)
                    (pz (state_curr d)) (yaw (state_curr d))
                    (pitch (state_curr d)) (60.0 * M_PI / 180.0)).

(** Lines 688 and 693-698: the clock is read and [in] is cleared. *)
Definition begin_frame (l : Loop) (t : Q) : Loop :=
  with_fr (set_inp (mkInput 0 0 false false 0 0) (set_cur t (fr l))) l.

(** Lines 752-759: the keys of the settings page. *)
Definition settings_key (l : Loop) (sym : Key) : Loop :=
  let f := fr l in
  let f := if Key_eqb sym SDLK_LEFT
           then set_mouse_sensitivity
                  (clampd (mouse_sensitivity f - 0.0005) 0.0005 0.01) f
           else f in
  let f := if Key_eqb sym SDLK_RIGHT
           then set_mouse_sensitivity
                  (clampd (mouse_sensitivity f + 0.0005) 0.0005 0.01) f
           else f in
  let f := if Key_eqb sym SDLK_i
           then set_invert_mouse_y (negb (invert_mouse_y f)) f else f in
  let f := if Key_eqb sym SDLK_x
           then set_invert_mouse_x (negb (invert_mouse_x f)) f else f in
  let u := if Key_eqb sym SDLK_ESCAPE
           then SDL_SetRelativeMouseMode false (set_menu_sub 0 (ui l))
           else ui l in
  with_ui u (with_fr f l).

(** Lines 727-750: Return in the menu. *)
Definition menu_return (l : Loop) : Loop :=
  let u := ui l in
  if (menu_sub u =? 1)%Z then l
  else if (menu_selected u =? 0)%Z then
    with_ui (SDL_SetRelativeMouseMode true (set_menu_sub 0 u))
            (with_fr (set_menu_open false (fr l)) l)
  else if (menu_selected u =? 1)%Z then
    with_ui (SDL_SetRelativeMouseMode false
               (SDL_StartTextInput
                  (set_load_err no_message
                     (set_load_path []
                        (set_load_path_len 0 (set_menu_sub 1 u)))))) l
  else if (menu_selected u =? 2)%Z then
    with_ui (SDL_SetRelativeMouseMode false (set_menu_sub 2 u)) l
  else if (menu_selected u =? 3)%Z then
    with_ui (SDL_SetRelativeMouseMode false (set_menu_sub 3 u)) l
  else if (menu_selected u =? 4)%Z then
    with_ui (set_running false u) l
  else l.

(** Lines 703-761: a key press and the menu. *)
Definition menu_key (l : Loop) (sym : Key) : Loop :=
  let u := ui l in
  let open := menu_open (fr l) in
  if negb open && Key_eqb sym SDLK_ESCAPE then
    with_ui (SDL_SetRelativeMouseMode false
               (set_menu_sub 0 (set_menu_selected 0 u)))
            (with_fr (set_menu_open true (fr l)) l)
  else if open && Key_eqb sym SDLK_ESCAPE then
    if negb (menu_sub u =? 0)%Z then
      with_ui (SDL_SetRelativeMouseMode false
                 (SDL_StopTextInput
                    (set_load_err no_message
                       (set_load_path []
                          (set_load_path_len 0 (set_menu_sub 0 u)))))) l
    else
      with_ui (SDL_SetRelativeMouseMode true (set_menu_sub 0 u))
              (with_fr (set_menu_open false (fr l)) l)
  else if open && Key_eqb sym SDLK_UP then
    with_ui (set_menu_selected (Z.rem (menu_selected u + 4) 5) u) l
  else if open && Key_eqb sym SDLK_DOWN then
    with_ui (set_menu_selected (Z.rem (menu_selected u + 1) 5) u) l
  else if open && Key_eqb sym SDLK_RETURN then menu_return l
  else if open && (menu_sub u =? 2)%Z then settings_key l sym
  else l.

(** Lines 762-768: typed text goes to the path of the load page while it
    fits the buffer of 512 bytes. *)
Definition text_typed (l : Loop) (text : list Z) : Loop :=
  let u := ui l in
  let add := Z.of_nat (length text) in
  if (load_path_len u + add <? 512 - 1)%Z then
    with_ui (set_load_path_len (load_path_len u + add)
               (set_load_path (load_path u ++ text) u)) l
  else l.

(** Lines 769-774: mouse motion is summed into [in] while the menu is
    closed. *)
Definition mouse_motion (l : Loop) (xrel yrel : Z) : result Loop :=
  if negb (menu_open (fr l)) then
    let i := inp (fr l) in
    dx <- int_add (mouse_dx i) xrel ;;
    dy <- int_add (mouse_dy i) yrel ;;
    Ok (with_fr (set_inp (mkInput (move_fwd i) (move_strafe i) (jump i)
                                  (sprint i) dx dy) (fr l)) l)
  else Ok l.

Section MainLoop.

Variable libm : Libm.

(** [load_map_json_like] reads a file: the model takes as a parameter what a
    call returns for a path, with the map globals as the call leaves them
    when it starts from the globals given (the two arrays set to NULL). *)
Variable load_map_json_like : list Z -> Map -> Z * Map.

(** Lines 783-816: Return on the load page. *)
Definition load_return (l : Loop) : Loop :=
  let u := set_load_err no_message (ui l) in
  if (load_path_len u >? 0)%Z then
    let old := world l in
    let '(res, loaded) := load_map_json_like (load_path u) old in
    if (res =? 0)%Z then
      let c := state_curr (drv l) in
      let c := set_px 3.5 c in
      let c := set_pz 3.5 c in
      let c := set_py 2.0 c in
      let c := set_vx 0.0 (set_vy 0.0 (set_vz 0.0 c)) in
      let c := set_grounded false c in
      let c := set_time_since_grounded 0.0 c in
      let d := drv l in
      mkLoop (SDL_SetRelativeMouseMode true
                (SDL_StopTextInput (set_menu_sub 0 u)))
             (set_menu_open false (fr l))
             (mkDriver (state_prev d) c (level_complete d) (accumulator d)
                       (prev_time d) (mouse_dx_smooth d) (mouse_dy_smooth d))
             loaded (cam l)
    else
      mkLoop (set_load_err (failed_to_load res) u) (fr l) (drv l)
             (mkMap (map_w loaded) (map_h loaded) (map_cells old)
                    (map_rots old))
             (cam l)
  else with_ui (set_load_err enter_a_path_first u) l.

(** Lines 775-825: a key press on the load page. *)
Definition load_key (l : Loop) (sym : Key) : Loop :=
  let u := ui l in
  if Key_eqb sym SDLK_BACKSPACE then
    if (load_path_len u >? 0)%Z then
      with_ui (set_load_path
                 (firstn (Z.to_nat (load_path_len u - 1)) (load_path u))
                 (set_load_path_len (load_path_len u - 1) u)) l
    else l
  else if Key_eqb sym SDLK_RETURN then load_return l
  else if Key_eqb sym SDLK_ESCAPE then
    with_ui (SDL_SetRelativeMouseMode false
               (SDL_StopTextInput
                  (set_load_err no_message
                     (set_load_path []
                        (set_load_path_len 0 (set_menu_sub 0 u)))))) l
  else l.

(** Lines 702-825: the body of the event loop, its five tests in order. *)
Definition handle_event (l : Loop) (ev : Event) : result Loop :=
  let l := match ev with
           | SDL_QUIT => with_ui (set_running false (ui l)) l
           | _ => l
           end in
  let l := match ev with
           | SDL_KEYDOWN sym => menu_key l sym
           | _ => l
           end in
  let l := match ev with
           | SDL_TEXTINPUT text =>
               if (menu_sub (ui l) =? 1)%Z then text_typed l text else l
           | _ => l
           end in
  l <- match ev with
       | SDL_MOUSEMOTION xrel yrel => mouse_motion l xrel yrel
       | _ => Ok l
       end ;;
  Ok (match ev with
      | SDL_KEYDOWN sym =>
          if (menu_sub (ui l) =? 1)%Z then load_key l sym else l
      | _ => l
      end).

(** Lines 701-826: the events of one frame, in the order [SDL_PollEvent]
    hands them out. *)
Definition poll_events (l : Loop) (evs : list Event) : result Loop :=
  for_each handle_event evs l.

(** Lines 828-836: the held keys, [kb] being the keyboard state after the
    events were polled. *)
Definition continuous_keys (l : Loop) (kb : Keyboard) : Loop :=
  let i := inp (fr l) in
  let i :=
    if negb (menu_open (fr l)) then
      mkInput ((if SDL_SCANCODE_W kb then 1.0 else 0.0)
               - (if SDL_SCANCODE_S kb then 1.0 else 0.0))
              ((if SDL_SCANCODE_D kb then 1.0 else 0.0)
               - (if SDL_SCANCODE_A kb then 1.0 else 0.0))
              (SDL_SCANCODE_SPACE kb)
              (SDL_SCANCODE_LSHIFT kb || SDL_SCANCODE_RSHIFT kb)
              (mouse_dx i) (mouse_dy i)
    else mkInput 0 0 false false (mouse_dx i) (mouse_dy i) in
  with_fr (set_inp i (fr l)) l.

(** Lines 918-935, without the drawing: R restarts a completed level. *)
Definition restart (d : Driver) (kb : Keyboard) : Driver :=
  if level_complete d then
    if SDL_SCANCODE_R kb then
      let c := state_curr d in
      let c := set_px 3.5 c in
      let c := set_pz 3.5 c in
      let c := set_py 2.0 c in
      let c := set_vx 0.0 (set_vy 0.0 (set_vz 0.0 c)) in
      let c := set_grounded false c in
      mkDriver (state_prev d) c false (accumulator d) (prev_time d)
               (mouse_dx_smooth d) (mouse_dy_smooth d)
    else d
  else d.

(** One iteration of the main loop, lines 688-935, without the drawing:
    [t] is the clock, [evs] the pending events and [kb] the keyboard
    state.  The clock lines 689-691 run inside [frame], after the events
    here and before them in [main]: the events neither read nor write the
    accumulator and [prev_time]. *)
Definition main_iteration (fuel : nat) (l : Loop) (t : Q)
    (evs : list Event) (kb : Keyboard) : result (Loop * FrameOut) :=
  let l := begin_frame l t in
  l <- poll_events l evs ;;
  let l := continuous_keys l kb in
  '(d, o) <- frame libm (world l) fuel (drv l) (fr l) ;;
  let c := camera_follow (cam l) (render_player o) in
  Ok (mkLoop (ui l) (fr l) (restart d kb) (world l) c, o).

(** [while (running)] over the frames the outside world supplies. *)
Fixpoint main_loop (fuel : nat) (l : Loop)
    (frames : list (Q * list Event * Keyboard))
    : result (Loop * list FrameOut) :=
  match frames with
  | [] => Ok (l, [])
  | (t, evs, kb) :: frames' =>
      if running (ui l) then
        '(l', o) <- main_iteration fuel l t evs kb ;;
        '(l'', os) <- main_loop fuel l' frames' ;;
        Ok (l'', o :: os)
      else Ok (l, [])
  end.

End MainLoop.

(** ** Vocabulary of the specification *)

(** An axis-aligned box, and two boxes having no interior point in common. *)
Record Box : Type := mkBox {
  min_x : Q; max_x : Q;
  min_y : Q; max_y : Q;
  min_z : Q; max_z : Q
}.

Definition boxes_apart (a b : Box) : Prop :=
  max_x a <= min_x b \/ max_x b <= min_x a \/
  max_y a <= min_y b \/ max_y b <= min_y a \/
  max_z a <= min_z b \/ max_z b <= min_z a.

(** The player's bounding box: radius [PLAYER_RADIUS] around [(px, pz)], from
    the foot [py] up to [py + PLAYER_HEIGHT]. *)
Definition player_box (p : Player) : Box :=
  mkBox (px p - PLAYER_RADIUS) (px p + PLAYER_RADIUS)
        (py p) (py p + PLAYER_HEIGHT)
        (pz p - PLAYER_RADIUS) (pz p + PLAYER_RADIUS).

(** The unit cube of the cell [(cx, cz)]. *)
Definition cell_box (cx cz : Z) : Box :=
  mkBox (inject_Z cx) (inject_Z cx + 1) 0 1 (inject_Z cz) (inject_Z cz + 1).

(** Penetration depth of the interval [minA, maxA] into [minB, maxB]. *)
Definition penetration (minA maxA minB maxB : Q) : Q :=
  Qmin (maxA - minB) (maxB - minA).

Inductive Axis : Type := AxisY | AxisX | AxisZ.

(** [a] is the axis of least penetration among the depths [ex], [ey], [ez],
    ties going to Y before X before Z. *)
Definition least_axis (a : Axis) (ex ey ez : Q) : Prop :=
  match a with
  | AxisY => ey <= ex /\ ey <= ez
  | AxisX => ex < ey /\ ex <= ez
  | AxisZ => ez < ey /\ ez < ex
  end.

(** What resolving along one axis does to the player. *)
Definition resolved_along (a : Axis) (p : Player) (cx cz : Z) (p' : Player)
    : Prop :=
  match a with
  | AxisY =>
      px p' = px p /\ pz p' = pz p /\ vx p' = vx p /\ vz p' = vz p /\
      (py p' == 1 + 0.001 \/ py p' == 0 - PLAYER_HEIGHT - 0.001)
  | AxisX =>
      py p' = py p /\ pz p' = pz p /\ vy p' = vy p /\ vz p' = vz p /\
      grounded p' = grounded p /\
      (px p' == px p - pen_x p cx \/ px p' == px p + pen_x p cx) /\
      vx p' == vx p * 0.3
  | AxisZ =>
      px p' = px p /\ py p' = py p /\ vx p' = vx p /\ vy p' = vy p /\
      grounded p' = grounded p /\
      (pz p' == pz p - pen_z p cz \/ pz p' == pz p + pen_z p cz) /\
      vz p' == vz p * 0.3
  end.

(** The height field of a wedge over its unit cell, by rotation. *)
Definition height_field (rot : Z) (x z : Q) : Q :=
  if (rot =? 0)%Z then x
  else if (rot =? 1)%Z then 1 - x
  else if (rot =? 2)%Z then z
  else 1 - z.

Definition clamp01 (x : Q) : Q := Qmax 0 (Qmin 1 x).

(** The player stands within the footprint of the cell, inflated by the
    radius. *)
Definition in_wedge_footprint (p : Player) (cx cz : Z) : Prop :=
  - PLAYER_RADIUS <= px p - inject_Z cx <= 1 + PLAYER_RADIUS /\
  - PLAYER_RADIUS <= pz p - inject_Z cz <= 1 + PLAYER_RADIUS.

(** The fields no resolver writes. *)
Definition same_frame (p p' : Player) : Prop :=
  yaw p' = yaw p /\ pitch p' = pitch p /\
  time_since_grounded p' = time_since_grounded p.

(** The footprint of the player, the square of half-width [PLAYER_RADIUS]
    around [(px, pz)], and the square of the cell [(mx, mz)] have a point in
    common; the height plays no part. *)
Definition footprint_overlaps (p : Player) (mx mz : Z) : Prop :=
  inject_Z mx <= px p + PLAYER_RADIUS /\
  px p - PLAYER_RADIUS <= inject_Z mx + 1 /\
  inject_Z mz <= pz p + PLAYER_RADIUS /\
  pz p - PLAYER_RADIUS <= inject_Z mz + 1.

(** The offsets [(oz, ox)] of the 3x3 neighbourhood in the order the double
    loop of [resolve_collisions] visits them, and the loop over a part of
    them. *)
Definition neighbourhood : list (Z * Z) := list_prod offsets offsets.

Definition resolve_over (m : Map) (cx cz : Z) (cells : list (Z * Z))
    (st : Player * bool) : result (Player * bool) :=
  for_each (fun st c => resolve_cell m cx cz st (fst c) (snd c)) cells st.

(** The loop over [cells] around [(cx, cz)], started in [st], comes to a goal
    cell of the map, [(mx, mz)], that the footprint of the player overlaps:
    of the player [q] that the cells visited before it leave, the one the
    body of the loop tests against this cell. *)
Definition goal_met (m : Map) (cx cz : Z) (cells : list (Z * Z))
    (st : Player * bool) : Prop :=
  exists before oz ox after q lq mx mz,
    cells = before ++ (oz, ox) :: after /\
    resolve_over m cx cz before st = Ok (q, lq) /\
    int_add cx ox = Ok mx /\ int_add cz oz = Ok mz /\
    in_map m mx mz = true /\ tile_at m mx mz = Ok TILE_END /\
    footprint_overlaps q mx mz.

(** Collision resolution for a player at [p0] comes to such a goal cell in
    the 3x3 neighbourhood of [p0]'s cell. *)
Definition goal_hit (m : Map) (p0 : Player) : Prop :=
  exists cx cz,
    int_of_double (c_floor (px p0)) = Ok cx /\
    int_of_double (c_floor (pz p0)) = Ok cz /\
    goal_met m cx cz neighbourhood (p0, false).

(** The rendered state agrees with [p] on every continuous field. *)
Definition render_matches (r : Render) (p : Player) : Prop :=
  r_px r == px p /\ r_py r == py p /\ r_pz r == pz p /\
  r_vx r == vx p /\ r_vy r == vy p /\ r_vz r == vz p /\
  r_yaw r == yaw p /\ r_pitch r == pitch p.

(** Two player states hold the same numbers: every field of type [double]
    is equal as a rational ([==]), whatever fraction represents it, and
    [grounded] is the same. *)
Definition Player_eq (p q : Player) : Prop :=
  px p == px q /\ py p == py q /\ pz p == pz q /\
  vx p == vx q /\ vy p == vy q /\ vz p == vz q /\
  yaw p == yaw q /\ pitch p == pitch q /\
  grounded p = grounded q /\
  time_since_grounded p == time_since_grounded q.

(** The same for a state of the simulation: the player and the
    level-complete flag. *)
Definition state_eq (s t : Player * bool) : Prop :=
  Player_eq (fst s) (fst t) /\ snd s = snd t.

(** Two outcomes are the same failure, or two results related by [R]. *)
Definition result_rel {A : Type} (R : A -> A -> Prop) (r1 r2 : result A)
    : Prop :=
  match r1, r2 with
  | Ok a, Ok b => R a b
  | Undefined, Undefined => True
  | OutOfFuel, OutOfFuel => True
  | _, _ => False
  end.

(** [sin], [cos] and [sqrt] are functions of the number they are given, not
    of the fraction that represents it. *)
Definition libm_proper (libm : Libm) : Prop :=
  forall a b, a == b ->
    sin libm a == sin libm b /\ cos libm a == cos libm b /\
    sqrt libm a == sqrt libm b.

(** The look update of frame [f] leaves the current state of [d] holding the
    numbers it held. *)
Definition look_keeps (d : Driver) (f : Frame) : Prop :=
  Player_eq (state_curr (look_update d f)) (state_curr d).

(** It does so in every frame of the run over [fs] from [d]. *)
Fixpoint look_quiet (libm : Libm) (m : Map) (fuel : nat) (d : Driver)
    (fs : list Frame) : Prop :=
  match fs with
  | [] => True
  | f :: fs' =>
      look_keeps d f /\
      forall d' o, frame libm m fuel d f = Ok (d', o) ->
                   look_quiet libm m fuel d' fs'
  end.

(** The frame carries no mouse movement. *)
Definition mouse_still (f : Frame) : Prop :=
  mouse_dx (inp f) = 0%Z /\ mouse_dy (inp f) = 0%Z.

(** The fixed steps of a whole run, in order. *)
Definition all_steps (os : list FrameOut) : list (Input * (Player * bool)) :=
  concat (map steps_run os).

(** [n] physics steps with the same input. *)
Fixpoint physics_steps (libm : Libm) (m : Map) (n : nat) (st : Player * bool)
    (i : Input) (dt : Q) : result (Player * bool) :=
  match n with
  | O => Ok st
  | S n' => st' <- physics_step libm m st i dt ;;
            physics_steps libm m n' st' i dt
  end.

(** The fixed steps of a trace replayed from a state: the states after each
    of the inputs. *)
Fixpoint replay (libm : Libm) (m : Map) (st : Player * bool)
    (ins : list Input) : result (list (Player * bool)) :=
  match ins with
  | [] => Ok []
  | i :: ins' =>
      st' <- fixed_step libm m st i ;;
      sts <- replay libm m st' ins' ;;
      Ok (st' :: sts)
  end.

(** The map is as the loader leaves it: both arrays hold [map_w * map_h]
    cells, and that product is an [int]. *)
Definition map_ok (m : Map) : Prop :=
  (0 <= map_w m)%Z /\ (0 <= map_h m)%Z /\ (map_w m * map_h m <= INT_MAX)%Z /\
  length (map_cells m) = Z.to_nat (map_w m * map_h m) /\
  length (map_rots m) = Z.to_nat (map_w m * map_h m).

(** The cell of the coordinate [d], and its two neighbours, are [int]s. *)
Definition cell_in_range (d : Q) : Prop :=
  (INT_MIN < Qfloor d < INT_MAX)%Z.

(** ** Vocabulary of the further properties *)

(** No cell of the map among the 3x3 cells around [(cx, cz)] is a cube or a
    wedge. *)
Definition no_solid_near (m : Map) (cx cz : Z) : Prop :=
  forall oz ox, In oz offsets -> In ox offsets ->
    in_map m (cx + ox) (cz + oz) = true ->
    exists t, tile_at m (cx + ox) (cz + oz) = Ok t /\
              t <> TILE_CUBE /\ t <> TILE_WEDGE.

(** The same, computed. *)
Definition no_solid_nearb (m : Map) (cx cz : Z) : bool :=
  forallb
    (fun oz =>
       forallb
         (fun ox =>
            if in_map m (cx + ox) (cz + oz) then
              match tile_at m (cx + ox) (cz + oz) with
              | Ok t => negb (t =? TILE_CUBE)%Z && negb (t =? TILE_WEDGE)%Z
              | _ => false
              end
            else true)
         offsets)
    offsets.

(** The rotation the map holds for the cell [(x, z)], [map_rots[z * map_w +
    x]]. *)
Definition rot_at (m : Map) (x z : Z) : result Z :=
  i <- cell_index m x z ;; read (map_rots m) i.

(** A velocity component [v] braked to [v'] by at least [a], or to rest:
    toward zero, never across it. *)
Definition slows (v v' a : Q) : Prop :=
  (0 <= v ->
   0 <= v' /\ v' <= v /\ (v <= a -> v' == 0) /\ (a <= v -> v' <= v - a)) /\
  (v <= 0 ->
   v <= v' /\ v' <= 0 /\ (- a <= v -> v' == 0) /\ (v <= - a -> v + a <= v')).

(** [x] lies between [a] and [b], whichever is the larger. *)
Definition between (a x b : Q) : Prop := a <= x <= b \/ b <= x <= a.

(** The range the look update clamps the pitch to. *)
Definition pitch_ok (x : Q) : Prop := - 1.45 <= x <= 1.45.

(** Two points agree on every coordinate. *)
Definition Vec3_eq (a b : Vec3.t) : Prop :=
  Vec3.x a == Vec3.x b /\ Vec3.y a == Vec3.y b /\ Vec3.z a == Vec3.z b.

(** The corners of a box: the four of the bottom face, then the four of the
    top face, each face from [(min_x, min_z)] around by [(max_x, min_z)]. *)
Definition box_corners (b : Box) : list Vec3.t :=
  [ Vec3.mk (min_x b) (min_y b) (min_z b);
    Vec3.mk (max_x b) (min_y b) (min_z b);
    Vec3.mk (max_x b) (min_y b) (max_z b);
    Vec3.mk (min_x b) (min_y b) (max_z b);
    Vec3.mk (min_x b) (max_y b) (min_z b);
    Vec3.mk (max_x b) (max_y b) (min_z b);
    Vec3.mk (max_x b) (max_y b) (max_z b);
    Vec3.mk (min_x b) (max_y b) (max_z b) ].

(** Bilinear interpolation over the unit square of the values at its corners
    (0,0), (1,0), (0,1) and (1,1). *)
Definition bilinear (h00 h10 h01 h11 u v : Q) : Q :=
  h00 * (1 - u) * (1 - v) + h10 * u * (1 - v)
  + h01 * (1 - u) * v + h11 * u * v.

(** The camera after [n] frames of following the same rendered state. *)
Fixpoint follow_for (n : nat) (c : Camera.t) (r : Render) : Camera.t :=
  match n with
  | O => c
  | S n' => camera_follow (follow_for n' c r) r
  end.

(** A point and a camera moved by the vector [t]. *)
Definition translate (t p : Vec3.t) : Vec3.t :=
  Vec3.mk (Vec3.x p + Vec3.x t) (Vec3.y p + Vec3.y t) (Vec3.z p + Vec3.z t).

Definition move_camera (t : Vec3.t) (c : Camera.t) : Camera.t :=
  Camera.mk (Camera.x c + Vec3.x t) (Camera.y c + Vec3.y t)
            (Camera.z c + Vec3.z t) (Camera.yaw c) (Camera.pitch c)
            (Camera.fov c).

(** The menu is in one of its states: an entry of the five is selected, the
    page is none or one of the three, a page is shown only with the menu
    open, and the mouse is captured exactly while the menu is closed. *)
Definition menu_ok (l : Loop) : Prop :=
  (0 <= menu_selected (ui l) < 5)%Z /\
  (0 <= menu_sub (ui l) <= 3)%Z /\
  (menu_sub (ui l) <> 0%Z -> menu_open (fr l) = true) /\
  relative_mouse_mode (ui l) = negb (menu_open (fr l)).

(** [load_path_len] is the length of the string in [load_path], which with
    its terminating NUL fits the 512 bytes of the buffer. *)
Definition path_ok (l : Loop) : Prop :=
  load_path_len (ui l) = Z.of_nat (length (load_path (ui l))) /\
  (load_path_len (ui l) <= 510)%Z.

Definition sensitivity_ok (l : Loop) : Prop :=
  0.0005 <= mouse_sensitivity (fr l) <= 0.01.

(** An event other than a press of Escape or Return. *)
Definition keeps_menu (ev : Event) : Prop :=
  ev <> SDL_KEYDOWN SDLK_ESCAPE /\ ev <> SDL_KEYDOWN SDLK_RETURN.

(** What the main loop keeps true of its state. *)
Definition loop_ok (l : Loop) : Prop :=
  menu_ok l /\ path_ok l /\ sensitivity_ok l /\
  pitch_ok (pitch (state_curr (drv l))) /\
  0 <= accumulator (drv l) < PHYS_DT.

(** ** Scenarios *)

(** The math library at the arguments the scenarios pass: sine and cosine
    of the yaw 0, square roots of 0 and of 1.  Where a scenario has another
    yaw it has no movement input, and the step multiplies the sine and the
    cosine by 0. *)
Definition libm_yaw0 : Libm := mkLibm (fun _ => 0) (fun _ => 1) (fun x => x).

(** The [dt] the driver gives [physics_step]. *)
Definition sub_dt : Q := PHYS_DT / inject_Z substeps.

Definition idle : Input := mkInput 0 0 false false 0 0.
Definition walk : Input := mkInput 1 0 false false 0 0.
Definition walk_back : Input := mkInput (-1) 0 false false 0 0.
Definition walk_jump : Input := mkInput 1 0 true false 0 0.
Definition look : Input := mkInput 0 0 false false 10 0.

(** A 4x4 map of empty cells. *)
Definition open_map : Map :=
  mkMap 4 4 (repeat TILE_EMPTY 16) (repeat 0%Z 16).

(** A 3x5 map, empty but for a cube at the cell (1, 1). *)
Definition ledge_map : Map :=
  mkMap 3 5 [0; 0; 0;  0; 1; 0;  0; 0; 0;  0; 0; 0;  0; 0; 0]%Z
        (repeat 0%Z 15).

(** A 3x3 map, empty but for a goal at the cell (1, 1). *)
Definition goal_map : Map :=
  mkMap 3 3 [0; 0; 0;  0; 3; 0;  0; 0; 0]%Z (repeat 0%Z 9).

(** Standing on the world floor, the box reaching over the edge [z = 0] of
    the map. *)
Definition at_edge : Player := mkPlayer 1.5 0 0.1 0 0 0 0 0 true 0.

(** Five units below the cell (0, 0). *)
Definition under_wedge : Player := mkPlayer 0.5 (-5) 0.5 0 0 0 0 0 false 0.

(** At rest on top of the cube of [ledge_map], near its edge [z = 2]. *)
Definition on_ledge : Player := mkPlayer 1.5 1.001 2.2 0 0 0 0 0 true 0.

(** Sunk a little into the cube of [ledge_map] from above. *)
Definition in_cube : Player := mkPlayer 1.5 0.9 1.5 0 (-1) 0 0 0 false 0.5.

(** Inside a wedge of rotation 0 at the cell (0, 0), foot below its
    surface. *)
Definition in_wedge : Player := mkPlayer 0.5 0.2 0.5 1 (-2) 3 0 0 false 0.

(** About to fall through the world floor. *)
Definition at_floor : Player := mkPlayer 1.5 0.0005 1.5 0 (-1) 0 0 0 false 1.

(** Above the goal of [goal_map]. *)
Definition at_goal : Player := mkPlayer 1.5 0.5 1.5 0 0 0 0.3 0.1 false 1.

(** A frame at clock [t] with the mouse moved, the menu closed, and the
    settings [main] starts with. *)
Definition look_frame (t : Q) : Frame := mkFrame t look false 0.0028 true false.

(** A frame at clock [t] with the menu open. *)
Definition menu_frame (t : Q) : Frame := mkFrame t idle true 0.0028 true false.

(** A frame at clock [t] with the menu closed, W held and the mouse at
    rest. *)
Definition still_frame (t : Q) : Frame :=
  mkFrame t walk false 0.0028 true false.

(** Sliding over the world floor of [open_map]. *)
Definition sliding : Player := mkPlayer 1.5 0 1.5 0.5 0 (-3) 0 0 true 0.

(** Under the cube of [ledge_map], the head inside it. *)
Definition under_cube : Player := mkPlayer 1.5 (-1.7) 1.5 0 2 0 0 0 false 1.

(** A point one unit ahead of [view], a camera at the spawn that looks along
    +z. *)
Definition view : Camera.t := Camera.mk 3.5 2.6 3.5 0 0 1.

Definition ahead : Vec3.t := Vec3.mk 3.5 2.6 4.5.

(** A tangent for the scenarios, which do not depend on its values. *)
Definition tan_id (a : Q) : Q := a.

(** No key held, and W and R held. *)
Definition no_keys : Keyboard :=
  mkKeyboard false false false false false false false false.

Definition keys_w_r : Keyboard :=
  mkKeyboard true false false false false false false true.

(** A loader that finds no file, and one that loads [goal_map]. *)
Definition no_file (path : list Z) (m : Map) : Z * Map := ((-1)%Z, m).

Definition goal_file (path : list Z) (m : Map) : Z * Map := (0%Z, goal_map).

(** [main]'s loop state on [open_map], as it starts and with the menu open
    at its entries 0 and 1 and at the load page with the path [a]. *)
Definition playing : Loop := init_loop open_map 0.

Definition in_menu (selected sub : Z) (path : list Z) : Loop :=
  mkLoop (mkMenu true selected sub path (Z.of_nat (length path)) no_message
                 false true)
         (mkFrame 0 idle true 0.0028 true false)
         (drv playing) (world playing) (cam playing).

(** Events that leave the menu as it is: the mouse moves, Down is pressed,
    a letter is typed. *)
Definition busy_events : list Event :=
  [SDL_MOUSEMOTION 5 (-3); SDL_KEYDOWN SDLK_DOWN; SDL_TEXTINPUT [97%Z]].

(** A walk through the menu: it is opened, the load page is entered, a path
    is typed and corrected, the load fails, the page is left for the
    settings, the sensitivity is lowered, and the game is resumed. *)
Definition menu_tour : list Event :=
  [SDL_KEYDOWN SDLK_ESCAPE; SDL_KEYDOWN SDLK_DOWN; SDL_KEYDOWN SDLK_RETURN;
   SDL_TEXTINPUT [97; 98]%Z; SDL_KEYDOWN SDLK_BACKSPACE;
   SDL_KEYDOWN SDLK_RETURN; SDL_KEYDOWN SDLK_ESCAPE;
   SDL_KEYDOWN SDLK_DOWN; SDL_KEYDOWN SDLK_RETURN; SDL_KEYDOWN SDLK_LEFT;
   SDL_KEYDOWN SDLK_ESCAPE; SDL_KEYDOWN SDLK_ESCAPE; SDL_MOUSEMOTION 4 2].

(** Three iterations of the main loop: a quiet frame, a frame in which the
    menu is walked through, and a frame with W held in which the window is
    closed. *)
Definition session : list (Q * list Event * Keyboard) :=
  [ (1 # 100, [], no_keys);
    (3 # 100, menu_tour, no_keys);
    (5 # 100, [SDL_QUIT], keys_w_r);
    (7 # 100, [], no_keys) ].

(** ** Comparisons *)

Lemma Qltb_lt (a b : Q) : (a <? b) = true <-> a < b.
Proof.
  unfold Qltb. rewrite negb_true_iff, <- not_true_iff_false, Qle_bool_iff.
  split; [apply Qnot_le_lt | apply Qlt_not_le].
Qed.

Lemma Qltb_ge (a b : Q) : (a <? b) = false <-> b <= a.
Proof.
  unfold Qltb. rewrite negb_false_iff. apply Qle_bool_iff.
Qed.

Lemma Qleb_le (a b : Q) : (a <=? b) = true <-> a <= b.
Proof. apply Qle_bool_iff. Qed.

Lemma Qleb_gt (a b : Q) : (a <=? b) = false <-> b < a.
Proof.
  unfold Qleb. rewrite <- not_true_iff_false, Qle_bool_iff.
  split; [apply Qnot_le_lt | apply Qlt_not_le].
Qed.

(** Turns the boolean comparisons of the context and the goal into order
    facts on [Q]. *)
Ltac order_facts :=
  repeat match goal with
  | H : (_ <? _) = true |- _ => apply Qltb_lt in H
  | H : (_ <? _) = false |- _ => apply Qltb_ge in H
  | H : (_ <=? _) = true |- _ => apply Qleb_le in H
  | H : (_ <=? _) = false |- _ => apply Qleb_gt in H
  | H : _ || _ = true |- _ => apply orb_true_iff in H
  | H : _ || _ = false |- _ => apply orb_false_iff in H; destruct H
  | H : _ && _ = true |- _ => apply andb_true_iff in H; destruct H
  | H : _ && _ = false |- _ => apply andb_false_iff in H
  end.

Lemma fmin_Qmin (a b : Q) : fmin a b == Qmin a b.
Proof.
  unfold fmin. destruct (a <? b) eqn:E; order_facts.
  - symmetry. apply Q.min_l. lra.
  - symmetry. apply Q.min_r. exact E.
Qed.

Lemma fmin_cases (a b : Q) :
  (fmin a b = a /\ a <= b) \/ (fmin a b = b /\ b <= a).
Proof.
  unfold fmin. destruct (a <? b) eqn:E; order_facts; [left | right];
    split; auto; lra.
Qed.

Lemma eq_Qeq (a b : Q) : a = b -> a == b.
Proof. intros ->. reflexivity. Qed.

Lemma inject_Z_succ (z : Z) : inject_Z (z + 1) == inject_Z z + 1.
Proof. rewrite inject_Z_plus. reflexivity. Qed.

Lemma clampd_bounds (v a b : Q) : a <= b -> a <= clampd v a b <= b.
Proof.
  intros H. unfold clampd.
  destruct (v <? a) eqn:E1; [| destruct (v >? b) eqn:E2]; order_facts; lra.
Qed.

Lemma clampd_clamp01 (v : Q) : clampd v 0.0 1.0 == clamp01 v.
Proof.
  unfold clampd, clamp01.
  destruct (v <? 0.0) eqn:E0; [| destruct (v >? 1.0) eqn:E1]; order_facts.
  - rewrite Q.min_r by lra. rewrite Q.max_l by lra. reflexivity.
  - rewrite Q.min_l by lra. rewrite Q.max_r by lra. lra.
  - rewrite Q.min_r by lra. rewrite Q.max_r by lra. reflexivity.
Qed.

(** The comparisons, and the conversions to [int], of equal numbers. *)
Lemma Qleb_comp (a a' b b' : Q) :
  a == a' -> b == b' -> (a <=? b) = (a' <=? b').
Proof.
  intros Ha Hb.
  destruct (a <=? b) eqn:E1, (a' <=? b') eqn:E2; order_facts;
    try reflexivity; lra.
Qed.

Lemma Qltb_comp (a a' b b' : Q) :
  a == a' -> b == b' -> (a <? b) = (a' <? b').
Proof.
  intros Ha Hb.
  destruct (a <? b) eqn:E1, (a' <? b') eqn:E2; order_facts;
    try reflexivity; lra.
Qed.

Lemma int_of_double_comp (a b : Q) :
  a == b -> int_of_double a = int_of_double b.
Proof.
  intros H. unfold int_of_double, Qtrunc.
  rewrite (Qltb_comp a b 0 0 H (Qeq_refl 0)).
  rewrite (Qfloor_comp a b H), (Qceiling_comp a b H). reflexivity.
Qed.

Lemma c_floor_comp (a b : Q) : a == b -> c_floor a = c_floor b.
Proof. intros H. unfold c_floor. rewrite (Qfloor_comp a b H). reflexivity. Qed.

Lemma clampd_inside (v a b : Q) : a <= v <= b -> clampd v a b == v.
Proof.
  intros H. unfold clampd.
  destruct (v <? a) eqn:E1; order_facts; [lra |].
  destruct (v >? b) eqn:E2; order_facts; lra.
Qed.

(** ** The result monad and the loops *)

Lemma bind_Ok {A B : Type} (r : result A) (k : A -> result B) (b : B) :
  bind r k = Ok b -> exists a, r = Ok a /\ k a = Ok b.
Proof. destruct r; simpl; intros H; try discriminate. eauto. Qed.

Lemma bind_fuel {A B : Type} (r : result A) (k : A -> result B) :
  r <> OutOfFuel -> (forall a, k a <> OutOfFuel) -> bind r k <> OutOfFuel.
Proof.
  destruct r; simpl; intros Hr Hk; [apply Hk | discriminate | contradiction].
Qed.

Lemma for_each_invariant {S V : Type} (P : S -> Prop)
    (body : S -> V -> result S) (vs : list V) :
  (forall s v s', In v vs -> P s -> body s v = Ok s' -> P s') ->
  forall s s', P s -> for_each body vs s = Ok s' -> P s'.
Proof.
  induction vs as [| v vs IH]; simpl; intros Hbody s s' Hs H.
  - injection H as <-. exact Hs.
  - apply bind_Ok in H as (s1 & H1 & H2).
    apply (IH (fun s v s' Hv => Hbody s v s' (or_intror Hv)) s1 s');
      [eapply Hbody; eauto | exact H2].
Qed.

Lemma for_each_defined {S V : Type} (body : S -> V -> result S)
    (vs : list V) :
  (forall s v, In v vs -> exists s', body s v = Ok s') ->
  forall s, exists s', for_each body vs s = Ok s'.
Proof.
  induction vs as [| v vs IH]; simpl; intros Hbody s; [eauto |].
  destruct (Hbody s v (or_introl eq_refl)) as (s1 & H1). rewrite H1. simpl.
  apply IH. intros s2 v2 Hv. apply Hbody. right. exact Hv.
Qed.

Lemma for_each_fuel {S V : Type} (body : S -> V -> result S) (vs : list V) :
  (forall s v, body s v <> OutOfFuel) ->
  forall s, for_each body vs s <> OutOfFuel.
Proof.
  intros Hbody. induction vs as [| v vs IH]; simpl; intros s.
  - discriminate.
  - apply bind_fuel; auto.
Qed.

Lemma for_each_app {S V : Type} (body : S -> V -> result S) (l1 l2 : list V) :
  forall s, for_each body (l1 ++ l2) s
            = bind (for_each body l1 s) (for_each body l2).
Proof.
  induction l1 as [| v l1 IH]; intros s; simpl; [reflexivity |].
  destruct (body s v); simpl; auto.
Qed.

Lemma for_each_map {S V W : Type} (body : S -> W -> result S) (f : V -> W)
    (l : list V) :
  forall s, for_each body (map f l) s = for_each (fun s v => body s (f v)) l s.
Proof.
  induction l as [| v l IH]; intros s; simpl; [reflexivity |].
  destruct (body s (f v)); simpl; auto.
Qed.

Lemma for_each_nested {S V W : Type} (body : S -> V -> W -> result S)
    (vs : list V) (ws : list W) :
  forall s,
    for_each (fun s v => for_each (fun s w => body s v w) ws s) vs s
    = for_each (fun s c => body s (fst c) (snd c)) (list_prod vs ws) s.
Proof.
  induction vs as [| v vs IH]; intros s; simpl; [reflexivity |].
  rewrite for_each_app, for_each_map. simpl.
  destruct (for_each (fun s w => body s v w) ws s); simpl; auto.
Qed.

Lemma last_cons {A : Type} (l : list A) :
  forall x d, last (x :: l) d = last l x.
Proof.
  induction l as [| y l IH]; intros x d; [reflexivity |].
  change (last (x :: y :: l) d) with (last (y :: l) d).
  rewrite !IH. reflexivity.
Qed.

Lemma last_app_last {A : Type} (l1 l2 : list A) :
  forall d, last (l1 ++ l2) d = last l2 (last l1 d).
Proof.
  induction l1 as [| x l1 IH]; intros d; [reflexivity |].
  change ((x :: l1) ++ l2) with (x :: (l1 ++ l2)).
  rewrite !last_cons. apply IH.
Qed.

(** ** The cube resolver *)

Lemma cell_box_facts (cx cz : Z) :
  cell_min_x cx == inject_Z cx /\ cell_max_x cx == inject_Z cx + 1 /\
  cell_min_z cz == inject_Z cz /\ cell_max_z cz == inject_Z cz + 1.
Proof.
  unfold cell_min_x, cell_max_x, cell_min_z, cell_max_z, CELL_SIZE.
  pose proof (inject_Z_succ cx). pose proof (inject_Z_succ cz).
  repeat split; lra.
Qed.

(** The early return of [resolve_cube] is taken exactly when the two boxes
    have no interior point in common. *)
Lemma cube_disjoint_apart (p : Player) (cx cz : Z) :
  cube_disjoint p cx cz = true <-> boxes_apart (player_box p) (cell_box cx cz).
Proof.
  destruct (cell_box_facts cx cz) as (Hx0 & Hx1 & Hz0 & Hz1).
  unfold cube_disjoint, boxes_apart, player_box, cell_box; simpl.
  unfold pmin_x, pmax_x, pmin_y, pmax_y, pmin_z, pmax_z, cell_min_y, cell_max_y.
  rewrite !orb_true_iff, !Qleb_le.
  rewrite Hx0, Hx1, Hz0, Hz1. unfold PLAYER_HEIGHT, PLAYER_RADIUS.
  intuition lra.
Qed.

Lemma cube_overlap_facts (p : Player) (cx cz : Z) :
  cube_disjoint p cx cz = false ->
  inject_Z cx < px p + PLAYER_RADIUS /\
  px p - PLAYER_RADIUS < inject_Z cx + 1 /\
  0 < py p + PLAYER_HEIGHT /\ py p < 1 /\
  inject_Z cz < pz p + PLAYER_RADIUS /\
  pz p - PLAYER_RADIUS < inject_Z cz + 1.
Proof.
  intros H. destruct (cell_box_facts cx cz) as (Hx0 & Hx1 & Hz0 & Hz1).
  unfold cube_disjoint in H.
  unfold pmin_x, pmax_x, pmin_y, pmax_y, pmin_z, pmax_z,
    cell_min_y, cell_max_y in H.
  order_facts. rewrite Hx0, Hx1, Hz0, Hz1 in *.
  repeat split; lra.
Qed.

Lemma pen_positive (p : Player) (cx cz : Z) :
  cube_disjoint p cx cz = false ->
  0 < pen_x p cx /\ 0 < pen_y p /\ 0 < pen_z p cz.
Proof.
  intros H. apply cube_overlap_facts in H.
  destruct (cell_box_facts cx cz) as (Hx0 & Hx1 & Hz0 & Hz1).
  unfold pen_x, pen_y, pen_z.
  unfold pmin_x, pmax_x, pmin_y, pmax_y, pmin_z, pmax_z, cell_min_y, cell_max_y.
  rewrite !fmin_Qmin. rewrite Hx0, Hx1, Hz0, Hz1.
  repeat split; apply Q.min_glb_lt; lra.
Qed.

(** Every branch past the early return writes a coordinate of the player
    with a value it did not have. *)
Lemma resolve_cube_changes (p : Player) (cx cz : Z) :
  cube_disjoint p cx cz = false -> resolve_cube p cx cz <> p.
Proof.
  intros H E. pose proof (pen_positive p cx cz H) as (Px & Py & Pz).
  pose proof (cube_overlap_facts p cx cz H) as (_ & _ & Hlo & Hhi & _ & _).
  unfold resolve_cube in E. rewrite H in E.
  destruct ((pen_y p <=? pen_x p cx) && (pen_y p <=? pen_z p cz)).
  - destruct ((pmin_y p + pmax_y p) * 0.5 >? (cell_min_y + cell_max_y) * 0.5).
    + apply (f_equal py), eq_Qeq in E. simpl in E.
      unfold cell_max_y in E. lra.
    + assert (E' : cell_min_y - PLAYER_HEIGHT - 0.001 == py p).
      { destruct (vy (set_py (cell_min_y - PLAYER_HEIGHT - 0.001) p) >? 0);
          apply (f_equal py), eq_Qeq in E; exact E. }
      unfold cell_min_y, PLAYER_HEIGHT in *. lra.
  - destruct (pen_x p cx <=? pen_z p cz).
    + destruct (px p <? (cell_min_x cx + cell_max_x cx) * 0.5);
        apply (f_equal px), eq_Qeq in E; simpl in E; lra.
    + destruct (pz p <? (cell_min_z cz + cell_max_z cz) * 0.5);
        apply (f_equal pz), eq_Qeq in E; simpl in E; lra.
Qed.

(** The depths [resolve_cube] computes are the penetrations of the player's
    box into the cell's, axis by axis. *)
Lemma pen_penetration (p : Player) (cx cz : Z) :
  let b := player_box p in
  let c := cell_box cx cz in
  pen_x p cx == penetration (min_x b) (max_x b) (min_x c) (max_x c) /\
  pen_y p == penetration (min_y b) (max_y b) (min_y c) (max_y c) /\
  pen_z p cz == penetration (min_z b) (max_z b) (min_z c) (max_z c).
Proof.
  destruct (cell_box_facts cx cz) as (Hx0 & Hx1 & Hz0 & Hz1).
  unfold pen_x, pen_y, pen_z, penetration; simpl.
  unfold pmin_x, pmax_x, pmin_y, pmax_y, pmin_z, pmax_z, cell_min_y, cell_max_y.
  rewrite !fmin_Qmin, Hx0, Hx1, Hz0, Hz1.
  repeat split; apply Q.min_compat; lra.
Qed.

Lemma least_axis_exists (ex ey ez : Q) : exists a, least_axis a ex ey ez.
Proof.
  destruct (Qlt_le_dec ex ey) as [Hxy | Hxy].
  - destruct (Qlt_le_dec ez ex) as [Hzx | Hzx].
    + exists AxisZ. simpl. lra.
    + exists AxisX. simpl. lra.
  - destruct (Qlt_le_dec ez ey) as [Hzy | Hzy].
    + exists AxisZ. simpl. lra.
    + exists AxisY. simpl. lra.
Qed.

Lemma resolve_cube_axis (p : Player) (cx cz : Z) (a : Axis) :
  cube_disjoint p cx cz = false ->
  least_axis a (pen_x p cx) (pen_y p) (pen_z p cz) ->
  resolved_along a p cx cz (resolve_cube p cx cz).
Proof.
  intros H L. unfold resolve_cube. rewrite H.
  destruct ((pen_y p <=? pen_x p cx) && (pen_y p <=? pen_z p cz)) eqn:EY.
  - order_facts. destruct a; simpl in L; try lra. simpl.
    destruct ((pmin_y p + pmax_y p) * 0.5 >? (cell_min_y + cell_max_y) * 0.5).
    + simpl. repeat split; auto. left. unfold cell_max_y. lra.
    + destruct (vy p >? 0);
        simpl; repeat split; auto; right; unfold cell_min_y; lra.
  - destruct (pen_x p cx <=? pen_z p cz) eqn:EX.
    + order_facts. destruct a; simpl in L; try (destruct EY; order_facts; lra).
      destruct (px p <? (cell_min_x cx + cell_max_x cx) * 0.5);
        simpl; repeat split; auto; (left; reflexivity) || (right; reflexivity).
    + order_facts. destruct a; simpl in L; try (destruct EY; order_facts; lra).
      destruct (pz p <? (cell_min_z cz + cell_max_z cz) * 0.5);
        simpl; repeat split; auto; (left; reflexivity) || (right; reflexivity).
Qed.

(** C4.  When the player's box overlaps the unit cube of a cell,
    [resolve_cube] measures on each axis the penetration
    [min (maxA - minB) (maxB - minA)] and resolves along the axis where it is
    least, a tie going to Y before X and to X before Z: only the coordinates
    of that axis are written. *)
Theorem resolve_cube_least_penetration (p : Player) (cx cz : Z) :
  ~ boxes_apart (player_box p) (cell_box cx cz) ->
  let b := player_box p in
  let c := cell_box cx cz in
  pen_x p cx == penetration (min_x b) (max_x b) (min_x c) (max_x c) /\
  pen_y p == penetration (min_y b) (max_y b) (min_y c) (max_y c) /\
  pen_z p cz == penetration (min_z b) (max_z b) (min_z c) (max_z c) /\
  (exists a, least_axis a (pen_x p cx) (pen_y p) (pen_z p cz)) /\
  (forall a,
     least_axis a (pen_x p cx) (pen_y p) (pen_z p cz) ->
     resolved_along a p cx cz (resolve_cube p cx cz)).
Proof.
  intros Hov b c.
  destruct (pen_penetration p cx cz) as (Hx & Hy & Hz).
  repeat (split; [assumption |]).
  split; [apply least_axis_exists |].
  intros a La. apply resolve_cube_axis; [| exact La].
  destruct (cube_disjoint p cx cz) eqn:E; [| reflexivity].
  exfalso. apply Hov, cube_disjoint_apart, E.
Qed.

(** ** The wedge resolver *)

Lemma wedge_surf_height_field (p : Player) (cx cz rot : Z) :
  wedge_surf p cx cz rot ==
  height_field rot (clamp01 (px p - inject_Z cx))
                   (clamp01 (pz p - inject_Z cz)).
Proof.
  unfold wedge_surf, wedge_height_at_local, height_field.
  repeat match goal with |- context [(?a =? ?b)%Z] => destruct (a =? b)%Z end;
    rewrite ?clampd_clamp01; lra.
Qed.

Lemma wedge_outside_footprint (p : Player) (cx cz : Z) :
  wedge_outside p cx cz = false <-> in_wedge_footprint p cx cz.
Proof.
  unfold wedge_outside, in_wedge_footprint.
  rewrite !orb_false_iff, !Qltb_ge. intuition lra.
Qed.

(** C5.  For a player within the footprint of the wedge inflated by the
    radius, whose foot is at or below [h + 0.001], [h] being the height field
    of the rotation at the local coordinates clamped to the unit square,
    [resolve_wedge] puts the foot at [h + 0.001], leaves a [vy] that is not
    negative ([vy] itself if it was not negative, else 0) and sets
    [grounded]; and whatever the input, it leaves [px], [pz], [vx] and [vz]
    as they are. *)
Theorem resolve_wedge_supports (p : Player) (cx cz rot : Z) :
  let p' := resolve_wedge p cx cz rot in
  let h := height_field rot (clamp01 (px p - inject_Z cx))
                            (clamp01 (pz p - inject_Z cz)) in
  (px p' = px p /\ pz p' = pz p /\ vx p' = vx p /\ vz p' = vz p) /\
  (in_wedge_footprint p cx cz -> py p <= h + 0.001 ->
   py p' == h + 0.001 /\
   0 <= vy p' /\ (0 <= vy p -> vy p' = vy p) /\ (vy p < 0 -> vy p' == 0) /\
   grounded p' = true).
Proof.
  intros p' h. subst p' h. rewrite <- wedge_surf_height_field.
  unfold resolve_wedge. split.
  - destruct (wedge_outside p cx cz); [auto |].
    destruct (py p <=? wedge_surf p cx cz rot + 0.001); [| auto].
    simpl. destruct (vy p <? 0.0); simpl; auto.
  - intros F Hpy. apply wedge_outside_footprint in F. rewrite F.
    apply Qleb_le in Hpy. rewrite Hpy. simpl.
    destruct (vy p <? 0.0) eqn:E; simpl; order_facts;
      repeat split; try reflexivity; try lra.
Qed.

(** [resolve_wedge] returns at once when the player is outside the inflated
    footprint, and does nothing when the foot is above the surface by more
    than 0.001. *)
Lemma resolve_wedge_noop (p : Player) (cx cz rot : Z) :
  ~ in_wedge_footprint p cx cz \/
  height_field rot (clamp01 (px p - inject_Z cx))
                   (clamp01 (pz p - inject_Z cz)) + 0.001 < py p ->
  resolve_wedge p cx cz rot = p.
Proof.
  rewrite <- wedge_surf_height_field. unfold resolve_wedge.
  intros [H | H].
  - destruct (wedge_outside p cx cz) eqn:E; [reflexivity |].
    apply wedge_outside_footprint in E. contradiction.
  - destruct (wedge_outside p cx cz); [reflexivity |].
    apply Qleb_gt in H. rewrite H. reflexivity.
Qed.

(** ** The cells of the neighbourhood *)

(** The ways through the body of the double loop. *)
Lemma resolve_cell_cases (m : Map) (cx cz : Z) (p : Player) (lc : bool)
    (oz ox : Z) (p' : Player) (lc' : bool) :
  resolve_cell m cx cz (p, lc) oz ox = Ok (p', lc') ->
  exists mx mz, int_add cx ox = Ok mx /\ int_add cz oz = Ok mz /\
  ((in_map m mx mz = false /\ p' = p /\ lc' = lc) \/
   (in_map m mx mz = true /\
    exists t, tile_at m mx mz = Ok t /\
    ((t = TILE_CUBE /\ p' = resolve_cube p mx mz /\ lc' = lc) \/
     (t = TILE_WEDGE /\ lc' = lc /\
      exists rot, p' = resolve_wedge p mx mz rot) \/
     (t = TILE_END /\ p' = p /\
      lc' = (if goal_overlap p mx mz then true else lc)) \/
     (t <> TILE_CUBE /\ t <> TILE_WEDGE /\ t <> TILE_END /\
      p' = p /\ lc' = lc)))).
Proof.
  unfold resolve_cell. intros H.
  apply bind_Ok in H as (mx & Hmx & H).
  apply bind_Ok in H as (mz & Hmz & H).
  exists mx, mz. split; [exact Hmx |]. split; [exact Hmz |].
  destruct (in_map m mx mz); simpl in H.
  - right. split; [reflexivity |].
    apply bind_Ok in H as (t & Ht & H). exists t. split; [exact Ht |].
    destruct (t =? TILE_CUBE)%Z eqn:E1.
    { apply Z.eqb_eq in E1. injection H as <- <-. auto. }
    destruct (t =? TILE_WEDGE)%Z eqn:E2.
    { apply Z.eqb_eq in E2.
      apply bind_Ok in H as (i & _ & H). apply bind_Ok in H as (rot & _ & H).
      injection H as <- <-. right; left. eauto. }
    destruct (t =? TILE_END)%Z eqn:E3.
    { apply Z.eqb_eq in E3. right; right; left.
      destruct (goal_overlap p mx mz); injection H as <- <-; auto. }
    apply Z.eqb_neq in E1, E2, E3. injection H as <- <-.
    right; right; right. auto.
  - left. injection H as <- <-. auto.
Qed.

(** The test of the goal branch is the overlap of the footprint with the
    square of the cell. *)
Lemma goal_overlap_footprint (p : Player) (mx mz : Z) :
  goal_overlap p mx mz = true <-> footprint_overlaps p mx mz.
Proof.
  unfold goal_overlap, footprint_overlaps, Qleb.
  rewrite !andb_true_iff, !Qle_bool_iff, !inject_Z_plus.
  change (inject_Z 1) with 1. tauto.
Qed.

(** C1 (as amended).  [tile_at] answers [TILE_CUBE] for a cell outside the
    map; the loop of [resolve_collisions] does not get that far: it skips a
    neighbour cell outside the map and leaves the player and the flag as
    they are. *)
Theorem out_of_map_cells (m : Map) (cx cz : Z) (st : Player * bool)
    (oz ox mx mz : Z) :
  int_add cx ox = Ok mx -> int_add cz oz = Ok mz ->
  in_map m mx mz = false ->
  tile_at m mx mz = Ok TILE_CUBE /\
  resolve_cell m cx cz st oz ox = Ok st.
Proof.
  intros Hx Hz H. split.
  - unfold tile_at. rewrite H. reflexivity.
  - destruct st as [p lc]. unfold resolve_cell.
    rewrite Hx, Hz. simpl. rewrite H. reflexivity.
Qed.

(** C2 (as amended).  [resolve_cube] leaves the player as it is exactly when
    the player's box and the unit cube of the cell have no interior point in
    common.  [resolve_wedge] leaves the player as it is when the player is
    outside the footprint of the cell inflated by the radius, or the foot is
    more than 0.001 above the surface.  On a goal cell the loop body leaves
    the player as it is, whatever the overlap; it raises the level-complete
    flag when the footprint of the player overlaps the square of the cell,
    at whatever height the player is, and leaves the flag as it is when the
    footprint does not. *)
Theorem resolvers_outside (m : Map) (p : Player) (lc : bool)
    (cx cz oz ox mx mz rot : Z) :
  (boxes_apart (player_box p) (cell_box mx mz) <-> resolve_cube p mx mz = p) /\
  (~ in_wedge_footprint p mx mz \/
   height_field rot (clamp01 (px p - inject_Z mx))
                    (clamp01 (pz p - inject_Z mz)) + 0.001 < py p ->
   resolve_wedge p mx mz rot = p) /\
  (int_add cx ox = Ok mx -> int_add cz oz = Ok mz ->
   in_map m mx mz = true -> tile_at m mx mz = Ok TILE_END ->
   exists lc',
     resolve_cell m cx cz (p, lc) oz ox = Ok (p, lc') /\
     (footprint_overlaps p mx mz -> lc' = true) /\
     (~ footprint_overlaps p mx mz -> lc' = lc)).
Proof.
  split; [| split].
  - rewrite <- cube_disjoint_apart. split.
    + intros H. unfold resolve_cube. rewrite H. reflexivity.
    + intros H. destruct (cube_disjoint p mx mz) eqn:E; [reflexivity |].
      exfalso. exact (resolve_cube_changes p mx mz E H).
  - apply resolve_wedge_noop.
  - intros Hx Hz Hin Ht. unfold resolve_cell.
    rewrite Hx, Hz. simpl. rewrite Hin, Ht. simpl.
    destruct (goal_overlap p mx mz) eqn:G.
    + exists true. repeat split. intros N. exfalso. apply N.
      apply goal_overlap_footprint. exact G.
    + exists lc. repeat split. intros F.
      apply goal_overlap_footprint in F. congruence.
Qed.

Lemma resolve_cube_frame (p : Player) (cx cz : Z) :
  same_frame p (resolve_cube p cx cz).
Proof.
  unfold resolve_cube, same_frame.
  repeat match goal with
  | |- context [if ?c then _ else _] => destruct c
  end; simpl; auto.
Qed.

Lemma resolve_wedge_frame (p : Player) (cx cz rot : Z) :
  same_frame p (resolve_wedge p cx cz rot).
Proof.
  unfold resolve_wedge, same_frame.
  repeat match goal with
  | |- context [if ?c then _ else _] => destruct c
  end; simpl; auto.
Qed.

Lemma resolve_cells_invariant (P : Player * bool -> Prop) (m : Map)
    (st st' : Player * bool) :
  (forall cx cz s oz ox s',
     int_of_double (c_floor (px (fst st))) = Ok cx ->
     int_of_double (c_floor (pz (fst st))) = Ok cz ->
     In oz offsets -> In ox offsets ->
     P s -> resolve_cell m cx cz s oz ox = Ok s' -> P s') ->
  P st -> resolve_cells m st = Ok st' -> P st'.
Proof.
  intros Hcell Hst H. unfold resolve_cells in H.
  apply bind_Ok in H as (cx & Hcx & H). apply bind_Ok in H as (cz & Hcz & H).
  revert H. apply for_each_invariant; [| exact Hst].
  intros s oz s' Hoz Hs. apply for_each_invariant; [| exact Hs].
  intros s1 ox s1' Hox. apply (Hcell cx cz); assumption.
Qed.

Lemma resolve_cells_frame (m : Map) (p p' : Player) (lc lc' : bool) :
  resolve_cells m (p, lc) = Ok (p', lc') -> same_frame p p'.
Proof.
  apply (resolve_cells_invariant (fun s => same_frame p (fst s))).
  - intros cx cz [q l] oz ox [q' l'] _ _ _ _ Hq H. simpl in *.
    apply resolve_cell_cases in H as (mx & mz & _ & _ & H).
    destruct Hq as (Hy & Hp & Ht).
    assert (F : same_frame q q').
    { destruct H as [(_ & -> & _) | (_ & t & _ & H)].
      - repeat split.
      - destruct H as [(_ & -> & _) | [(_ & _ & rot & ->) |
                       [(_ & -> & _) | (_ & _ & _ & -> & _)]]].
        + apply resolve_cube_frame.
        + apply resolve_wedge_frame.
        + repeat split.
        + repeat split. }
    destruct F as (Fy & Fp & Ft). repeat split; congruence.
  - repeat split.
Qed.

Lemma floor_clamp_frame (p : Player) : same_frame p (floor_clamp p).
Proof. unfold floor_clamp. destruct (py p <? 0.0); repeat split. Qed.

Lemma resolve_collisions_frame (m : Map) (p p' : Player) (lc lc' : bool) :
  resolve_collisions m (p, lc) = Ok (p', lc') -> same_frame p p'.
Proof.
  unfold resolve_collisions. intros H.
  apply bind_Ok in H as ([q l] & Hq & H). injection H as <- <-.
  apply resolve_cells_frame in Hq as (Hy & Hp & Ht).
  destruct (floor_clamp_frame q) as (Fy & Fp & Ft).
  repeat split; congruence.
Qed.

(** The double loop visits the cells of [neighbourhood] in order. *)
Lemma resolve_cells_flat (m : Map) (st : Player * bool) :
  resolve_cells m st
  = (cx <- int_of_double (c_floor (px (fst st))) ;;
     cz <- int_of_double (c_floor (pz (fst st))) ;;
     resolve_over m cx cz neighbourhood st).
Proof.
  unfold resolve_cells, resolve_over, neighbourhood.
  destruct (int_of_double (c_floor (px (fst st)))) as [cx | |]; cbn [bind];
    [| reflexivity | reflexivity].
  destruct (int_of_double (c_floor (pz (fst st)))) as [cz | |]; cbn [bind];
    [| reflexivity | reflexivity].
  apply (for_each_nested (fun st oz ox => resolve_cell m cx cz st oz ox)).
Qed.

Lemma resolve_cell_flag (m : Map) (cx cz : Z) (p : Player) (lc : bool)
    (oz ox : Z) (p' : Player) (lc' : bool) :
  resolve_cell m cx cz (p, lc) oz ox = Ok (p', lc') ->
  (lc' = true <->
   lc = true \/
   exists mx mz, int_add cx ox = Ok mx /\ int_add cz oz = Ok mz /\
     in_map m mx mz = true /\ tile_at m mx mz = Ok TILE_END /\
     footprint_overlaps p mx mz).
Proof.
  intros H. apply resolve_cell_cases in H as (mx & mz & Hmx & Hmz & H).
  assert (N : forall P : Z -> Z -> Prop,
            (exists x z, int_add cx ox = Ok x /\ int_add cz oz = Ok z /\ P x z)
            -> P mx mz).
  { intros P (x & z & Hx & Hz & HP). congruence. }
  destruct H as [(Hin & _ & ->) | (Hin & t & Ht & H)].
  - split; [auto |]. intros [E | G]; [exact E |].
    apply (N (fun x z => in_map m x z = true /\ _)) in G as (G & _).
    congruence.
  - destruct H as [(-> & _ & ->) | [(-> & -> & _) |
                   [(-> & _ & ->) | (_ & _ & T & _ & ->)]]].
    + split; [auto |]. intros [E | G]; [exact E |].
      apply (N (fun x z => _ /\ tile_at m x z = Ok TILE_END /\ _))
        in G as (_ & G & _).
      rewrite Ht in G. discriminate G.
    + split; [auto |]. intros [E | G]; [exact E |].
      apply (N (fun x z => _ /\ tile_at m x z = Ok TILE_END /\ _))
        in G as (_ & G & _).
      rewrite Ht in G. discriminate G.
    + destruct (goal_overlap p mx mz) eqn:G.
      * split; [| reflexivity]. intros _. right.
        apply goal_overlap_footprint in G. exists mx, mz. auto.
      * split; [auto |]. intros [E | F]; [exact E |].
        apply (N (fun x z => _ /\ _ /\ footprint_overlaps p x z))
          in F as (_ & _ & F).
        apply goal_overlap_footprint in F. congruence.
    + split; [auto |]. intros [E | G]; [exact E |].
      apply (N (fun x z => _ /\ tile_at m x z = Ok TILE_END /\ _))
        in G as (_ & G & _).
      rewrite Ht in G. injection G as G. contradiction.
Qed.

Lemma resolve_over_cons (m : Map) (cx cz oz ox : Z) (cells : list (Z * Z))
    (st : Player * bool) :
  resolve_over m cx cz ((oz, ox) :: cells) st
  = bind (resolve_cell m cx cz st oz ox) (resolve_over m cx cz cells).
Proof. reflexivity. Qed.

Lemma resolve_over_flag (m : Map) (cx cz : Z) (cells : list (Z * Z)) :
  forall p lc p' lc',
    resolve_over m cx cz cells (p, lc) = Ok (p', lc') ->
    (lc' = true <-> lc = true \/ goal_met m cx cz cells (p, lc)).
Proof.
  induction cells as [| [oz ox] cells IH]; intros p lc p' lc' H.
  - injection H as <- <-. split; [auto |].
    intros [E | (before & oz & ox & after & q & lq & mx & mz & E & _)];
      [exact E |].
    destruct before; discriminate E.
  - rewrite resolve_over_cons in H. apply bind_Ok in H as ([p1 l1] & H1 & H).
    rewrite (IH p1 l1 p' lc' H).
    rewrite (resolve_cell_flag _ _ _ _ _ _ _ _ _ H1).
    split.
    + intros [[E | (mx & mz & Hx & Hz & Hin & Ht & Hf)] | G].
      * left. exact E.
      * right. exists [], oz, ox, cells, p, lc, mx, mz.
        repeat split; assumption || reflexivity || apply Hf.
      * destruct G as (before & oz' & ox' & after & q & lq & mx & mz & E &
                       Hq & G).
        right. exists ((oz, ox) :: before), oz', ox', after, q, lq, mx, mz.
        split; [rewrite E; reflexivity |]. split; [| exact G].
        rewrite resolve_over_cons, H1. exact Hq.
    + intros [E | (before & oz' & ox' & after & q & lq & mx & mz & E & Hq &
                   G)].
      * left. left. exact E.
      * destruct before as [| [bz bx] before].
        -- injection E as <- <- <-. injection Hq as <- <-.
           left. right. exists mx, mz. exact G.
        -- injection E as <- <- ->. rewrite resolve_over_cons, H1 in Hq.
           right. exists before, oz', ox', after, q, lq, mx, mz. auto.
Qed.

Lemma resolve_cells_flag (m : Map) (p p' : Player) (lc lc' : bool) :
  resolve_cells m (p, lc) = Ok (p', lc') ->
  (lc' = true <-> lc = true \/ goal_hit m p).
Proof.
  rewrite resolve_cells_flat. simpl. intros H.
  apply bind_Ok in H as (cx & Hcx & H). apply bind_Ok in H as (cz & Hcz & H).
  rewrite (resolve_over_flag _ _ _ _ _ _ _ _ H).
  destruct lc; [tauto |]. split.
  - intros [E | G]; [discriminate E |]. right. exists cx, cz. auto.
  - intros [E | (x & z & Hx & Hz & G)]; [discriminate E |].
    right. congruence.
Qed.

Lemma floor_clamp_spec (q : Player) :
  0 <= py (floor_clamp q) /\
  (py q < 0 ->
   py (floor_clamp q) == 0 /\ vy (floor_clamp q) == 0 /\
   grounded (floor_clamp q) = true) /\
  (0 <= py q -> floor_clamp q = q).
Proof.
  unfold floor_clamp. destruct (py q <? 0.0) eqn:E; order_facts; simpl;
    repeat split; try lra.
Qed.

(** ** The physics step *)

Lemma horizontal_velocity_keeps (libm : Libm) (p : Player) (i : Input)
    (dt : Q) :
  let q := horizontal_velocity libm p i dt in
  px q = px p /\ py q = py p /\ pz q = pz p /\ vy q = vy p /\
  yaw q = yaw p /\ pitch q = pitch p /\ grounded q = grounded p /\
  time_since_grounded q = time_since_grounded p.
Proof.
  intros q. subst q. unfold horizontal_velocity.
  destruct (wish_dir libm p i) as [[wish_x wish_z] wish_len].
  destruct p as [x y z ux uy uz w pt g t]. cbn [grounded vx vz set_vx set_vz].
  repeat match goal with
  | |- context [if ?c then _ else _] => destruct c
  end; simpl; repeat split.
Qed.

Lemma before_collisions_orientation (libm : Libm) (p : Player) (i : Input)
    (dt : Q) :
  yaw (before_collisions libm p i dt) = yaw p /\
  pitch (before_collisions libm p i dt) = pitch p.
Proof.
  destruct (horizontal_velocity_keeps libm p i dt)
    as (_ & _ & _ & _ & Hy & Hp & _ & _).
  unfold before_collisions, integrate, apply_jump, apply_gravity,
    update_ground_timer.
  repeat match goal with
  | |- context [if ?c then _ else _] => destruct c
  end; simpl; auto.
Qed.

(** The jump of a step.  A request succeeds exactly when the player is
    grounded, or not grounded with the timer, advanced by this step, still
    below [BUNNY_HOP_TIME]; then the step sets [vy] to [JUMP_VELOCITY],
    clears [grounded] and sets the timer to [BUNNY_HOP_TIME]; otherwise [vy]
    only takes gravity, [grounded] stays and the timer is the advanced
    one. *)
Lemma jump_rule (libm : Libm) (p : Player) (i : Input) (dt : Q) :
  let q := before_collisions libm p i dt in
  let jumps :=
    jump i &&
    (grounded p || (time_since_grounded p + dt <? BUNNY_HOP_TIME)) in
  (jumps = true ->
   vy q = JUMP_VELOCITY /\ grounded q = false /\
   time_since_grounded q = BUNNY_HOP_TIME) /\
  (jumps = false ->
   vy q = vy p - GRAVITY * dt /\ grounded q = grounded p /\
   time_since_grounded q =
     if grounded p then 0.0 else time_since_grounded p + dt).
Proof.
  destruct (horizontal_velocity_keeps libm p i dt)
    as (_ & _ & _ & Hvy & _ & _ & Hg & Ht).
  unfold before_collisions.
  destruct (horizontal_velocity libm p i dt) as [x y z ux uy uz w pt g t].
  destruct p as [x0 y0 z0 ux0 uy0 uz0 w0 pt0 g0 t0].
  simpl in Hvy, Hg, Ht. subst uy g t.
  unfold integrate, apply_jump, jump_test, apply_gravity, update_ground_timer.
  cbn [grounded time_since_grounded].
  destruct g0; cbn; destruct (jump i); cbn;
    try destruct (t0 + dt <? BUNNY_HOP_TIME);
    cbn; split; intros H; try discriminate H; repeat split.
Qed.

(** After a jump the timer stands at [BUNNY_HOP_TIME]; while the player is
    not grounded it only grows, and no request succeeds. *)
Lemma no_second_jump (libm : Libm) (p : Player) (i : Input) (dt : Q) :
  grounded p = false -> BUNNY_HOP_TIME <= time_since_grounded p -> 0 <= dt ->
  let q := before_collisions libm p i dt in
  vy q = vy p - GRAVITY * dt /\ grounded q = false /\
  BUNNY_HOP_TIME <= time_since_grounded q.
Proof.
  intros G T D q. destruct (jump_rule libm p i dt) as (_ & H).
  assert (E : (time_since_grounded p + dt <? BUNNY_HOP_TIME) = false)
    by (apply Qltb_ge; lra).
  rewrite G, E in H. cbn [orb] in H. rewrite andb_false_r in H.
  destruct (H eq_refl) as (H1 & H2 & H3).
  subst q. rewrite H1, H2, H3. repeat split; lra.
Qed.

(** C10.  A physics step leaves the yaw and the pitch of the player exactly
    as they were; the step reads the yaw (in [wish_dir]) and writes neither. *)
Theorem physics_step_keeps_orientation (libm : Libm) (m : Map) (p : Player)
    (lc : bool) (i : Input) (dt : Q) (p' : Player) (lc' : bool) :
  physics_step libm m (p, lc) i dt = Ok (p', lc') ->
  yaw p' = yaw p /\ pitch p' = pitch p.
Proof.
  unfold physics_step. intros H.
  apply resolve_collisions_frame in H as (Hy & Hp & _).
  destruct (before_collisions_orientation libm p i dt) as (By & Bp).
  split; congruence.
Qed.

Lemma resolve_collisions_flag (m : Map) (q p' : Player) (lc lc' : bool) :
  resolve_collisions m (q, lc) = Ok (p', lc') ->
  (lc' = true <-> lc = true \/ goal_hit m q).
Proof.
  intros H. unfold resolve_collisions in H.
  apply bind_Ok in H as ([q' l] & Hq & H). injection H as <- <-.
  apply (resolve_cells_flag m q q' lc l Hq).
Qed.

Lemma physics_steps_flag (libm : Libm) (m : Map) (i : Input) (dt : Q)
    (n : nat) :
  forall p p' lc',
    physics_steps libm m n (p, true) i dt = Ok (p', lc') -> lc' = true.
Proof.
  induction n as [| n IH]; simpl; intros p p' lc' H.
  - injection H as _ <-. reflexivity.
  - apply bind_Ok in H as ([q l] & Hstep & H).
    revert Hstep. unfold physics_step. intros Hstep.
    apply resolve_collisions_flag in Hstep as (_ & Hup).
    rewrite (Hup (or_introl eq_refl)) in H. exact (IH q p' lc' H).
Qed.

(** C9.  Through [resolve_collisions], and so through [physics_step], a
    raised level-complete flag stays raised, and a flag that was not raised
    is raised exactly when the loop over the 3x3 neighbourhood comes to a
    goal cell of the map that the footprint of the player, as the cells
    before it left the player, overlaps; over any number of physics steps a
    raised flag stays raised. *)
Theorem level_complete_monotone (libm : Libm) (m : Map) (p : Player)
    (lc : bool) (i : Input) (dt : Q) :
  (forall p' lc',
     resolve_collisions m (p, lc) = Ok (p', lc') ->
     (lc = true -> lc' = true) /\
     (lc' = true <-> lc = true \/ goal_hit m p)) /\
  (forall p' lc',
     physics_step libm m (p, lc) i dt = Ok (p', lc') ->
     (lc = true -> lc' = true) /\
     (lc' = true <->
      lc = true \/ goal_hit m (before_collisions libm p i dt))) /\
  (forall n p' lc',
     physics_steps libm m n (p, true) i dt = Ok (p', lc') -> lc' = true).
Proof.
  split; [| split].
  - intros p' lc' H. apply resolve_collisions_flag in H. tauto.
  - unfold physics_step. intros p' lc' H.
    apply resolve_collisions_flag in H. tauto.
  - intros n. apply physics_steps_flag.
Qed.

(** C6.  After a physics step [py] is not negative: the player the
    neighbourhood loop leaves, [q], goes through the floor clamp, which, when
    [py q] is below 0, sets [py] and [vy] to 0 and [grounded] to true, and
    otherwise changes nothing. *)
Theorem floor_enforced (libm : Libm) (m : Map) (p : Player) (lc : bool)
    (i : Input) (dt : Q) (p' : Player) (lc' : bool) :
  physics_step libm m (p, lc) i dt = Ok (p', lc') ->
  0 <= py p' /\
  exists q,
    resolve_cells m (before_collisions libm p i dt, lc) = Ok (q, lc') /\
    p' = floor_clamp q /\
    (py q < 0 -> py p' == 0 /\ vy p' == 0 /\ grounded p' = true) /\
    (0 <= py q -> p' = q).
Proof.
  unfold physics_step, resolve_collisions. intros H.
  apply bind_Ok in H as ([q l] & Hq & H). injection H as <- <-.
  destruct (floor_clamp_spec q) as (H0 & H1 & H2).
  split; [exact H0 |]. exists q. auto.
Qed.

(** ** The step is defined on a loaded map *)

Lemma int_of_Ok (z : Z) : (INT_MIN <= z <= INT_MAX)%Z -> int_of z = Ok z.
Proof.
  intros [H1 H2]. unfold int_of.
  apply Z.leb_le in H1, H2. rewrite H1, H2. reflexivity.
Qed.

Lemma Qtrunc_inject_Z (z : Z) : Qtrunc (inject_Z z) = z.
Proof.
  unfold Qtrunc. destruct (inject_Z z <? 0);
    [apply Qceiling_Z | apply Qfloor_Z].
Qed.

Lemma int_of_double_floor (d : Q) :
  cell_in_range d -> int_of_double (c_floor d) = Ok (Qfloor d).
Proof.
  intros H. unfold int_of_double, c_floor. rewrite Qtrunc_inject_Z.
  apply int_of_Ok. unfold cell_in_range in H. lia.
Qed.

Lemma read_Ok (a : list Z) (i : Z) :
  (0 <= i)%Z -> (Z.to_nat i < length a)%nat -> exists v, read a i = Ok v.
Proof.
  intros H0 H1. unfold read.
  apply Z.ltb_ge in H0. rewrite H0.
  destruct (nth_error a (Z.to_nat i)) eqn:E; [eauto |].
  apply nth_error_None in E. lia.
Qed.

Lemma cell_index_Ok (m : Map) (x z : Z) :
  map_ok m -> in_map m x z = true ->
  cell_index m x z = Ok (z * map_w m + x)%Z /\
  (0 <= z * map_w m + x < map_w m * map_h m)%Z.
Proof.
  intros (Hw & Hh & Hmax & _) Hin. unfold in_map in Hin.
  apply andb_true_iff in Hin as (Hin & Hz1).
  apply andb_true_iff in Hin as (Hin & Hx1).
  apply andb_true_iff in Hin as (Hx0 & Hz0).
  apply Z.geb_le in Hx0, Hz0. apply Z.ltb_lt in Hx1, Hz1.
  assert (Hb : (0 <= z * map_w m + x < map_w m * map_h m)%Z) by nia.
  split; [| exact Hb].
  unfold cell_index, int_mul, int_add, INT_MAX, INT_MIN in *.
  rewrite int_of_Ok by (unfold INT_MAX, INT_MIN; nia). simpl.
  apply int_of_Ok. unfold INT_MAX, INT_MIN. nia.
Qed.

Lemma resolve_cell_defined (m : Map) (cx cz : Z) (st : Player * bool)
    (oz ox : Z) :
  map_ok m -> (INT_MIN < cx < INT_MAX)%Z -> (INT_MIN < cz < INT_MAX)%Z ->
  In oz offsets -> In ox offsets ->
  exists st', resolve_cell m cx cz st oz ox = Ok st'.
Proof.
  intros Hm Hcx Hcz Hoz Hox. destruct st as [p lc]. unfold resolve_cell.
  assert (Bz : (-1 <= oz <= 1)%Z) by (simpl in Hoz; lia).
  assert (Bx : (-1 <= ox <= 1)%Z) by (simpl in Hox; lia).
  unfold int_add. rewrite !int_of_Ok by lia. simpl.
  destruct (in_map m (cx + ox) (cz + oz)) eqn:Hin; simpl; [| eauto].
  unfold tile_at. rewrite Hin. simpl.
  destruct (cell_index_Ok m _ _ Hm Hin) as (Hi & Hb). rewrite Hi. simpl.
  destruct Hm as (_ & _ & _ & Lc & Lr).
  destruct (read_Ok (map_cells m) ((cz + oz) * map_w m + (cx + ox))%Z)
    as (t & Ht); [lia | lia |].
  destruct (read_Ok (map_rots m) ((cz + oz) * map_w m + (cx + ox))%Z)
    as (r & Hr); [lia | lia |].
  rewrite Ht. simpl.
  destruct (t =? TILE_CUBE)%Z; [eauto |].
  destruct (t =? TILE_WEDGE)%Z; [rewrite Hr; simpl; eauto |].
  destruct (t =? TILE_END)%Z; [| eauto].
  destruct (goal_overlap p (cx + ox) (cz + oz)); eauto.
Qed.

(** On a map as the loader leaves it, and while the cells around the
    player are [int]s, a physics step meets no undefined behaviour. *)
Lemma physics_step_defined (libm : Libm) (m : Map) (p : Player) (lc : bool)
    (i : Input) (dt : Q) :
  map_ok m ->
  cell_in_range (px (before_collisions libm p i dt)) ->
  cell_in_range (pz (before_collisions libm p i dt)) ->
  exists st', physics_step libm m (p, lc) i dt = Ok st'.
Proof.
  intros Hm Hx Hz. unfold physics_step, resolve_collisions, resolve_cells.
  cbn [fst]. rewrite (int_of_double_floor _ Hx), (int_of_double_floor _ Hz).
  cbn [bind].
  match goal with
  | |- context [for_each ?b offsets ?s0] =>
      assert (H : exists st', for_each b offsets s0 = Ok st')
  end.
  { apply for_each_defined. intros s oz Hoz.
    apply for_each_defined. intros s' ox Hox.
    apply resolve_cell_defined; assumption. }
  destruct H as ([q l] & H). rewrite H. simpl. eauto.
Qed.

(** The physics step has no loop that fuel bounds. *)
Lemma int_of_fuel (z : Z) : int_of z <> OutOfFuel.
Proof. unfold int_of. destruct (_ && _)%bool; discriminate. Qed.

Lemma read_fuel (a : list Z) (i : Z) : read a i <> OutOfFuel.
Proof.
  unfold read. destruct (i <? 0)%Z; [discriminate |].
  destruct (nth_error a (Z.to_nat i)); discriminate.
Qed.

Lemma cell_index_fuel (m : Map) (x z : Z) : cell_index m x z <> OutOfFuel.
Proof.
  unfold cell_index, int_mul, int_add.
  apply bind_fuel; intros; apply int_of_fuel.
Qed.

Lemma resolve_cell_fuel (m : Map) (cx cz : Z) (st : Player * bool)
    (oz ox : Z) :
  resolve_cell m cx cz st oz ox <> OutOfFuel.
Proof.
  unfold resolve_cell, tile_at, int_add. destruct st as [p lc].
  apply bind_fuel; [apply int_of_fuel | intros mx].
  apply bind_fuel; [apply int_of_fuel | intros mz].
  destruct (in_map m mx mz); simpl; [| discriminate].
  apply bind_fuel.
  - apply bind_fuel; [apply cell_index_fuel | intros; apply read_fuel].
  - intros t.
    destruct (t =? TILE_CUBE)%Z; [discriminate |].
    destruct (t =? TILE_WEDGE)%Z.
    + apply bind_fuel; [apply cell_index_fuel | intros i].
      apply bind_fuel; [apply read_fuel | discriminate].
    + destruct (t =? TILE_END)%Z; [| discriminate].
      destruct (goal_overlap p mx mz); discriminate.
Qed.

Lemma physics_step_fuel (libm : Libm) (m : Map) (st : Player * bool)
    (i : Input) (dt : Q) :
  physics_step libm m st i dt <> OutOfFuel.
Proof.
  unfold physics_step, resolve_collisions, resolve_cells, int_of_double.
  destruct st as [p lc].
  apply bind_fuel.
  - apply bind_fuel; [apply int_of_fuel | intros cx].
    apply bind_fuel; [apply int_of_fuel | intros cz].
    apply for_each_fuel. intros s oz.
    apply for_each_fuel. intros s' ox. apply resolve_cell_fuel.
  - intros [q l]. discriminate.
Qed.

Lemma fixed_step_fuel (libm : Libm) (m : Map) (st : Player * bool)
    (i : Input) :
  fixed_step libm m st i <> OutOfFuel.
Proof.
  unfold fixed_step. apply for_each_fuel. intros. apply physics_step_fuel.
Qed.

(** ** The driver *)

Lemma PHYS_DT_value : PHYS_DT == 1 # 120.
Proof. reflexivity. Qed.

(** The loop leaves an accumulator in [0, PHYS_DT). *)
Lemma step_loop_accumulator (libm : Libm) (m : Map) (fuel : nat) (i : Input) :
  forall acc st acc' st' tr,
    step_loop libm m fuel i acc st = Ok (acc', st', tr) ->
    0 <= acc -> 0 <= acc' < PHYS_DT.
Proof.
  pose proof PHYS_DT_value as DT.
  induction fuel as [| fuel IH]; intros acc st acc' st' tr H Hacc;
    simpl in H; destruct (acc >=? PHYS_DT) eqn:E; order_facts;
    try discriminate; try (injection H as <- <- <-; lra).
  apply bind_Ok in H as (st1 & _ & H).
  apply bind_Ok in H as ([[a s] t] & Hloop & H). injection H as <- <- <-.
  apply IH in Hloop; lra.
Qed.

(** The loop ends: [fuel] iterations are enough for an accumulator below
    [(fuel + 1) * PHYS_DT]. *)
Lemma step_loop_fuel (libm : Libm) (m : Map) (fuel : nat) (i : Input) :
  forall acc st,
    acc < inject_Z (Z.of_nat fuel + 1) * PHYS_DT ->
    step_loop libm m fuel i acc st <> OutOfFuel.
Proof.
  pose proof PHYS_DT_value as DT.
  induction fuel as [| fuel IH]; intros acc st Hacc; simpl;
    destruct (acc >=? PHYS_DT) eqn:E; order_facts; try discriminate.
  - change (inject_Z (Z.of_nat 0 + 1)) with 1 in Hacc. lra.
  - pose proof (fixed_step_fuel libm m st i) as Hfs.
    destruct (fixed_step libm m st i) as [st1 | |]; simpl;
      try discriminate; try contradiction.
    assert (Hacc' : acc - PHYS_DT < inject_Z (Z.of_nat fuel + 1) * PHYS_DT).
    { rewrite Nat2Z.inj_succ in Hacc. unfold Z.succ in Hacc.
      rewrite !inject_Z_plus in *. change (inject_Z 1) with 1 in *. lra. }
    specialize (IH (acc - PHYS_DT) st1 Hacc').
    destruct (step_loop libm m fuel i (acc - PHYS_DT) st1) as [[[a s] t] | |];
      simpl; try discriminate. exact IH.
Qed.

(** The trace of the loop is the replay of its inputs from the state the
    loop starts with, and the loop ends in the last state of the trace. *)
Lemma step_loop_replay (libm : Libm) (m : Map) (fuel : nat) (i : Input) :
  forall acc st acc' st' tr,
    step_loop libm m fuel i acc st = Ok (acc', st', tr) ->
    replay libm m st (map fst tr) = Ok (map snd tr) /\
    st' = last (map snd tr) st.
Proof.
  induction fuel as [| fuel IH]; intros acc st acc' st' tr H;
    simpl in H; destruct (acc >=? PHYS_DT);
    try discriminate; try (injection H as <- <- <-; simpl; auto).
  apply bind_Ok in H as (st1 & Hstep & H).
  apply bind_Ok in H as ([[a s] t] & Hloop & H). injection H as <- <- <-.
  apply IH in Hloop as (Hr & Hl). simpl. rewrite Hstep. simpl.
  rewrite Hr. simpl. split; [reflexivity |].
  rewrite Hl. symmetry. apply last_cons.
Qed.

Lemma replay_app (libm : Libm) (m : Map) (l1 l2 : list Input) :
  forall st s1 s2,
    replay libm m st l1 = Ok s1 ->
    replay libm m (last s1 st) l2 = Ok s2 ->
    replay libm m st (l1 ++ l2) = Ok (s1 ++ s2).
Proof.
  induction l1 as [| i l1 IH]; simpl; intros st s1 s2 H1 H2.
  - injection H1 as <-. exact H2.
  - apply bind_Ok in H1 as (st1 & Hstep & H1).
    apply bind_Ok in H1 as (sts & Hr & H1). injection H1 as <-.
    rewrite Hstep. simpl.
    rewrite (IH st1 sts s2 Hr).
    + reflexivity.
    + rewrite <- H2. f_equal. symmetry. apply last_cons.
Qed.

Lemma replay_firstn (libm : Libm) (m : Map) (k : nat) :
  forall l st s,
    replay libm m st l = Ok s ->
    replay libm m st (firstn k l) = Ok (firstn k s).
Proof.
  induction k as [| k IH]; intros l st s H; [reflexivity |].
  destruct l as [| i l]; simpl in *.
  - injection H as <-. reflexivity.
  - apply bind_Ok in H as (st1 & Hstep & H).
    apply bind_Ok in H as (sts & Hr & H). injection H as <-.
    rewrite Hstep. simpl. rewrite (IH l st1 sts Hr). reflexivity.
Qed.

Lemma look_update_pitch (d : Driver) (f : Frame) :
  pitch_ok (pitch (state_curr d)) ->
  pitch_ok (pitch (state_curr (look_update d f))).
Proof.
  intros H. unfold look_update. cbn [state_curr].
  destruct (menu_open f); cbn [negb]; [exact H |].
  cbn [pitch set_pitch set_yaw]. unfold pitch_ok.
  apply clampd_bounds. lra.
Qed.

Lemma physics_step_orientation (libm : Libm) (m : Map) (st st' : Player * bool)
    (i : Input) (dt : Q) :
  physics_step libm m st i dt = Ok st' ->
  yaw (fst st') = yaw (fst st) /\ pitch (fst st') = pitch (fst st).
Proof.
  destruct st as [p lc], st' as [p' lc']. unfold physics_step. intros H.
  apply resolve_collisions_frame in H as (Hy & Hp & _).
  destruct (before_collisions_orientation libm p i dt) as (By & Bp).
  cbn [fst]. split; congruence.
Qed.

Lemma fixed_step_orientation (libm : Libm) (m : Map) (st st' : Player * bool)
    (i : Input) :
  fixed_step libm m st i = Ok st' ->
  yaw (fst st') = yaw (fst st) /\ pitch (fst st') = pitch (fst st).
Proof.
  unfold fixed_step.
  apply (for_each_invariant
           (fun s => yaw (fst s) = yaw (fst st) /\
                     pitch (fst s) = pitch (fst st))).
  - intros s v s' _ (Hy & Hp) H.
    apply physics_step_orientation in H as (Hy' & Hp'). split; congruence.
  - auto.
Qed.

Lemma step_loop_orientation (libm : Libm) (m : Map) (fuel : nat) (i : Input) :
  forall acc st acc' st' tr,
    step_loop libm m fuel i acc st = Ok (acc', st', tr) ->
    yaw (fst st') = yaw (fst st) /\ pitch (fst st') = pitch (fst st).
Proof.
  induction fuel as [| fuel IH]; intros acc st acc' st' tr H;
    simpl in H; destruct (acc >=? PHYS_DT);
    try discriminate; try (injection H as <- <- <-; auto).
  apply bind_Ok in H as (st1 & Hstep & H).
  apply bind_Ok in H as ([[a s] t] & Hloop & H). injection H as <- <- <-.
  apply IH in Hloop as (Hy & Hp).
  apply fixed_step_orientation in Hstep as (Hy' & Hp'). split; congruence.
Qed.

(** The look update leaves the current state as it is while the menu is
    open. *)
Lemma look_update_menu (d : Driver) (f : Frame) :
  menu_open f = true -> state_curr (look_update d f) = state_curr d.
Proof. intros H. unfold look_update. rewrite H. reflexivity. Qed.

(** *** Equal numbers, equal steps

    The step computes with the numbers the state holds: from two states
    that hold the same numbers it fails in the same way or gives two states
    that hold the same numbers. *)

Section Determinism.

#[local] Instance Player_eq_equiv : Equivalence Player_eq.
Proof.
  split.
  - intros p. unfold Player_eq. repeat split; reflexivity.
  - intros p q H. unfold Player_eq in *. intuition (symmetry; assumption).
  - intros p q r H1 H2. unfold Player_eq in *.
    intuition (etransitivity; eassumption).
Qed.

#[local] Instance state_eq_equiv : Equivalence state_eq.
Proof.
  split.
  - intros s. split; reflexivity.
  - intros s t (H1 & H2). split; symmetry; assumption.
  - intros s t u (H1 & H2) (H3 & H4). split; etransitivity; eassumption.
Qed.

#[local] Instance mkPlayer_proper :
  Proper (Qeq ==> Qeq ==> Qeq ==> Qeq ==> Qeq ==> Qeq ==> Qeq ==> Qeq ==> eq
          ==> Qeq ==> Player_eq) mkPlayer.
Proof. repeat intro. unfold Player_eq. simpl. auto 12. Qed.

#[local] Instance px_proper : Proper (Player_eq ==> Qeq) px.
Proof. intros p q H. apply H. Qed.

#[local] Instance py_proper : Proper (Player_eq ==> Qeq) py.
Proof. intros p q H. apply H. Qed.

#[local] Instance pz_proper : Proper (Player_eq ==> Qeq) pz.
Proof. intros p q H. apply H. Qed.

#[local] Instance vx_proper : Proper (Player_eq ==> Qeq) vx.
Proof. intros p q H. apply H. Qed.

#[local] Instance vy_proper : Proper (Player_eq ==> Qeq) vy.
Proof. intros p q H. apply H. Qed.

#[local] Instance vz_proper : Proper (Player_eq ==> Qeq) vz.
Proof. intros p q H. apply H. Qed.

#[local] Instance yaw_proper : Proper (Player_eq ==> Qeq) yaw.
Proof. intros p q H. apply H. Qed.

#[local] Instance pitch_proper : Proper (Player_eq ==> Qeq) pitch.
Proof. intros p q H. apply H. Qed.

#[local] Instance grounded_proper : Proper (Player_eq ==> eq) grounded.
Proof. intros p q H. apply H. Qed.

#[local] Instance time_since_grounded_proper :
  Proper (Player_eq ==> Qeq) time_since_grounded.
Proof. intros p q H. apply H. Qed.

#[local] Instance Qltb_proper : Proper (Qeq ==> Qeq ==> eq) Qltb.
Proof. intros a b H c d H'. apply Qltb_comp; assumption. Qed.

#[local] Instance Qleb_proper : Proper (Qeq ==> Qeq ==> eq) Qleb.
Proof. intros a b H c d H'. apply Qleb_comp; assumption. Qed.

(** The test the code makes on one value is the test it makes on an equal
    value, so that both take the same branch. *)
Ltac same_test_by tac :=
  match goal with
  | |- _ (if ?c1 then _ else _) (if ?c2 then _ else _) =>
      let E := fresh "E" in
      assert (E : c1 = c2) by (tac; reflexivity);
      rewrite E; clear E; destruct c2
  end.

(** The same for every test made on the player [p] of [H : Player_eq p q]. *)
Ltac same_tests H :=
  match type of H with
  | Player_eq ?p ?q =>
      repeat match goal with
      | |- context [if ?c then _ else _] =>
          lazymatch c with
          | context [p] =>
              let F := eval pattern p in c in
              lazymatch F with
              | ?f _ =>
                  let c' := eval cbv beta in (f q) in
                  let E := fresh "E" in
                  assert (E : c = c') by (rewrite H; reflexivity);
                  rewrite E; clear E; destruct c'; cbv beta iota
              end
          end
      end
  end.

Ltac same_player H := same_tests H; rewrite ?H; try reflexivity.

#[local] Instance fmin_proper : Proper (Qeq ==> Qeq ==> Qeq) fmin.
Proof.
  intros a b H c d H'. unfold fmin.
  same_test_by ltac:(rewrite ?H, ?H'); assumption.
Qed.

#[local] Instance clampd_proper : Proper (Qeq ==> Qeq ==> Qeq ==> Qeq) clampd.
Proof.
  intros a b H c d H' e f H''. unfold clampd.
  repeat same_test_by ltac:(rewrite ?H, ?H', ?H''); assumption.
Qed.

#[local] Instance approach_proper :
  Proper (Qeq ==> Qeq ==> Qeq ==> Qeq) approach.
Proof.
  intros a b H c d H' e f H''. unfold approach. cbv zeta.
  repeat same_test_by ltac:(rewrite ?H, ?H', ?H'');
    rewrite ?H, ?H', ?H''; reflexivity.
Qed.

Lemma Player_eq_refl (p : Player) : Player_eq p p.
Proof. reflexivity. Qed.

#[local] Instance set_px_proper :
  Proper (Qeq ==> Player_eq ==> Player_eq) set_px.
Proof. intros a b H p q H'. unfold set_px. rewrite H, H'. reflexivity. Qed.

#[local] Instance set_py_proper :
  Proper (Qeq ==> Player_eq ==> Player_eq) set_py.
Proof. intros a b H p q H'. unfold set_py. rewrite H, H'. reflexivity. Qed.

#[local] Instance set_pz_proper :
  Proper (Qeq ==> Player_eq ==> Player_eq) set_pz.
Proof. intros a b H p q H'. unfold set_pz. rewrite H, H'. reflexivity. Qed.

#[local] Instance set_vx_proper :
  Proper (Qeq ==> Player_eq ==> Player_eq) set_vx.
Proof. intros a b H p q H'. unfold set_vx. rewrite H, H'. reflexivity. Qed.

#[local] Instance set_vy_proper :
  Proper (Qeq ==> Player_eq ==> Player_eq) set_vy.
Proof. intros a b H p q H'. unfold set_vy. rewrite H, H'. reflexivity. Qed.

#[local] Instance set_vz_proper :
  Proper (Qeq ==> Player_eq ==> Player_eq) set_vz.
Proof. intros a b H p q H'. unfold set_vz. rewrite H, H'. reflexivity. Qed.

#[local] Instance set_grounded_proper :
  Proper (eq ==> Player_eq ==> Player_eq) set_grounded.
Proof.
  intros a b H p q H'. unfold set_grounded. rewrite H, H'. reflexivity.
Qed.

#[local] Instance set_time_since_grounded_proper :
  Proper (Qeq ==> Player_eq ==> Player_eq) set_time_since_grounded.
Proof.
  intros a b H p q H'. unfold set_time_since_grounded. rewrite H, H'.
  reflexivity.
Qed.

Lemma resolve_cube_proper (p q : Player) (cx cz : Z) :
  Player_eq p q -> Player_eq (resolve_cube p cx cz) (resolve_cube q cx cz).
Proof.
  intros H.
  unfold resolve_cube, cube_disjoint, pen_x, pen_y, pen_z,
    pmin_x, pmax_x, pmin_y, pmax_y, pmin_z, pmax_z.
  cbv zeta. same_player H.
Qed.

#[local] Instance wedge_surf_proper :
  Proper (Player_eq ==> eq ==> eq ==> eq ==> Qeq) wedge_surf.
Proof.
  intros p q H cx cx' <- cz cz' <- rot rot' <-.
  unfold wedge_surf, wedge_height_at_local. cbv zeta.
  repeat match goal with
         | |- context [(?a =? ?b)%Z] => destruct (a =? b)%Z
         end; rewrite H; reflexivity.
Qed.

Lemma resolve_wedge_proper (p q : Player) (cx cz rot : Z) :
  Player_eq p q ->
  Player_eq (resolve_wedge p cx cz rot) (resolve_wedge q cx cz rot).
Proof.
  intros H. unfold resolve_wedge, wedge_outside. cbv zeta. same_player H.
Qed.

Lemma goal_overlap_proper (p q : Player) (mx mz : Z) :
  Player_eq p q -> goal_overlap p mx mz = goal_overlap q mx mz.
Proof.
  intros H. unfold goal_overlap. cbv zeta. rewrite H. reflexivity.
Qed.

Lemma floor_clamp_proper (p q : Player) :
  Player_eq p q -> Player_eq (floor_clamp p) (floor_clamp q).
Proof. intros H. unfold floor_clamp. same_player H. Qed.

Lemma result_rel_bind {A B : Type} (R : A -> A -> Prop) (R' : B -> B -> Prop)
    (r1 r2 : result A) (k1 k2 : A -> result B) :
  result_rel R r1 r2 ->
  (forall a b, R a b -> result_rel R' (k1 a) (k2 b)) ->
  result_rel R' (bind r1 k1) (bind r2 k2).
Proof.
  destruct r1, r2; simpl; intros H Hk; try contradiction; auto.
Qed.

Lemma result_rel_Ok {A : Type} (R : A -> A -> Prop) (r1 r2 : result A)
    (a : A) :
  result_rel R r1 r2 -> r1 = Ok a -> exists b, r2 = Ok b /\ R a b.
Proof.
  intros H ->. destruct r2; simpl in H; try contradiction. eauto.
Qed.

Lemma for_each_rel {S V : Type} (R : S -> S -> Prop)
    (body : S -> V -> result S) (vs : list V) :
  (forall s1 s2 v, R s1 s2 -> result_rel R (body s1 v) (body s2 v)) ->
  forall s1 s2, R s1 s2 ->
    result_rel R (for_each body vs s1) (for_each body vs s2).
Proof.
  intros Hbody. induction vs as [| v vs IH]; intros s1 s2 Hs; simpl.
  - exact Hs.
  - apply (result_rel_bind R R); [apply Hbody; exact Hs | exact IH].
Qed.

Lemma resolve_cell_proper (m : Map) (cx cz : Z) (s1 s2 : Player * bool)
    (oz ox : Z) :
  state_eq s1 s2 ->
  result_rel state_eq (resolve_cell m cx cz s1 oz ox)
                      (resolve_cell m cx cz s2 oz ox).
Proof.
  destruct s1 as [p lc], s2 as [q lc2]. intros (H & Hl).
  cbn [fst snd] in H, Hl. subst lc2. unfold resolve_cell.
  destruct (int_add cx ox) as [mx | |]; cbn [bind]; try exact I.
  destruct (int_add cz oz) as [mz | |]; cbn [bind]; try exact I.
  destruct (negb (in_map m mx mz)); [split; [exact H | reflexivity] |].
  destruct (tile_at m mx mz) as [t | |]; cbn [bind]; try exact I.
  destruct (t =? TILE_CUBE)%Z.
  { split; [apply resolve_cube_proper; exact H | reflexivity]. }
  destruct (t =? TILE_WEDGE)%Z.
  { destruct (cell_index m mx mz) as [i | |]; cbn [bind]; try exact I.
    destruct (read (map_rots m) i) as [rot | |]; cbn [bind]; try exact I.
    split; [apply resolve_wedge_proper; exact H | reflexivity]. }
  destruct (t =? TILE_END)%Z.
  { rewrite (goal_overlap_proper p q mx mz H).
    destruct (goal_overlap q mx mz); split; (exact H || reflexivity). }
  split; [exact H | reflexivity].
Qed.

Lemma resolve_cells_proper (m : Map) (s1 s2 : Player * bool) :
  state_eq s1 s2 ->
  result_rel state_eq (resolve_cells m s1) (resolve_cells m s2).
Proof.
  intros H. unfold resolve_cells.
  rewrite (c_floor_comp (px (fst s1)) (px (fst s2))) by apply H.
  rewrite (c_floor_comp (pz (fst s1)) (pz (fst s2))) by apply H.
  destruct (int_of_double (c_floor (px (fst s2)))) as [cx | |]; cbn [bind];
    try exact I.
  destruct (int_of_double (c_floor (pz (fst s2)))) as [cz | |]; cbn [bind];
    try exact I.
  apply for_each_rel; [| exact H].
  intros t1 t2 oz Ht. apply for_each_rel; [| exact Ht].
  intros u1 u2 ox Hu. apply resolve_cell_proper. exact Hu.
Qed.

Lemma resolve_collisions_proper (m : Map) (s1 s2 : Player * bool) :
  state_eq s1 s2 ->
  result_rel state_eq (resolve_collisions m s1) (resolve_collisions m s2).
Proof.
  intros H. unfold resolve_collisions.
  apply (result_rel_bind state_eq state_eq);
    [apply resolve_cells_proper; exact H |].
  intros [p lc] [q lc'] (Hp & Hl). split; [| exact Hl].
  apply floor_clamp_proper. exact Hp.
Qed.

Section ControllerProper.

Variable libm : Libm.
Hypothesis libm_ok : libm_proper libm.

#[local] Instance sin_proper : Proper (Qeq ==> Qeq) (sin libm).
Proof. intros a b H. apply (libm_ok a b H). Qed.

#[local] Instance cos_proper : Proper (Qeq ==> Qeq) (cos libm).
Proof. intros a b H. apply (libm_ok a b H). Qed.

#[local] Instance sqrt_proper : Proper (Qeq ==> Qeq) (sqrt libm).
Proof. intros a b H. apply (libm_ok a b H). Qed.

Lemma wish_dir_proper (p q : Player) (i : Input) :
  Player_eq p q ->
  fst (fst (wish_dir libm p i)) == fst (fst (wish_dir libm q i)) /\
  snd (fst (wish_dir libm p i)) == snd (fst (wish_dir libm q i)) /\
  snd (wish_dir libm p i) == snd (wish_dir libm q i).
Proof.
  intros H. unfold wish_dir. cbv zeta. same_tests H; cbn [fst snd];
    repeat split; rewrite H; reflexivity.
Qed.

Lemma horizontal_velocity_proper (p q : Player) (i : Input) (dt : Q) :
  Player_eq p q ->
  Player_eq (horizontal_velocity libm p i dt)
            (horizontal_velocity libm q i dt).
Proof.
  intros H. unfold horizontal_velocity.
  destruct (wish_dir_proper p q i H) as (Hx & Hz & Hl).
  destruct (wish_dir libm p i) as [[x z] l],
           (wish_dir libm q i) as [[x' z'] l'].
  cbn [fst snd] in Hx, Hz, Hl. cbv zeta.
  assert (G : grounded p = grounded q) by apply H.
  cbn [grounded set_vx set_vz]. rewrite G.
  rewrite (Qltb_comp l l' 1e-3 1e-3 Hl (Qeq_refl _)).
  destruct (grounded q); cbn [andb]; [destruct (l' <? 1e-3) |];
    cbn [vx vz]; rewrite ?Hx, ?Hz, ?H; reflexivity.
Qed.

Lemma before_collisions_proper (p q : Player) (i : Input) (dt : Q) :
  Player_eq p q ->
  Player_eq (before_collisions libm p i dt) (before_collisions libm q i dt).
Proof.
  intros H. unfold before_collisions. cbv zeta.
  apply (horizontal_velocity_proper p q i dt) in H.
  set (p1 := horizontal_velocity libm p i dt) in *.
  set (q1 := horizontal_velocity libm q i dt) in *.
  assert (H2 : Player_eq (update_ground_timer p1 dt)
                         (update_ground_timer q1 dt)).
  { unfold update_ground_timer. same_player H. }
  set (p2 := update_ground_timer p1 dt) in *.
  set (q2 := update_ground_timer q1 dt) in *.
  assert (H3 : Player_eq (apply_gravity p2 dt) (apply_gravity q2 dt)).
  { unfold apply_gravity. rewrite H2. reflexivity. }
  set (p3 := apply_gravity p2 dt) in *.
  set (q3 := apply_gravity q2 dt) in *.
  assert (H4 : Player_eq (apply_jump p3 i) (apply_jump q3 i)).
  { unfold apply_jump, jump_test. same_player H3. }
  set (p4 := apply_jump p3 i) in *.
  set (q4 := apply_jump q3 i) in *.
  unfold integrate. cbv zeta. cbn [px py pz vx vy vz set_px set_py set_pz].
  rewrite H4. reflexivity.
Qed.

Lemma physics_step_proper (m : Map) (s1 s2 : Player * bool) (i : Input)
    (dt : Q) :
  state_eq s1 s2 ->
  result_rel state_eq (physics_step libm m s1 i dt)
                      (physics_step libm m s2 i dt).
Proof.
  destruct s1 as [p lc], s2 as [q lc']. intros (H & Hl).
  unfold physics_step. apply resolve_collisions_proper.
  split; [apply before_collisions_proper; exact H | exact Hl].
Qed.

Lemma fixed_step_proper (m : Map) (s1 s2 : Player * bool) (i : Input) :
  state_eq s1 s2 ->
  result_rel state_eq (fixed_step libm m s1 i) (fixed_step libm m s2 i).
Proof.
  intros H. unfold fixed_step. apply for_each_rel; [| exact H].
  intros t1 t2 _ Ht. apply physics_step_proper. exact Ht.
Qed.

Lemma replay_proper (m : Map) (ins : list Input) :
  forall s1 s2,
    state_eq s1 s2 ->
    result_rel (Forall2 state_eq) (replay libm m s1 ins)
                                  (replay libm m s2 ins).
Proof.
  induction ins as [| i ins IH]; intros s1 s2 H; simpl.
  - constructor.
  - apply (result_rel_bind state_eq (Forall2 state_eq));
      [apply fixed_step_proper; exact H |].
    intros t1 t2 Ht.
    apply (result_rel_bind (Forall2 state_eq) (Forall2 state_eq));
      [apply IH; exact Ht |].
    intros l1 l2 Hl. simpl. constructor; assumption.
Qed.

End ControllerProper.

Lemma Forall2_state_eq_refl (l : list (Player * bool)) : Forall2 state_eq l l.
Proof. induction l; constructor; [reflexivity | assumption]. Qed.

Lemma Forall2_state_eq_sym (l1 l2 : list (Player * bool)) :
  Forall2 state_eq l1 l2 -> Forall2 state_eq l2 l1.
Proof.
  induction 1; constructor; [symmetry; assumption | assumption].
Qed.

Lemma Forall2_state_eq_trans (l1 l2 l3 : list (Player * bool)) :
  Forall2 state_eq l1 l2 -> Forall2 state_eq l2 l3 -> Forall2 state_eq l1 l3.
Proof.
  intros H. revert l3. induction H as [| a b l1 l2 Hab _ IH]; intros l3 H3;
    inversion H3; subst; constructor;
    [etransitivity; eassumption | apply IH; assumption].
Qed.

Lemma Forall2_firstn {A : Type} (R : A -> A -> Prop) (k : nat) :
  forall l1 l2, Forall2 R l1 l2 -> Forall2 R (firstn k l1) (firstn k l2).
Proof.
  induction k as [| k IH]; intros l1 l2 H; [constructor |].
  destruct H; simpl; constructor; auto.
Qed.

Lemma Forall2_last {A : Type} (R : A -> A -> Prop) (l1 l2 : list A) :
  Forall2 R l1 l2 -> forall d1 d2, R d1 d2 -> R (last l1 d1) (last l2 d2).
Proof.
  induction 1 as [| a b l1 l2 Hab _ IH]; intros d1 d2 Hd; [exact Hd |].
  rewrite !last_cons. apply IH. exact Hab.
Qed.

Lemma look_update_still (d : Driver) (f : Frame) :
  mouse_still f ->
  mouse_dx_smooth d == 0 -> mouse_dy_smooth d == 0 ->
  pitch_ok (pitch (state_curr d)) ->
  look_keeps d f /\
  mouse_dx_smooth (look_update d f) == 0 /\
  mouse_dy_smooth (look_update d f) == 0.
Proof.
  intros (Mx & My) Hx Hy Hp. unfold look_keeps, look_update.
  rewrite Mx, My. cbn [state_curr mouse_dx_smooth mouse_dy_smooth].
  assert (Lx : lerp (mouse_dx_smooth d) (inject_Z 0) (1.0 - MOUSE_SMOOTH) == 0).
  { unfold lerp. rewrite Hx. reflexivity. }
  assert (Ly : lerp (mouse_dy_smooth d) (inject_Z 0) (1.0 - MOUSE_SMOOTH) == 0).
  { unfold lerp. rewrite Hy. reflexivity. }
  split; [| split; assumption].
  destruct (menu_open f); cbn [negb]; [reflexivity |].
  unfold Player_eq. cbn [px py pz vx vy vz yaw pitch grounded
                         time_since_grounded set_yaw set_pitch].
  rewrite Lx, Ly.
  repeat split; try reflexivity.
  - ring.
  - rewrite clampd_inside.
    + ring.
    + unfold pitch_ok in Hp.
      destruct (invert_mouse_y f); lra.
Qed.

(** The fixed steps of a whole run, in which the look update keeps the
    current state, are the replay of their inputs from the state the run
    starts with, up to the fraction that represents each number. *)
Section DriverProper.

Variable libm : Libm.
Variable m : Map.
Hypothesis libm_ok : libm_proper libm.

Lemma run_replay (fuel : nat) (fs : list Frame) :
  forall d d' os,
    look_quiet libm m fuel d fs ->
    run libm m fuel d fs = Ok (d', os) ->
    exists sts,
      replay libm m (state_curr d, level_complete d) (map fst (all_steps os))
      = Ok sts /\
      Forall2 state_eq (map snd (all_steps os)) sts /\
      state_eq (state_curr d', level_complete d')
               (last sts (state_curr d, level_complete d)).
Proof.
  induction fs as [| f fs IH]; intros d d' os Hq H; simpl in H.
  - injection H as <- <-. exists []. repeat split; constructor.
  - apply bind_Ok in H as ([d1 o] & Hframe & H).
    apply bind_Ok in H as ([d2 os'] & Hrun & H). injection H as <- <-.
    destruct Hq as (Hk & Hq). specialize (Hq d1 o Hframe).
    destruct (IH d1 d2 os' Hq Hrun) as (sts2 & Hr2 & F2 & L2).
    unfold frame in Hframe.
    apply bind_Ok in Hframe as ([[acc [curr lc]] tr] & Hloop & Hframe).
    injection Hframe as <- <-.
    apply step_loop_replay in Hloop as (Hr1 & Hl1).
    change (level_complete (look_update (frame_clock d f) f))
      with (level_complete d) in Hr1, Hl1.
    change (state_curr (look_update (frame_clock d f) f))
      with (state_curr (look_update d f)) in Hr1, Hl1.
    cbn [state_curr level_complete] in Hr2, L2.
    set (st0 := (state_curr d, level_complete d)) in *.
    set (st1 := (state_curr (look_update d f), level_complete d)) in *.
    assert (E01 : state_eq st1 st0) by (split; [exact Hk | reflexivity]).
    destruct (result_rel_Ok _ _ _ _
                (replay_proper libm libm_ok m (map fst tr) st1 st0 E01) Hr1)
      as (sts1 & Hs1 & F1).
    assert (EL : state_eq (curr, lc) (last sts1 st0)).
    { rewrite Hl1. apply Forall2_last; assumption. }
    destruct (result_rel_Ok _ _ _ _
                (replay_proper libm libm_ok m (map fst (all_steps os'))
                   (curr, lc) (last sts1 st0) EL) Hr2)
      as (sts2' & Hs2 & F2').
    exists (sts1 ++ sts2').
    unfold all_steps in *. cbn [map concat steps_run]. rewrite !map_app.
    split; [apply replay_app; assumption |]. split.
    + apply Forall2_app; [exact F1 |].
      apply (Forall2_state_eq_trans _ sts2); assumption.
    + rewrite last_app_last.
      transitivity (last sts2 (curr, lc)); [exact L2 |].
      apply Forall2_last; assumption.
Qed.

Lemma look_quiet_menu (fuel : nat) (fs : list Frame) :
  Forall (fun f => menu_open f = true) fs ->
  forall d, look_quiet libm m fuel d fs.
Proof.
  induction 1 as [| f fs Hf _ IH]; intros d; simpl; [exact I |].
  split; [| intros d' o _; apply IH].
  unfold look_keeps, look_update. rewrite Hf. reflexivity.
Qed.

Lemma look_quiet_still (fuel : nat) (fs : list Frame) :
  Forall mouse_still fs ->
  forall d,
    mouse_dx_smooth d == 0 -> mouse_dy_smooth d == 0 ->
    pitch_ok (pitch (state_curr d)) ->
    look_quiet libm m fuel d fs.
Proof.
  induction 1 as [| f fs Hf _ IH]; intros d Hx Hy Hp; simpl; [exact I |].
  destruct (look_update_still d f Hf Hx Hy Hp) as (Hk & Hx' & Hy').
  split; [exact Hk |]. intros d' o Hframe.
  unfold frame in Hframe.
  apply bind_Ok in Hframe as ([[acc [curr lc]] tr] & Hloop & Hframe).
  injection Hframe as <- <-.
  apply step_loop_orientation in Hloop as (_ & Hpc). cbn [fst] in Hpc.
  apply IH; cbn [mouse_dx_smooth mouse_dy_smooth state_curr].
  - exact Hx'.
  - exact Hy'.
  - rewrite Hpc. apply look_update_pitch. exact Hp.
Qed.

End DriverProper.

End Determinism.


Lemma interpolate_at_zero (prev curr : Player) (a : Q) :
  a == 0 -> render_matches (interpolate prev curr a) prev.
Proof.
  intros H. unfold render_matches, interpolate; simpl.
  rewrite H. repeat split; lra.
Qed.

(** One frame: the clamped frame delta keeps the accumulator from going
    negative, the loop brings it below [PHYS_DT], and [alpha] is their
    quotient. *)
Lemma frame_alpha (libm : Libm) (m : Map) (fuel : nat) (d : Driver)
    (f : Frame) (d' : Driver) (o : FrameOut) :
  0 <= accumulator d ->
  frame libm m fuel d f = Ok (d', o) ->
  (0 <= alpha o /\ alpha o < 1) /\
  (alpha o == 0 -> render_matches (render_player o) (frame_prev o)) /\
  0 <= accumulator d' < PHYS_DT.
Proof.
  intros Hacc H. unfold frame in H.
  apply bind_Ok in H as ([[acc [curr lc]] tr] & Hloop & H).
  injection H as <- <-. cbn [alpha render_player frame_prev accumulator].
  apply step_loop_accumulator in Hloop.
  - pose proof PHYS_DT_value as DT.
    assert (Ha : acc / PHYS_DT == acc * 120).
    { rewrite DT. field. }
    split; [| split].
    + rewrite Ha. lra.
    + apply interpolate_at_zero.
    + lra.
  - cbn [accumulator look_update frame_clock].
    pose proof (clampd_bounds (cur f - prev_time d) 0.0 0.25). lra.
Qed.

(** C7.  In every frame of a run of the driver, started with an accumulator
    that is not negative (it is 0 when [main] starts), [alpha] lies in
    [0, 1), and when [alpha] is 0 the state handed to the renderer agrees
    with the previous state on position, velocity, yaw and pitch. *)
Theorem alpha_in_unit_interval (libm : Libm) (m : Map) (fuel : nat)
    (d : Driver) (fs : list Frame) (d' : Driver) (os : list FrameOut) :
  0 <= accumulator d ->
  run libm m fuel d fs = Ok (d', os) ->
  Forall (fun o =>
            (0 <= alpha o /\ alpha o < 1) /\
            (alpha o == 0 ->
             render_matches (render_player o) (frame_prev o)))
         os.
Proof.
  revert d d' os. induction fs as [| f fs IH]; intros d d' os Hacc H;
    simpl in H.
  - injection H as <- <-. constructor.
  - apply bind_Ok in H as ([d1 o] & Hframe & H).
    apply bind_Ok in H as ([d2 os'] & Hrun & H). injection H as <- <-.
    destruct (frame_alpha libm m fuel d f d1 o Hacc Hframe) as (Ha & Hr & Hd).
    constructor; [split; assumption |].
    apply (IH d1 d2 os'); [lra | exact Hrun].
Qed.

(** The loop of a frame never takes more than 30 iterations, so a run with
    that much fuel does not run out of it. *)
Lemma run_fuel (libm : Libm) (m : Map) (fuel : nat) (fs : list Frame) :
  (30 <= fuel)%nat ->
  forall d,
    0 <= accumulator d < PHYS_DT ->
    run libm m fuel d fs <> OutOfFuel.
Proof.
  intros Hfuel. pose proof PHYS_DT_value as DT.
  induction fs as [| f fs IH]; intros d Hacc; simpl; [discriminate |].
  destruct (frame libm m fuel d f) as [[d1 o] | |] eqn:Hframe; simpl.
  - destruct (frame_alpha libm m fuel d f d1 o (proj1 Hacc) Hframe)
      as (_ & _ & Hd).
    specialize (IH d1 Hd).
    destruct (run libm m fuel d1 fs) as [[d2 os] | |]; simpl;
      try discriminate. exact IH.
  - discriminate.
  - exfalso. unfold frame in Hframe.
    match type of Hframe with
    | bind ?r _ = _ => assert (Hr : r <> OutOfFuel)
    end.
    { apply step_loop_fuel. cbn [accumulator look_update frame_clock].
      pose proof (clampd_bounds (cur f - prev_time d) 0.0 0.25).
      assert (Hq : inject_Z 31 <= inject_Z (Z.of_nat fuel + 1)).
      { rewrite <- Zle_Qle. lia. }
      change (inject_Z 31) with 31 in Hq. nra. }
    match type of Hframe with
    | bind ?r _ = _ => destruct r as [[[acc [curr lc]] tr] | |]
    end; simpl in Hframe; try discriminate. contradiction.
Qed.

(** ** The scenarios *)

(** C3.  The code at the input where it departs from the claim.  The
    player stands on the cube of [ledge_map] and walks off its edge: after 10
    steps the box is past the face [z = 2] of the cube.  It falls freely for
    25 more steps, which is longer than [BUNNY_HOP_TIME]; nothing supports
    it, yet [grounded] is still set, since only a jump clears it, and the
    timer is still 0.  A jump requested then succeeds. *)
Theorem jump_long_after_leaving_ledge :
  exists off air up,
    physics_steps libm_yaw0 ledge_map 10 (on_ledge, false) walk sub_dt
    = Ok (off, false) /\
    cell_max_z 1 <= pmin_z off /\
    physics_steps libm_yaw0 ledge_map 25 (off, false) walk sub_dt
    = Ok (air, false) /\
    BUNNY_HOP_TIME < 25 * sub_dt /\
    vy air == vy off - 25 * (GRAVITY * sub_dt) /\ 0.5 < py air /\
    grounded air = true /\ time_since_grounded air == 0 /\
    physics_step libm_yaw0 ledge_map (air, false) walk_jump sub_dt
    = Ok (up, false) /\
    vy up == JUMP_VELOCITY /\ grounded up = false.
Proof.
  eexists. eexists. eexists.
  split. { vm_compute. reflexivity. }
  split. { vm_compute. discriminate. }
  split. { vm_compute. reflexivity. }
  repeat (split; [vm_compute; reflexivity |]).
  vm_compute. reflexivity.
Qed.

(** C1, counterexample.  The cell (1, -1) is outside [open_map] and
    [tile_at] calls it a cube; resolved as a cube it would push the player
    [at_edge] back, but [resolve_collisions] leaves the player where it is,
    and walking on takes the whole box across the edge of the map. *)
Lemma boundary_cell_not_solid :
  in_map open_map 1 (-1) = false /\
  tile_at open_map 1 (-1) = Ok TILE_CUBE /\
  resolve_cube at_edge 1 (-1) <> at_edge /\
  resolve_collisions open_map (at_edge, false) = Ok (at_edge, false) /\
  exists out,
    physics_steps libm_yaw0 open_map 24 (at_edge, false) walk_back sub_dt
    = Ok (out, false) /\
    pz out + PLAYER_RADIUS < 0.
Proof.
  split; [reflexivity |]. split; [reflexivity |].
  split. { apply resolve_cube_changes. vm_compute. reflexivity. }
  split; [vm_compute; reflexivity |].
  eexists. split; [vm_compute; reflexivity | vm_compute; reflexivity].
Qed.

(** C2, counterexample.  The box of [under_wedge] lies wholly below the
    cell (0, 0), apart from its unit cube, and [resolve_wedge] lifts the
    player onto the wedge all the same. *)
Lemma wedge_moves_player_below :
  boxes_apart (player_box under_wedge) (cell_box 0 0) /\
  max_y (player_box under_wedge) < 0 /\
  resolve_wedge under_wedge 0 0 0 <> under_wedge.
Proof.
  split. { apply cube_disjoint_apart. vm_compute. reflexivity. }
  split; [vm_compute; reflexivity |].
  intros E. apply (f_equal py) in E. vm_compute in E. discriminate E.
Qed.


(** ** The theorems at concrete inputs *)

Lemma out_of_map_cells_witness :
  int_add 1 0 = Ok 1%Z /\ int_add 0 (-1) = Ok (-1)%Z /\
  in_map open_map 1 (-1) = false /\
  tile_at open_map 1 (-1) = Ok TILE_CUBE /\
  resolve_cell open_map 1 0 (at_edge, false) (-1) 0 = Ok (at_edge, false).
Proof.
  repeat (split; [reflexivity |]).
  apply (out_of_map_cells open_map 1 0 (at_edge, false) (-1) 0 1 (-1));
    reflexivity.
Defined.

Lemma resolvers_outside_witness :
  boxes_apart (player_box on_ledge) (cell_box 1 1) /\
  resolve_cube on_ledge 1 1 = on_ledge /\
  resolve_wedge on_ledge 1 2 0 = on_ledge /\
  resolve_cell goal_map 1 1 (at_goal, false) 0 0 = Ok (at_goal, true) /\
  resolve_cell goal_map 1 0 (at_edge, false) 1 0 = Ok (at_edge, false).
Proof.
  assert (A : boxes_apart (player_box on_ledge) (cell_box 1 1)).
  { apply cube_disjoint_apart. vm_compute. reflexivity. }
  split; [exact A |]. split; [| split; [| split]].
  - apply (proj1 (resolvers_outside goal_map on_ledge false 1 1 0 0 1 1 0)).
    exact A.
  - apply (proj1 (proj2
             (resolvers_outside goal_map on_ledge false 1 1 0 0 1 2 0))).
    right. vm_compute. reflexivity.
  - destruct (proj2 (proj2
                (resolvers_outside goal_map at_goal false 1 1 0 0 1 1 0))
                eq_refl eq_refl eq_refl eq_refl) as (lc' & H & Hyes & _).
    rewrite H, Hyes; [reflexivity |].
    apply goal_overlap_footprint. vm_compute. reflexivity.
  - destruct (proj2 (proj2
                (resolvers_outside goal_map at_edge false 1 0 1 0 1 1 0))
                eq_refl eq_refl eq_refl eq_refl) as (lc' & H & _ & Hno).
    rewrite H, Hno; [reflexivity |].
    intros F. apply goal_overlap_footprint in F. vm_compute in F.
    discriminate F.
Defined.

Lemma resolve_cube_least_penetration_witness :
  ~ boxes_apart (player_box in_cube) (cell_box 1 1) /\
  least_axis AxisY (pen_x in_cube 1) (pen_y in_cube) (pen_z in_cube 1) /\
  resolved_along AxisY in_cube 1 1 (resolve_cube in_cube 1 1).
Proof.
  assert (A : ~ boxes_apart (player_box in_cube) (cell_box 1 1)).
  { rewrite <- cube_disjoint_apart. vm_compute. discriminate. }
  assert (L : least_axis AxisY (pen_x in_cube 1) (pen_y in_cube)
                         (pen_z in_cube 1)).
  { split; vm_compute; discriminate. }
  split; [exact A |]. split; [exact L |].
  destruct (resolve_cube_least_penetration in_cube 1 1 A)
    as (_ & _ & _ & _ & H).
  exact (H AxisY L).
Defined.

Lemma resolve_wedge_supports_witness :
  in_wedge_footprint in_wedge 0 0 /\
  py in_wedge <= 0.5 + 0.001 /\
  py (resolve_wedge in_wedge 0 0 0) == 0.5 + 0.001 /\
  grounded (resolve_wedge in_wedge 0 0 0) = true /\
  px (resolve_wedge in_wedge 0 0 0) = px in_wedge.
Proof.
  assert (F : in_wedge_footprint in_wedge 0 0).
  { apply wedge_outside_footprint. vm_compute. reflexivity. }
  assert (B : py in_wedge <= 0.5 + 0.001) by (vm_compute; discriminate).
  destruct (resolve_wedge_supports in_wedge 0 0 0) as ((Hx & _) & H).
  destruct (H F) as (Hy & _ & _ & _ & Hg).
  { vm_compute. discriminate. }
  repeat split; assumption.
Defined.

Lemma floor_enforced_witness :
  exists p',
    physics_step libm_yaw0 open_map (at_floor, false) idle sub_dt
    = Ok (p', false) /\
    0 <= py p'.
Proof.
  eexists. split; [vm_compute; reflexivity |].
  refine (proj1 (floor_enforced libm_yaw0 open_map at_floor false idle sub_dt
                                _ false _)).
  vm_compute. reflexivity.
Defined.

Lemma alpha_in_unit_interval_witness :
  0 <= accumulator (init_driver 0) /\
  exists d' os,
    run libm_yaw0 open_map 30 (init_driver 0)
        [menu_frame (1 # 100); menu_frame (3 # 100)]
    = Ok (d', os) /\
    Forall (fun o =>
              (0 <= alpha o /\ alpha o < 1) /\
              (alpha o == 0 ->
               render_matches (render_player o) (frame_prev o)))
           os.
Proof.
  assert (A : 0 <= accumulator (init_driver 0)) by (vm_compute; discriminate).
  split; [exact A |].
  eexists. eexists. split; [vm_compute; reflexivity |].
  refine (alpha_in_unit_interval libm_yaw0 open_map 30 (init_driver 0)
            [menu_frame (1 # 100); menu_frame (3 # 100)] _ _ A _).
  vm_compute. reflexivity.
Defined.

Lemma libm_yaw0_proper : libm_proper libm_yaw0.
Proof. intros a b H. cbn. repeat split; (reflexivity || exact H). Qed.


Lemma level_complete_monotone_witness :
  (exists p',
     physics_step libm_yaw0 goal_map (at_goal, false) idle sub_dt
     = Ok (p', true) /\
     goal_hit goal_map (before_collisions libm_yaw0 at_goal idle sub_dt)) /\
  (exists p',
     physics_step libm_yaw0 goal_map (at_edge, false) idle sub_dt
     = Ok (p', false) /\
     ~ goal_hit goal_map (before_collisions libm_yaw0 at_edge idle sub_dt)).
Proof.
  split.
  - eexists. split; [vm_compute; reflexivity |].
    destruct (level_complete_monotone libm_yaw0 goal_map at_goal false idle
                                      sub_dt) as (_ & H & _).
    edestruct H as (_ & Hd); [vm_compute; reflexivity |].
    destruct (proj1 Hd eq_refl) as [F | G]; [discriminate F | exact G].
  - eexists. split; [vm_compute; reflexivity |].
    destruct (level_complete_monotone libm_yaw0 goal_map at_edge false idle
                                      sub_dt) as (_ & H & _).
    edestruct H as (_ & Hd); [vm_compute; reflexivity |].
    intros G. discriminate (proj2 Hd (or_intror G)).
Defined.

Lemma physics_step_keeps_orientation_witness :
  exists p',
    physics_step libm_yaw0 goal_map (at_goal, false) idle sub_dt
    = Ok (p', true) /\
    yaw p' = 0.3 /\ pitch p' = 0.1.
Proof.
  eexists. split; [vm_compute; reflexivity |].
  refine (physics_step_keeps_orientation libm_yaw0 goal_map at_goal false idle
                                         sub_dt _ true _).
  vm_compute. reflexivity.
Defined.

(** * Further properties of the code *)

(** ** The helpers of the controller *)

(** X1.  [approach] moves [cur] toward [target] by at most [maxDelta] and
    never past it: the result lies between the two, it differs from [cur] by
    at most [maxDelta], it is the target itself when that is within reach
    and a full step of [maxDelta] toward it otherwise. *)
Theorem approach_no_overshoot (cur target maxDelta : Q) :
  0 <= maxDelta ->
  let r := approach cur target maxDelta in
  (cur <= target -> cur <= r <= target) /\
  (target <= cur -> target <= r <= cur) /\
  - maxDelta <= r - cur <= maxDelta /\
  (- maxDelta <= target - cur <= maxDelta -> r = target) /\
  (maxDelta < target - cur -> r == cur + maxDelta) /\
  (target - cur < - maxDelta -> r == cur - maxDelta).
Proof.
  intros H r. subst r. unfold approach.
  destruct (target - cur >? maxDelta) eqn:E1;
    [| destruct (target - cur <? - maxDelta) eqn:E2]; order_facts;
    repeat split; intros; try reflexivity; lra.
Qed.

Lemma approach_zero (cur target d : Q) :
  target == 0 -> 0 <= d ->
  let r := approach cur target d in
  (0 <= cur -> 0 <= r /\ r <= cur /\ (cur <= d -> r == 0) /\
               (d <= cur -> r == cur - d)) /\
  (cur <= 0 -> cur <= r /\ r <= 0 /\ (- d <= cur -> r == 0) /\
               (cur <= - d -> r == cur + d)).
Proof.
  intros T D r. subst r. unfold approach.
  destruct (target - cur >? d) eqn:E1;
    [| destruct (target - cur <? - d) eqn:E2]; order_facts;
    repeat split; intros; lra.
Qed.

(** Without movement input the wish direction is the null vector, whatever
    the math library answers. *)
Lemma wish_dir_no_input (libm : Libm) (p : Player) (i : Input) :
  move_fwd i == 0 -> move_strafe i == 0 ->
  fst (fst (wish_dir libm p i)) == 0 /\ snd (fst (wish_dir libm p i)) == 0.
Proof.
  intros F S. unfold wish_dir.
  set (L0 := sqrt libm (move_fwd i * move_fwd i
                        + move_strafe i * move_strafe i)).
  assert (RF : (if L0 >? 1.0 then move_fwd i / L0 else move_fwd i) == 0).
  { destruct (L0 >? 1.0); [unfold Qdiv |]; rewrite F; ring. }
  assert (RS : (if L0 >? 1.0 then move_strafe i / L0 else move_strafe i)
               == 0).
  { destruct (L0 >? 1.0); [unfold Qdiv |]; rewrite S; ring. }
  set (rf := if L0 >? 1.0 then move_fwd i / L0 else move_fwd i) in *.
  set (rs := if L0 >? 1.0 then move_strafe i / L0 else move_strafe i) in *.
  set (wx := sin libm (yaw p) * rf + cos libm (yaw p) * rs).
  set (wz := cos libm (yaw p) * rf + - sin libm (yaw p) * rs).
  assert (WX : wx == 0) by (subst wx; rewrite RF, RS; ring).
  assert (WZ : wz == 0) by (subst wz; rewrite RF, RS; ring).
  set (L := sqrt libm (wx * wx + wz * wz)). clearbody L.
  destruct (L >? 1e-6); cbn [fst snd]; split;
    first [ exact WX | exact WZ
          | unfold Qdiv; rewrite WX; ring
          | unfold Qdiv; rewrite WZ; ring ].
Qed.

Lemma slows_after (cur t1 d1 t2 d2 : Q) :
  t1 == 0 -> t2 == 0 -> 0 <= d1 -> 0 <= d2 ->
  slows cur (approach cur t1 d1) d1 /\
  slows cur (approach (approach cur t1 d1) t2 d2) d1.
Proof.
  intros T1 T2 D1 D2.
  pose proof (approach_zero cur t1 d1 T1 D1) as (A1 & A2).
  pose proof (approach_zero (approach cur t1 d1) t2 d2 T2 D2) as (B1 & B2).
  cbv zeta in *.
  set (r1 := approach cur t1 d1) in *.
  set (r2 := approach r1 t2 d2) in *.
  unfold slows. split; split; intros H.
  - destruct (A1 H) as (? & ? & ? & ?). repeat split; try lra; intros; lra.
  - destruct (A2 H) as (? & ? & ? & ?). repeat split; try lra; intros; lra.
  - destruct (A1 H) as (P0 & P1 & P2 & P3).
    destruct (B1 P0) as (? & ? & ? & ?).
    repeat split; lra.
  - destruct (A2 H) as (P0 & P1 & P2 & P3).
    destruct (B2 P1) as (? & ? & ? & ?).
    repeat split; lra.
Qed.

(** X2.  Without movement input a physics step brakes the horizontal
    velocity: each of [vx] and [vz] moves toward zero by at least
    [accel * dt] (the walking acceleration on the ground, the air
    acceleration otherwise), or comes to rest, and never changes sign.  This
    holds whatever [sin], [cos] and [sqrt] answer. *)
Theorem no_input_brakes (libm : Libm) (p : Player) (i : Input) (dt : Q) :
  move_fwd i == 0 -> move_strafe i == 0 -> 0 <= dt ->
  let q := horizontal_velocity libm p i dt in
  let a := (if grounded p then WALK_ACCEL else AIR_ACCEL) * dt in
  slows (vx p) (vx q) a /\ slows (vz p) (vz q) a.
Proof.
  intros F S D q a. subst q a.
  destruct (wish_dir_no_input libm p i F S) as (WX & WZ).
  unfold horizontal_velocity.
  destruct (wish_dir libm p i) as [[wish_x wish_z] wish_len].
  cbn [fst snd] in WX, WZ.
  set (speed := if grounded p
                then MAX_WALK_SPEED * (if sprint i then 1.5 else 1.0)
                else MAX_WALK_SPEED).
  set (acc := (if grounded p then WALK_ACCEL else AIR_ACCEL)).
  assert (A : 0 <= acc * dt).
  { subst acc. unfold WALK_ACCEL, AIR_ACCEL. destruct (grounded p); nra. }
  assert (TX : wish_x * speed == 0) by (rewrite WX; ring).
  assert (TZ : wish_z * speed == 0) by (rewrite WZ; ring).
  assert (Fr : 0 <= FRICTION * dt) by (unfold FRICTION; nra).
  assert (Z0 : 0.0 == 0) by reflexivity.
  destruct (slows_after (vx p) (wish_x * speed) (acc * dt) 0.0 (FRICTION * dt)
              TX Z0 A Fr) as (SX1 & SX2).
  destruct (slows_after (vz p) (wish_z * speed) (acc * dt) 0.0 (FRICTION * dt)
              TZ Z0 A Fr) as (SZ1 & SZ2).
  cbn [grounded vx vz set_vx set_vz].
  destruct (grounded p && (wish_len <? 1e-3)); cbn [vx vz set_vx set_vz];
    split; assumption.
Qed.

(** ** What the resolvers leave behind *)

(** X3.  When [resolve_cube] moves the player vertically, it leaves it on
    top of the cube, the foot 0.001 above it, or under the cube, the head
    0.001 below it, at the horizontal position it had: the player's box and
    the cube then have no interior point in common, and resolving the same
    cube again changes nothing.  (A horizontal push moves the box to the
    face of the cube with no such margin; nothing is said of it here.) *)
Theorem resolve_cube_separates (p : Player) (cx cz : Z) :
  let p' := resolve_cube p cx cz in
  ~ py p' == py p ->
  (py p' == 1 + 0.001 \/ py p' == - PLAYER_HEIGHT - 0.001) /\
  px p' = px p /\ pz p' = pz p /\
  boxes_apart (player_box p') (cell_box cx cz) /\
  resolve_cube p' cx cz = p'.
Proof.
  intros p' Hy.
  assert (V : (py p' == 1 + 0.001 \/ py p' == - PLAYER_HEIGHT - 0.001) /\
              px p' = px p /\ pz p' = pz p).
  { subst p'. revert Hy. unfold resolve_cube.
    destruct (cube_disjoint p cx cz); [intros Hy; now elim Hy |].
    destruct ((pen_y p <=? pen_x p cx) && (pen_y p <=? pen_z p cz)).
    - intros _. unfold cell_min_y, cell_max_y.
      repeat match goal with
             | |- context [if ?c then _ else _] => destruct c
             end; cbn; (split; [| split; reflexivity]);
        [left | right | right]; lra.
    - repeat match goal with
             | |- context [if ?c then _ else _] => destruct c
             end; cbn; intros Hy; now elim Hy. }
  destruct V as (Vy & Vx & Vz).
  assert (D : cube_disjoint p' cx cz = true).
  { unfold cube_disjoint, pmax_y, pmin_y, cell_min_y, cell_max_y,
      PLAYER_HEIGHT in *.
    apply orb_true_iff. left. apply orb_true_iff. left.
    destruct Vy as [Vy | Vy].
    - apply orb_true_iff. right. apply Qleb_le. lra.
    - apply orb_true_iff. left. apply orb_true_iff. right.
      apply Qleb_le. lra. }
  repeat split; try assumption.
  - apply cube_disjoint_apart. exact D.
  - unfold resolve_cube. rewrite D. reflexivity.
Qed.

(** X4.  When the vertical axis is the one of least penetration, a player
    whose box centre is above the cube's (foot above -0.4) is put on top of
    the cube, at rest vertically and grounded; one below is put under the
    cube with its head 0.001 below it, an upward velocity is set to 0, a
    downward one is kept, and [grounded] is left as it was. *)
Theorem resolve_cube_vertical (p : Player) (cx cz : Z) :
  ~ boxes_apart (player_box p) (cell_box cx cz) ->
  pen_y p <= pen_x p cx -> pen_y p <= pen_z p cz ->
  let p' := resolve_cube p cx cz in
  (- 0.4 < py p ->
   py p' == 1 + 0.001 /\ vy p' == 0 /\ grounded p' = true) /\
  (py p <= - 0.4 ->
   py p' == - PLAYER_HEIGHT - 0.001 /\ vy p' <= 0 /\
   (0 < vy p -> vy p' == 0) /\
   (vy p <= 0 -> vy p' = vy p) /\ grounded p' = grounded p).
Proof.
  intros Hov Hx Hz p'. subst p'.
  assert (D : cube_disjoint p cx cz = false).
  { destruct (cube_disjoint p cx cz) eqn:E; [| reflexivity].
    exfalso. apply Hov, cube_disjoint_apart, E. }
  unfold resolve_cube. rewrite D.
  apply Qleb_le in Hx, Hz. rewrite Hx, Hz. cbn [andb].
  unfold pmin_y, pmax_y, cell_min_y, cell_max_y, PLAYER_HEIGHT.
  destruct ((py p + (py p + 1.8)) * 0.5 >? (0.0 + 1.0) * 0.5) eqn:C;
    order_facts.
  - split; intros H; [| lra]. cbn. repeat split; lra.
  - split; intros H; [lra |].
    cbn [vy set_py].
    destruct (vy p >? 0) eqn:V; order_facts; cbn; repeat split;
      try reflexivity; try lra.
Qed.

Lemma wedge_tests_horizontal (p q : Player) (cx cz rot : Z) :
  px q = px p -> pz q = pz p ->
  wedge_outside q cx cz = wedge_outside p cx cz /\
  wedge_surf q cx cz rot = wedge_surf p cx cz rot.
Proof.
  intros Hx Hz. unfold wedge_outside, wedge_surf. rewrite Hx, Hz. auto.
Qed.

Lemma resolve_wedge_snap (p : Player) (cx cz rot : Z) :
  wedge_outside p cx cz = false ->
  (py p <=? wedge_surf p cx cz rot + 0.001) = true ->
  let q := resolve_wedge p cx cz rot in
  px q = px p /\ pz q = pz p /\
  py q = wedge_surf p cx cz rot + 0.001 /\
  vy q = (if vy p <? 0.0 then 0.0 else vy p) /\
  grounded q = true /\
  vx q = vx p /\ vz q = vz p /\ yaw q = yaw p /\ pitch q = pitch p /\
  time_since_grounded q = time_since_grounded p.
Proof.
  intros O B q. subst q. unfold resolve_wedge. rewrite O, B.
  cbn [vy set_py]. destruct (vy p <? 0.0); cbn; repeat split.
Qed.

Lemma player_ext (p q : Player) :
  px q = px p -> py q = py p -> pz q = pz p ->
  vx q = vx p -> vy q = vy p -> vz q = vz p ->
  yaw q = yaw p -> pitch q = pitch p -> grounded q = grounded p ->
  time_since_grounded q = time_since_grounded p -> q = p.
Proof.
  destruct p, q. cbn. intros. subst. reflexivity.
Qed.

(** X5.  [resolve_wedge] never lowers the player and never clears
    [grounded]; within the inflated footprint it leaves the foot at least
    0.001 above the wedge surface; and resolving the same wedge again
    changes nothing. *)
Theorem resolve_wedge_above_surface (p : Player) (cx cz rot : Z) :
  let p' := resolve_wedge p cx cz rot in
  let h := height_field rot (clamp01 (px p - inject_Z cx))
                            (clamp01 (pz p - inject_Z cz)) in
  py p <= py p' /\
  (grounded p = true -> grounded p' = true) /\
  (in_wedge_footprint p cx cz -> h + 0.001 <= py p') /\
  resolve_wedge p' cx cz rot = p'.
Proof.
  intros p' h. subst p' h. rewrite <- wedge_surf_height_field.
  destruct (wedge_outside p cx cz) eqn:O.
  - unfold resolve_wedge. rewrite O. rewrite O. repeat split; try lra; auto.
    intros F. apply wedge_outside_footprint in F. congruence.
  - destruct (py p <=? wedge_surf p cx cz rot + 0.001) eqn:B.
    + destruct (resolve_wedge_snap p cx cz rot O B)
        as (Hx & Hz & Hy & Hv & Hg & Hvx & Hvz & Hyw & Hp & Ht).
      set (q := resolve_wedge p cx cz rot) in *.
      destruct (wedge_tests_horizontal p q cx cz rot Hx Hz) as (Oq & Sq).
      assert (Bq : (py q <=? wedge_surf q cx cz rot + 0.001) = true).
      { rewrite Sq, Hy. apply Qleb_le. lra. }
      rewrite O in Oq.
      destruct (resolve_wedge_snap q cx cz rot Oq Bq)
        as (Hx' & Hz' & Hy' & Hv' & Hg' & Hvx' & Hvz' & Hyw' & Hp' & Ht').
      order_facts. repeat split.
      * rewrite Hy. exact B.
      * intros _. exact Hg.
      * intros _. rewrite Hy. lra.
      * apply player_ext; try assumption; try congruence.
        rewrite Hv', Hv.
        destruct (vy p <? 0.0) eqn:V; [reflexivity |]. rewrite V. reflexivity.
    + unfold resolve_wedge. rewrite O, B, O, B. order_facts.
      repeat split; try lra; auto.
Qed.

(** ** The grid *)

Lemma in_map_bounds (m : Map) (x z : Z) :
  in_map m x z = true <-> (0 <= x < map_w m /\ 0 <= z < map_h m)%Z.
Proof.
  unfold in_map. rewrite !andb_true_iff, !Z.geb_le, !Z.ltb_lt. lia.
Qed.

(** X6.  On a map whose arrays hold [map_w * map_h] cells, [tile_at]
    answers for every coordinate; the index of a cell of the map lies within
    both arrays; and two cells of the map with the same index are the same
    cell. *)
Theorem grid_lookup_total (m : Map) :
  map_ok m ->
  (forall x z, exists t, tile_at m x z = Ok t) /\
  (forall x z, in_map m x z = true ->
     exists i, cell_index m x z = Ok i /\
               (0 <= i < Z.of_nat (length (map_cells m)))%Z /\
               (0 <= i < Z.of_nat (length (map_rots m)))%Z) /\
  (forall x z x' z' i,
     in_map m x z = true -> in_map m x' z' = true ->
     cell_index m x z = Ok i -> cell_index m x' z' = Ok i ->
     x = x' /\ z = z').
Proof.
  intros Hm. pose proof Hm as (Hw & Hh & Hmax & Lc & Lr).
  split; [| split].
  - intros x z. unfold tile_at.
    destruct (in_map m x z) eqn:Hin; cbn [negb]; [| eauto].
    destruct (cell_index_Ok m x z Hm Hin) as (Hi & Hb). rewrite Hi. cbn [bind].
    apply read_Ok; lia.
  - intros x z Hin. destruct (cell_index_Ok m x z Hm Hin) as (Hi & Hb).
    eexists. split; [exact Hi |]. rewrite Lc, Lr. lia.
  - intros x z x' z' i Hin Hin' Hi Hi'.
    destruct (cell_index_Ok m x z Hm Hin) as (E & _).
    destruct (cell_index_Ok m x' z' Hm Hin') as (E' & _).
    rewrite E in Hi. rewrite E' in Hi'.
    injection Hi as Hi. injection Hi' as Hi'.
    apply in_map_bounds in Hin, Hin'.
    assert (Hz : z = z').
    { destruct (Z.lt_trichotomy z z') as [L | [E0 | L]]; [| exact E0 |].
      - assert ((z + 1) * map_w m <= z' * map_w m)%Z by nia. lia.
      - assert ((z' + 1) * map_w m <= z * map_w m)%Z by nia. lia. }
    subst z'. split; [lia | reflexivity].
Qed.

Lemma resolve_collisions_defined (m : Map) (p : Player) (lc : bool) :
  map_ok m -> cell_in_range (px p) -> cell_in_range (pz p) ->
  exists st', resolve_collisions m (p, lc) = Ok st'.
Proof.
  intros Hm Hx Hz. unfold resolve_collisions, resolve_cells.
  cbn [fst]. rewrite (int_of_double_floor _ Hx), (int_of_double_floor _ Hz).
  cbn [bind].
  match goal with
  | |- context [for_each ?b offsets ?s0] =>
      assert (H : exists st', for_each b offsets s0 = Ok st')
  end.
  { apply for_each_defined. intros s oz Hoz.
    apply for_each_defined. intros s' ox Hox.
    apply resolve_cell_defined; assumption. }
  destruct H as ([q l] & H). rewrite H. simpl. eauto.
Qed.

(** X7.  On such a map collision resolution and the physics step never read
    outside the arrays and never leave the range of [int], as long as the
    cell of the player and its neighbours are [int]s: both return a
    state. *)
Theorem collisions_never_fault (libm : Libm) (m : Map) (p : Player)
    (lc : bool) (i : Input) (dt : Q) :
  map_ok m ->
  (cell_in_range (px p) -> cell_in_range (pz p) ->
   exists st', resolve_collisions m (p, lc) = Ok st') /\
  (cell_in_range (px (before_collisions libm p i dt)) ->
   cell_in_range (pz (before_collisions libm p i dt)) ->
   exists st', physics_step libm m (p, lc) i dt = Ok st').
Proof.
  intros Hm. split; intros Hx Hz.
  - apply resolve_collisions_defined; assumption.
  - unfold physics_step. apply resolve_collisions_defined; assumption.
Qed.

(** ** Open ground and the goal *)

Lemma for_each_defined_invariant {S V : Type} (P : S -> Prop)
    (body : S -> V -> result S) (vs : list V) :
  (forall s v, In v vs -> P s -> exists s', body s v = Ok s' /\ P s') ->
  forall s, P s -> exists s', for_each body vs s = Ok s' /\ P s'.
Proof.
  induction vs as [| v vs IH]; simpl; intros Hbody s Hs; [eauto |].
  destruct (Hbody s v (or_introl eq_refl) Hs) as (s1 & H1 & P1).
  rewrite H1. simpl. apply IH; [| exact P1].
  intros s2 v2 Hv. apply Hbody. right. exact Hv.
Qed.

(** A loop whose body is defined and keeps [P]: a property [Q] that the body
    keeps, and that holds after an iteration at a value with [T], holds at
    the end if it held at the start or some value has [T]. *)
Lemma for_each_reaches {S V : Type} (P Q : S -> Prop) (T : V -> Prop)
    (body : S -> V -> result S) (vs : list V) :
  (forall s v, In v vs -> P s ->
     exists s', body s v = Ok s' /\ P s' /\ (Q s -> Q s') /\ (T v -> Q s')) ->
  forall s, P s ->
  exists s', for_each body vs s = Ok s' /\ P s' /\
             (Q s \/ (exists v, In v vs /\ T v) -> Q s').
Proof.
  induction vs as [| v vs IH]; simpl; intros Hbody s Hs.
  - exists s. repeat split; auto. intros [H | (v & [] & _)]. exact H.
  - destruct (Hbody s v (or_introl eq_refl) Hs) as (s1 & H1 & P1 & Q1 & R1).
    rewrite H1. simpl.
    destruct (IH (fun s v Hv => Hbody s v (or_intror Hv)) s1 P1)
      as (s2 & H2 & P2 & Q2).
    exists s2. repeat split; auto.
    intros [H | (v1 & [<- | Hv] & Tv)]; apply Q2; eauto.
Qed.

(** The same for a loop that may be undefined, when it is defined. *)
Lemma for_each_reaches_if {S V : Type} (Q : S -> Prop) (T : V -> Prop)
    (body : S -> V -> result S) (vs : list V) :
  (forall s v s', In v vs -> body s v = Ok s' ->
     (Q s -> Q s') /\ (T v -> Q s')) ->
  forall s s', for_each body vs s = Ok s' ->
  Q s \/ (exists v, In v vs /\ T v) -> Q s'.
Proof.
  induction vs as [| v vs IH]; simpl; intros Hbody s s' H HQ.
  - injection H as <-. destruct HQ as [HQ | (v & [] & _)]. exact HQ.
  - apply bind_Ok in H as (s1 & H1 & H).
    destruct (Hbody s v s1 (or_introl eq_refl) H1) as (K1 & K2).
    apply (IH (fun s v s' Hv => Hbody s v s' (or_intror Hv)) s1 s' H).
    destruct HQ as [HQ | (v1 & [<- | Hv] & Tv)]; eauto.
Qed.

Lemma offsets_range (o : Z) : In o offsets -> (-1 <= o <= 1)%Z.
Proof. simpl. lia. Qed.

Lemma no_solid_nearb_true (m : Map) (cx cz : Z) :
  no_solid_nearb m cx cz = true -> no_solid_near m cx cz.
Proof.
  unfold no_solid_nearb, no_solid_near. intros H oz ox Hoz Hox Hin.
  rewrite forallb_forall in H. specialize (H oz Hoz).
  rewrite forallb_forall in H. specialize (H ox Hox).
  rewrite Hin in H.
  destruct (tile_at m (cx + ox) (cz + oz)) as [t | |]; try discriminate H.
  exists t. split; [reflexivity |].
  apply andb_true_iff in H as (H1 & H2).
  apply negb_true_iff in H1, H2. apply Z.eqb_neq in H1, H2. auto.
Qed.

Lemma resolve_cell_not_solid (m : Map) (cx cz : Z) (p : Player) (lc : bool)
    (oz ox : Z) :
  (INT_MIN < cx < INT_MAX)%Z -> (INT_MIN < cz < INT_MAX)%Z ->
  no_solid_near m cx cz -> In oz offsets -> In ox offsets ->
  exists lc',
    resolve_cell m cx cz (p, lc) oz ox = Ok (p, lc') /\
    (lc = true -> lc' = true) /\
    (in_map m (cx + ox) (cz + oz) = true ->
     tile_at m (cx + ox) (cz + oz) = Ok TILE_END ->
     goal_overlap p (cx + ox) (cz + oz) = true -> lc' = true).
Proof.
  intros Hcx Hcz Hn Hoz Hox.
  pose proof (offsets_range oz Hoz). pose proof (offsets_range ox Hox).
  unfold resolve_cell, int_add. rewrite !int_of_Ok by lia. cbn [bind].
  destruct (in_map m (cx + ox) (cz + oz)) eqn:Hin; cbn [negb].
  - destruct (Hn oz ox Hoz Hox Hin) as (t & Ht & Hc & Hw).
    rewrite Ht. cbn [bind].
    apply Z.eqb_neq in Hc, Hw. rewrite Hc, Hw.
    destruct (t =? TILE_END)%Z eqn:E.
    + destruct (goal_overlap p (cx + ox) (cz + oz)) eqn:G.
      * exists true. auto.
      * exists lc. repeat split; auto. intros _ _ F. discriminate F.
    + exists lc. repeat split; auto.
      intros _ F. injection F as ->. discriminate E.
  - exists lc. repeat split; auto. intros F. discriminate F.
Qed.

Lemma floor_in_cell (x : Q) :
  inject_Z (Qfloor x) <= x /\ x < inject_Z (Qfloor x + 1).
Proof. split; [apply Qfloor_le | apply Qlt_floor]. Qed.

(** The footprint of the player overlaps the cell its centre is in. *)
Lemma goal_overlap_own_cell (p : Player) :
  goal_overlap p (Qfloor (px p)) (Qfloor (pz p)) = true.
Proof.
  destruct (floor_in_cell (px p)) as (X0 & X1).
  destruct (floor_in_cell (pz p)) as (Z0 & Z1).
  unfold goal_overlap. rewrite !andb_true_iff, !Qleb_le.
  unfold PLAYER_RADIUS. repeat split; lra.
Qed.

Lemma resolve_cells_not_solid (m : Map) (p : Player) (lc : bool) :
  cell_in_range (px p) -> cell_in_range (pz p) ->
  no_solid_near m (Qfloor (px p)) (Qfloor (pz p)) ->
  exists lc',
    resolve_cells m (p, lc) = Ok (p, lc') /\
    (lc = true -> lc' = true) /\
    (in_map m (Qfloor (px p)) (Qfloor (pz p)) = true ->
     tile_at m (Qfloor (px p)) (Qfloor (pz p)) = Ok TILE_END ->
     lc' = true).
Proof.
  intros Hx Hz Hn. unfold resolve_cells. cbn [fst].
  rewrite (int_of_double_floor _ Hx), (int_of_double_floor _ Hz). cbn [bind].
  set (cx := Qfloor (px p)) in *. set (cz := Qfloor (pz p)) in *.
  set (P := fun s : Player * bool => fst s = p /\ (lc = true -> snd s = true)).
  set (Q := fun s : Player * bool =>
              in_map m cx cz = true -> tile_at m cx cz = Ok TILE_END ->
              snd s = true).
  assert (Cell : forall oz ox s, In oz offsets -> In ox offsets -> P s ->
            exists s', resolve_cell m cx cz s oz ox = Ok s' /\ P s' /\
                       (Q s -> Q s') /\ (oz = 0%Z -> ox = 0%Z -> Q s')).
  { intros oz ox [q l] Hoz Hox (Hq & Hl). cbn in Hq, Hl. subst q.
    destruct (resolve_cell_not_solid m cx cz p l oz ox Hx Hz Hn Hoz Hox)
      as (l' & H & Hup & Hgoal).
    exists (p, l'). split; [exact H |]. split; [| split].
    - split; [reflexivity | cbn; auto].
    - intros HQ Hin Ht. cbn in *. auto.
    - intros -> -> Hin Ht. cbn. rewrite !Z.add_0_r in Hgoal.
      apply Hgoal; auto. apply goal_overlap_own_cell. }
  assert (Row : forall oz s, In oz offsets -> P s ->
            exists s',
              for_each (fun st ox => resolve_cell m cx cz st oz ox) offsets s
              = Ok s' /\ P s' /\ (Q s -> Q s') /\ (oz = 0%Z -> Q s')).
  { intros oz s Hoz Hs.
    destruct (for_each_reaches P Q (fun ox => oz = 0%Z /\ ox = 0%Z)
                (fun st ox => resolve_cell m cx cz st oz ox) offsets)
      with (s := s) as (s' & H & P' & Q'); [| exact Hs |].
    - intros s1 ox Hox Hs1.
      destruct (Cell oz ox s1 Hoz Hox Hs1) as (s2 & H2 & P2 & Q2 & R2).
      exists s2. repeat split; auto; try apply P2. intros (-> & ->). auto.
    - exists s'. repeat split; auto; try apply P'.
      intros ->. apply Q'. right. exists 0%Z. simpl. auto. }
  destruct (for_each_reaches P Q (fun oz => oz = 0%Z)
              (fun st oz =>
                 for_each (fun st ox => resolve_cell m cx cz st oz ox)
                          offsets st) offsets)
    with (s := (p, lc)) as ([q l] & H & (Hq & Hl) & HQ).
  - intros s oz Hoz Hs. apply Row; assumption.
  - split; [reflexivity | auto].
  - cbn in Hq, Hl. subst q. exists l. split; [exact H |]. split; [exact Hl |].
    intros Hin Ht.
    apply (HQ (or_intror (ex_intro _ 0%Z (conj (or_intror (or_introl eq_refl))
                                                 eq_refl))) Hin Ht).
Qed.

(** X8.  Where none of the 3x3 cells around the player is a cube or a
    wedge, collision resolution is the floor clamp alone: the player is
    moved only if its foot is below the world floor, and a raised
    level-complete flag stays raised. *)
Theorem open_ground_collisions (m : Map) (p : Player) (lc : bool) :
  cell_in_range (px p) -> cell_in_range (pz p) ->
  no_solid_near m (Qfloor (px p)) (Qfloor (pz p)) ->
  exists lc',
    resolve_collisions m (p, lc) = Ok (floor_clamp p, lc') /\
    (lc = true -> lc' = true).
Proof.
  intros Hx Hz Hn.
  destruct (resolve_cells_not_solid m p lc Hx Hz Hn) as (l & H & Hup & _).
  exists l. unfold resolve_collisions. rewrite H. auto.
Qed.

(** X9.  A player whose centre is in a goal cell, with no cube or wedge
    among the cells around, completes the level: collision resolution
    raises the flag, at any height of the player above the cell. *)
Theorem standing_in_goal_completes (m : Map) (p : Player) (lc : bool) :
  cell_in_range (px p) -> cell_in_range (pz p) ->
  no_solid_near m (Qfloor (px p)) (Qfloor (pz p)) ->
  in_map m (Qfloor (px p)) (Qfloor (pz p)) = true ->
  tile_at m (Qfloor (px p)) (Qfloor (pz p)) = Ok TILE_END ->
  resolve_collisions m (p, lc) = Ok (floor_clamp p, true).
Proof.
  intros Hx Hz Hn Hin Ht.
  destruct (resolve_cells_not_solid m p lc Hx Hz Hn) as (l & H & _ & Hg).
  unfold resolve_collisions. rewrite H. cbn. rewrite (Hg Hin Ht). reflexivity.
Qed.

Lemma before_collisions_position (libm : Libm) (p : Player) (i : Input)
    (dt : Q) :
  let q := before_collisions libm p i dt in
  px q = px p + vx q * dt /\ py q = py p + vy q * dt /\
  pz q = pz p + vz q * dt.
Proof.
  destruct (horizontal_velocity_keeps libm p i dt)
    as (Hx & Hy & Hz & _).
  intros q. subst q. unfold before_collisions.
  destruct (horizontal_velocity libm p i dt) as [x y z ux uy uz w pt g t].
  cbn in Hx, Hy, Hz. subst x y z.
  unfold integrate, apply_jump.
  match goal with
  | |- context [jump_test ?a i] => destruct (jump_test a i)
  end; unfold apply_gravity, update_ground_timer; cbn [grounded];
    destruct g; cbn; repeat split.
Qed.

(** X10.  A player on the world floor ([py] = 0) that is not moving upward
    and does not jump is on the floor again after a physics step over open
    ground: gravity pulls it below, the floor clamp puts it back with
    [py] = 0 and [vy] = 0, grounded, and the horizontal position is the
    integrated one. *)
Theorem floor_rest (libm : Libm) (m : Map) (p : Player) (lc : bool)
    (i : Input) (dt : Q) :
  jump i = false -> py p == 0 -> vy p <= 0 -> 0 < dt ->
  let q := before_collisions libm p i dt in
  cell_in_range (px q) -> cell_in_range (pz q) ->
  no_solid_near m (Qfloor (px q)) (Qfloor (pz q)) ->
  exists p' lc',
    physics_step libm m (p, lc) i dt = Ok (p', lc') /\
    py p' == 0 /\ vy p' == 0 /\ grounded p' = true /\
    px p' = px q /\ pz p' = pz q.
Proof.
  intros J Py Vy D q Hx Hz Hn.
  destruct (resolve_cells_not_solid m q lc Hx Hz Hn) as (l & H & _ & _).
  destruct (jump_rule libm p i dt) as (_ & R).
  rewrite J in R. cbn [andb] in R. destruct (R eq_refl) as (Rv & _ & _).
  destruct (before_collisions_position libm p i dt) as (_ & Ry & _).
  fold q in Rv, Ry.
  assert (Neg : py q < 0).
  { rewrite Ry, Rv. unfold GRAVITY. nra. }
  exists (floor_clamp q), l. split.
  - unfold physics_step. fold q. unfold resolve_collisions. rewrite H.
    reflexivity.
  - assert (E : (py q <? 0.0) = true) by (apply Qltb_lt; lra).
    unfold floor_clamp. rewrite E. cbn. repeat split; reflexivity.
Qed.

(** ** The frame *)

Lemma step_loop_time (libm : Libm) (m : Map) (fuel : nat) (i : Input) :
  forall acc st acc' st' tr,
    step_loop libm m fuel i acc st = Ok (acc', st', tr) ->
    acc' + inject_Z (Z.of_nat (length tr)) * PHYS_DT == acc.
Proof.
  induction fuel as [| fuel IH]; intros acc st acc' st' tr H;
    simpl in H; destruct (acc >=? PHYS_DT) eqn:E;
    try discriminate;
    try (injection H as <- <- <-; cbn [length Z.of_nat];
         change (inject_Z 0) with 0; lra).
  apply bind_Ok in H as (st1 & _ & H).
  apply bind_Ok in H as ([[a s] t] & Hloop & H). injection H as <- <- <-.
  apply IH in Hloop. cbn [length]. rewrite Nat2Z.inj_succ. unfold Z.succ.
  rewrite inject_Z_plus. change (inject_Z 1) with 1. lra.
Qed.

(** X11.  In the exact arithmetic of the model a frame loses no simulated
    time: the accumulator it leaves plus [PHYS_DT] for every fixed step it
    ran is the accumulator it found plus the frame time, which is the clock
    difference clamped to [0, 0.25] (in floating point each of these
    additions and subtractions rounds).  Whatever the arithmetic, the frame
    leaves an accumulator in [0, PHYS_DT) and remembers the clock; and when
    the clock has not advanced and less than one step was accumulated, it
    runs no fixed step and leaves the accumulator and the state the look
    update left. *)
Theorem frame_time_conserved (libm : Libm) (m : Map) (fuel : nat)
    (d : Driver) (f : Frame) (d' : Driver) (o : FrameOut) :
  0 <= accumulator d ->
  frame libm m fuel d f = Ok (d', o) ->
  accumulator d' + inject_Z (Z.of_nat (length (steps_run o))) * PHYS_DT
  == accumulator d + clampd (cur f - prev_time d) 0.0 0.25 /\
  0 <= accumulator d' < PHYS_DT /\
  prev_time d' = cur f /\
  (cur f <= prev_time d -> accumulator d < PHYS_DT ->
   steps_run o = [] /\ accumulator d' == accumulator d /\
   state_curr d' = state_curr (look_update d f)).
Proof.
  intros Hacc H. unfold frame in H.
  apply bind_Ok in H as ([[acc [curr lc]] tr] & Hloop & H).
  injection H as <- <-.
  cbn [accumulator prev_time steps_run look_update frame_clock state_curr]
    in *.
  pose proof (clampd_bounds (cur f - prev_time d) 0.0 0.25) as Hc.
  pose proof (step_loop_time _ _ _ _ _ _ _ _ _ Hloop) as Ht.
  pose proof (step_loop_accumulator _ _ _ _ _ _ _ _ _ Hloop) as Ha.
  pose proof PHYS_DT_value as DT.
  assert (Ha' : 0 <= acc < PHYS_DT) by (apply Ha; lra).
  split; [exact Ht |]. split; [exact Ha' |]. split; [reflexivity |].
  intros Hcur Hd.
  assert (C0 : clampd (cur f - prev_time d) 0.0 0.25 == 0).
  { unfold clampd.
    destruct (cur f - prev_time d <? 0.0) eqn:E1; order_facts;
      [reflexivity |].
    destruct (cur f - prev_time d >? 0.25) eqn:E2; order_facts; lra. }
  assert (T : (accumulator d + clampd (cur f - prev_time d) 0.0 0.25
               >=? PHYS_DT) = false).
  { apply Qleb_gt. lra. }
  destruct fuel; simpl in Hloop; rewrite T in Hloop;
    injection Hloop as <- <- <- <-; repeat split; try reflexivity; lra.
Qed.

(** X12.  The look update is exponential smoothing: the distance of each
    smoothed mouse delta from the frame's raw delta shrinks by the factor
    [MOUSE_SMOOTH], with the menu open or closed.  With the menu open the
    current state is untouched; with it closed the yaw turns by the smoothed
    delta times the sensitivity, negated when the X axis is inverted. *)
Theorem mouse_smoothing_contracts (d : Driver) (f : Frame) :
  let d' := look_update d f in
  mouse_dx_smooth d' - inject_Z (mouse_dx (inp f))
  == MOUSE_SMOOTH * (mouse_dx_smooth d - inject_Z (mouse_dx (inp f))) /\
  mouse_dy_smooth d' - inject_Z (mouse_dy (inp f))
  == MOUSE_SMOOTH * (mouse_dy_smooth d - inject_Z (mouse_dy (inp f))) /\
  (menu_open f = true -> state_curr d' = state_curr d) /\
  (menu_open f = false ->
   yaw (state_curr d')
   == yaw (state_curr d)
      + (if invert_mouse_x f then - 1 else 1)
        * mouse_dx_smooth d' * mouse_sensitivity f).
Proof.
  intros d'. subst d'. unfold look_update, lerp, MOUSE_SMOOTH.
  cbn [mouse_dx_smooth mouse_dy_smooth state_curr].
  split; [lra |]. split; [lra |]. split; intros ->; cbn [negb].
  - reflexivity.
  - cbn [yaw set_pitch set_yaw]. destruct (invert_mouse_x f); lra.
Qed.

(** X13.  What a frame renders lies between the two states it interpolates:
    every continuous field of [render_player] is between that of
    [state_prev] and that of [state_curr], and [grounded] is the current
    one. *)
Theorem render_between (libm : Libm) (m : Map) (fuel : nat) (d : Driver)
    (f : Frame) (d' : Driver) (o : FrameOut) :
  0 <= accumulator d ->
  frame libm m fuel d f = Ok (d', o) ->
  let r := render_player o in
  let a := state_prev d' in
  let b := state_curr d' in
  between (px a) (r_px r) (px b) /\ between (py a) (r_py r) (py b) /\
  between (pz a) (r_pz r) (pz b) /\ between (vx a) (r_vx r) (vx b) /\
  between (vy a) (r_vy r) (vy b) /\ between (vz a) (r_vz r) (vz b) /\
  between (yaw a) (r_yaw r) (yaw b) /\
  between (pitch a) (r_pitch r) (pitch b) /\
  r_grounded r = grounded b.
Proof.
  intros Hacc H.
  destruct (frame_alpha libm m fuel d f d' o Hacc H) as ((A0 & A1) & _ & Hd).
  unfold frame in H.
  apply bind_Ok in H as ([[acc [curr lc]] tr] & Hloop & H).
  injection H as <- <-.
  cbn [state_curr state_prev render_player alpha interpolate
       r_px r_py r_pz r_vx r_vy r_vz r_yaw r_pitch r_grounded] in *.
  set (al := acc / PHYS_DT) in *.
  assert (B : forall u v, between u (u + (v - u) * al) v).
  { intros u v. unfold between.
    destruct (Qlt_le_dec u v); [left | right]; split; nra. }
  repeat split; apply B.
Qed.

(** A frame keeps the pitch of the current state, and the rendered pitch,
    within the clamp of the look update. *)
Lemma frame_pitch (libm : Libm) (m : Map) (fuel : nat) (d : Driver)
    (f : Frame) (d' : Driver) (o : FrameOut) :
  0 <= accumulator d -> pitch_ok (pitch (state_curr d)) ->
  frame libm m fuel d f = Ok (d', o) ->
  pitch_ok (pitch (state_curr d')) /\ pitch_ok (r_pitch (render_player o)) /\
  0 <= accumulator d'.
Proof.
  intros Hacc Hp H.
  destruct (frame_alpha libm m fuel d f d' o Hacc H) as ((A0 & A1) & _ & Hd).
  pose proof (look_update_pitch (frame_clock d f) f Hp) as Hl.
  unfold frame in H.
  set (dl := look_update (frame_clock d f) f) in *. clearbody dl.
  apply bind_Ok in H as ([[acc [curr lc]] tr] & Hloop & H).
  injection H as <- <-.
  apply step_loop_orientation in Hloop as (_ & Hpc). cbn [fst] in Hpc.
  cbn [state_curr render_player r_pitch interpolate alpha accumulator] in *.
  rewrite Hpc. split; [exact Hl |]. split; [| lra].
  unfold pitch_ok in *.
  set (a := acc / PHYS_DT) in *. split; nra.
Qed.

(** ** The camera and the drawn geometry *)

Lemma lerp_error (a b t : Q) : lerp a b t - b == (1 - t) * (a - b).
Proof. unfold lerp. ring. Qed.

(** X14.  The camera closes in on the rendered player geometrically and
    never overshoots: after [n] frames of following the same rendered state
    its offset from the target (the eye 0.6 above the foot) is 0.88 to the
    [n] times the initial one for the position, 0.82 to the [n] for yaw and
    pitch.  The field of view is never changed. *)
Theorem camera_follow_contracts (c : Camera.t) (r : Render) (n : nat) :
  let c' := follow_for n c r in
  Camera.x c' - r_px r == 0.88 ^ Z.of_nat n * (Camera.x c - r_px r) /\
  Camera.y c' - (r_py r + 0.6)
    == 0.88 ^ Z.of_nat n * (Camera.y c - (r_py r + 0.6)) /\
  Camera.z c' - r_pz r == 0.88 ^ Z.of_nat n * (Camera.z c - r_pz r) /\
  Camera.yaw c' - r_yaw r == 0.82 ^ Z.of_nat n * (Camera.yaw c - r_yaw r) /\
  Camera.pitch c' - r_pitch r
    == 0.82 ^ Z.of_nat n * (Camera.pitch c - r_pitch r) /\
  Camera.fov c' = Camera.fov c.
Proof.
  induction n as [| n IH].
  - cbn. repeat split; ring.
  - cbn zeta in *. cbn [follow_for].
    set (c1 := follow_for n c r) in *. clearbody c1.
    destruct IH as (Hx & Hy & Hz & Hw & Hp & Hf).
    rewrite Nat2Z.inj_succ. unfold Z.succ.
    rewrite !Qpower_plus by (intros E; discriminate E).
    change (0.88 ^ 1) with 0.88. change (0.82 ^ 1) with 0.82.
    unfold camera_follow.
    cbn [Camera.x Camera.y Camera.z Camera.yaw Camera.pitch Camera.fov].
    rewrite !lerp_error, Hx, Hy, Hz, Hw, Hp.
    set (a := 0.88 ^ Z.of_nat n). set (b := 0.82 ^ Z.of_nat n).
    repeat split; try exact Hf; ring.
Qed.

(** X15.  What is drawn for a cube or a goal cell is the box the physics
    collides with: the eight corners [draw_map] has [draw_wire_cube] compute
    are the corners of the cell's unit cube.  And a cell is drawn exactly
    when its tile is a cube, a wedge or a goal: the tiles the physics
    ignores are invisible. *)
Theorem drawn_cube_is_cell_box (t r x z : Z) :
  (t = TILE_CUBE \/ t = TILE_END ->
   exists cs, draw_cell t r x z = Some cs /\
              Forall2 Vec3_eq cs (box_corners (cell_box x z))) /\
  (draw_cell t r x z = None <->
   t <> TILE_CUBE /\ t <> TILE_WEDGE /\ t <> TILE_END).
Proof.
  split.
  - intros [-> | ->]; eexists; (split; [reflexivity |]);
      unfold wire_cube_corners, box_corners, cell_box, Vec3_eq; cbn;
      repeat constructor; cbn; lra.
  - unfold draw_cell, TILE_EMPTY, TILE_CUBE, TILE_WEDGE, TILE_END.
    destruct (Z.eqb_spec t 0); [split; [lia | reflexivity] |].
    destruct (Z.eqb_spec t 1); [split; [discriminate | lia] |].
    destruct (Z.eqb_spec t 2); [split; [discriminate | lia] |].
    destruct (Z.eqb_spec t 3); [split; [discriminate | lia] |].
    split; [lia | reflexivity].
Qed.

(** X16.  The wedge that is drawn is the wedge the physics stands on, for
    every rotation value: the four bottom corners are the ground corners of
    the cell, each top corner is above its bottom corner at the height
    [wedge_height_at_local] gives there, and over the whole cell that height
    is the bilinear interpolation of the four drawn top heights. *)
Theorem drawn_wedge_is_height_field (r x z : Z) :
  exists b0 b1 b2 b3 t0 t1 t2 t3,
    draw_cell TILE_WEDGE r x z = Some [b0; b1; b2; b3; t0; t1; t2; t3] /\
    Forall2 Vec3_eq [b0; b1; b2; b3] (firstn 4 (box_corners (cell_box x z))) /\
    Forall2 (fun t b =>
               Vec3.x t = Vec3.x b /\ Vec3.z t = Vec3.z b /\
               Vec3.y t == wedge_height_at_local (Vec3.x t - inject_Z x)
                                                 (Vec3.z t - inject_Z z) r)
            [t0; t1; t2; t3] [b0; b1; b2; b3] /\
    forall lx lz, 0 <= lx <= 1 -> 0 <= lz <= 1 ->
      wedge_height_at_local lx lz r
      == bilinear (Vec3.y t0) (Vec3.y t1) (Vec3.y t3) (Vec3.y t2) lx lz.
Proof.
  assert (C0 : forall v, 0 <= v <= 1 -> clampd v 0.0 1.0 == v).
  { intros v H. unfold clampd.
    destruct (v <? 0.0) eqn:E1; [| destruct (v >? 1.0) eqn:E2];
      order_facts; lra. }
  assert (Cl : forall v, v == 0 -> clampd v 0.0 1.0 == 0).
  { intros v H. rewrite C0; lra. }
  assert (Ch : forall v, v == 1 -> clampd v 0.0 1.0 == 1).
  { intros v H. rewrite C0; lra. }
  unfold draw_cell, wedge_corners. cbn [Z.eqb TILE_WEDGE TILE_EMPTY TILE_CUBE].
  assert (X0 : inject_Z x - inject_Z x == 0) by ring.
  assert (X1 : inject_Z x + 1.0 - inject_Z x == 1) by ring.
  assert (Z0 : inject_Z z - inject_Z z == 0) by ring.
  assert (Z1 : inject_Z z + 1.0 - inject_Z z == 1) by ring.
  destruct (Z.eqb_spec r 0); [| destruct (Z.eqb_spec r 1);
                                [| destruct (Z.eqb_spec r 2)]];
    do 8 eexists; (split; [reflexivity |]);
    (split; [unfold box_corners, cell_box, Vec3_eq; cbn;
             repeat constructor; cbn; lra |]);
    (split; [repeat constructor; cbn [Vec3.x Vec3.y Vec3.z];
             unfold wedge_height_at_local;
             repeat match goal with
               | |- context [(?a =? ?b)%Z] => destruct (Z.eqb_spec a b)
               end; try lia;
             rewrite ?(Cl _ X0), ?(Ch _ X1), ?(Cl _ Z0), ?(Ch _ Z1); lra |]);
    intros lx lz Hx Hz; unfold wedge_height_at_local, bilinear;
    repeat match goal with
      | |- context [(?a =? ?b)%Z] => destruct (Z.eqb_spec a b)
      end; try lia;
    rewrite ?(C0 lx Hx), ?(C0 lz Hz); cbn [Vec3.y]; ring.
Qed.

(** X17.  The projection depends only on where the point is relative to the
    camera: moving the point and the camera by the same vector gives the
    same answer, the same pixel or the same refusal. *)
Theorem project_point_relative (libm : Libm) (tan : Q -> Q)
    (p t : Vec3.t) (cam : Camera.t) :
  project_point libm tan (translate t p) (move_camera t cam)
  = project_point libm tan p cam.
Proof.
  unfold project_point, translate, move_camera.
  cbn [Vec3.x Vec3.y Vec3.z Camera.x Camera.y Camera.z Camera.yaw
       Camera.pitch Camera.fov].
  set (cosy := cos libm (- Camera.yaw cam)).
  set (siny := sin libm (- Camera.yaw cam)).
  set (cosp := cos libm (- Camera.pitch cam)).
  set (sinp := sin libm (- Camera.pitch cam)).
  set (scale := 1.0 / tan (Camera.fov cam * 0.5)).
  assert (Rx : Vec3.x p + Vec3.x t - (Camera.x cam + Vec3.x t)
               == Vec3.x p - Camera.x cam) by ring.
  assert (Ry : Vec3.y p + Vec3.y t - (Camera.y cam + Vec3.y t)
               == Vec3.y p - Camera.y cam) by ring.
  assert (Rz : Vec3.z p + Vec3.z t - (Camera.z cam + Vec3.z t)
               == Vec3.z p - Camera.z cam) by ring.
  set (rx' := Vec3.x p + Vec3.x t - (Camera.x cam + Vec3.x t)) in *.
  set (ry' := Vec3.y p + Vec3.y t - (Camera.y cam + Vec3.y t)) in *.
  set (rz' := Vec3.z p + Vec3.z t - (Camera.z cam + Vec3.z t)) in *.
  set (rx := Vec3.x p - Camera.x cam) in *.
  set (ry := Vec3.y p - Camera.y cam) in *.
  set (rz := Vec3.z p - Camera.z cam) in *.
  clearbody rx' ry' rz' rx ry rz cosy siny cosp sinp scale.
  assert (Z2 : ry' * sinp + (rx' * siny + rz' * cosy) * cosp
               == ry * sinp + (rx * siny + rz * cosy) * cosp)
    by (rewrite Rx, Ry, Rz; reflexivity).
  rewrite (Qleb_comp _ _ 0.001 0.001 Z2 (Qeq_refl _)).
  destruct (ry * sinp + (rx * siny + rz * cosy) * cosp <=? 0.001);
    [reflexivity |].
  destruct (Qeq_bool (tan (Camera.fov cam * 0.5)) 0); [reflexivity |].
  rewrite (int_of_double_comp
             (((rx' * cosy - rz' * siny)
               / (ry' * sinp + (rx' * siny + rz' * cosy) * cosp)
               * scale * (inject_Z WIN_W / inject_Z WIN_H) * 0.5 + 0.5)
              * inject_Z WIN_W)
             (((rx * cosy - rz * siny)
               / (ry * sinp + (rx * siny + rz * cosy) * cosp)
               * scale * (inject_Z WIN_W / inject_Z WIN_H) * 0.5 + 0.5)
              * inject_Z WIN_W))
    by (rewrite Rx, Ry, Rz; reflexivity).
  rewrite (int_of_double_comp
             ((- ((ry' * cosp - (rx' * siny + rz' * cosy) * sinp)
                  / (ry' * sinp + (rx' * siny + rz' * cosy) * cosp)
                  * scale) * 0.5 + 0.5) * inject_Z WIN_H)
             ((- ((ry * cosp - (rx * siny + rz * cosy) * sinp)
                  / (ry * sinp + (rx * siny + rz * cosy) * cosp)
                  * scale) * 0.5 + 0.5) * inject_Z WIN_H))
    by (rewrite Rx, Ry, Rz; reflexivity).
  reflexivity.
Qed.


(** ** The demo map *)

Lemma In_count_up (n x : Z) : (0 <= x < n)%Z -> In x (count_up n).
Proof.
  intros H. unfold count_up. apply in_map_iff. exists (Z.to_nat x).
  split; [lia |]. apply in_seq. lia.
Qed.

(** X19.  [generate_demo_map] writes within its arrays and leaves a
    well-formed 32x32 map: a closed border of cubes, a bar of cubes at
    z = 12 for x from 10 to 17, four wedges at (6,6), (8,6), (6,8), (8,8)
    with the rotations 0, 1, 2, 3, the goal at (16,16) alone, and nothing
    else.  No cube or wedge is among the cells around the spawn cell
    (3,3). *)
Theorem demo_map_layout :
  exists m,
    generate_demo_map = Ok m /\ map_ok m /\
    map_w m = 32%Z /\ map_h m = 32%Z /\
    (forall x z, in_map m x z = true ->
       exists t r,
         tile_at m x z = Ok t /\ rot_at m x z = Ok r /\
         (0 <= t <= 3)%Z /\
         (t = TILE_END <-> x = 16 /\ z = 16)%Z /\
         (t = TILE_WEDGE <-> (x = 6 \/ x = 8) /\ (z = 6 \/ z = 8))%Z /\
         (t = TILE_CUBE <->
          x = 0 \/ z = 0 \/ x = 31 \/ z = 31 \/ (z = 12 /\ 10 <= x < 18))%Z /\
         (t = TILE_WEDGE ->
          r = (if z =? 6 then 0 else 2) + (if x =? 6 then 0 else 1))%Z) /\
    no_solid_near m 3 3.
Proof.
  pose (cell_ok := fun (x z t r : Z) =>
          ((0 <=? t) && (t <=? 3)
           && Bool.eqb (t =? TILE_END) ((x =? 16) && (z =? 16))
           && Bool.eqb (t =? TILE_WEDGE)
                       (((x =? 6) || (x =? 8)) && ((z =? 6) || (z =? 8)))
           && Bool.eqb (t =? TILE_CUBE)
                       ((x =? 0) || (z =? 0) || (x =? 31) || (z =? 31)
                        || ((z =? 12) && (10 <=? x) && (x <? 18)))
           && (if t =? TILE_WEDGE
               then r =? (if z =? 6 then 0 else 2) + (if x =? 6 then 0 else 1)
               else true))%Z).
  pose (check := fun m : Map =>
          ((map_w m =? 32)%Z && (map_h m =? 32)%Z
           && (length (map_cells m) =? 1024)%nat
           && (length (map_rots m) =? 1024)%nat
           && forallb (fun z =>
                forallb (fun x =>
                  match tile_at m x z, rot_at m x z with
                  | Ok t, Ok r => cell_ok x z t r
                  | _, _ => false
                  end) (count_up 32)) (count_up 32))%bool).
  assert (C : match generate_demo_map with
              | Ok m => check m
              | _ => false
              end = true) by (vm_compute; reflexivity).
  destruct generate_demo_map as [m | |]; try discriminate C.
  unfold check in C. clear check.
  apply andb_true_iff in C as (C & Hall).
  apply andb_true_iff in C as (C & Lr). apply andb_true_iff in C as (C & Lc).
  apply andb_true_iff in C as (Hw & Hh).
  apply Z.eqb_eq in Hw, Hh. apply Nat.eqb_eq in Lc, Lr.
  assert (Cells : forall x z, (0 <= x < 32)%Z -> (0 <= z < 32)%Z ->
            exists t r,
              tile_at m x z = Ok t /\ rot_at m x z = Ok r /\
              (0 <= t <= 3)%Z /\
              (t = TILE_END <-> x = 16 /\ z = 16)%Z /\
              (t = TILE_WEDGE <-> (x = 6 \/ x = 8) /\ (z = 6 \/ z = 8))%Z /\
              (t = TILE_CUBE <->
               x = 0 \/ z = 0 \/ x = 31 \/ z = 31 \/
               (z = 12 /\ 10 <= x < 18))%Z /\
              (t = TILE_WEDGE ->
               r = (if z =? 6 then 0 else 2) + (if x =? 6 then 0 else 1))%Z).
  { intros x z Hx Hz. rewrite forallb_forall in Hall.
    specialize (Hall z (In_count_up 32 z Hz)).
    rewrite forallb_forall in Hall.
    specialize (Hall x (In_count_up 32 x Hx)).
    destruct (tile_at m x z) as [t | |]; try discriminate Hall.
    destruct (rot_at m x z) as [r | |]; try discriminate Hall.
    exists t, r. split; [reflexivity |]. split; [reflexivity |].
    unfold cell_ok in Hall.
    apply andb_true_iff in Hall as (Hall & Hrot).
    apply andb_true_iff in Hall as (Hall & Hcube).
    apply andb_true_iff in Hall as (Hall & Hwedge).
    apply andb_true_iff in Hall as (Hall & Hend).
    apply andb_true_iff in Hall as (T0 & T3).
    apply Z.leb_le in T0, T3. apply eqb_prop in Hend, Hwedge, Hcube.
    split; [lia |]. split; [| split; [| split]].
    - rewrite <- Z.eqb_eq, Hend, andb_true_iff, !Z.eqb_eq. reflexivity.
    - rewrite <- Z.eqb_eq, Hwedge, andb_true_iff, !orb_true_iff, !Z.eqb_eq.
      reflexivity.
    - rewrite <- Z.eqb_eq, Hcube, !orb_true_iff, !andb_true_iff, !Z.eqb_eq,
        Z.leb_le, Z.ltb_lt. tauto.
    - intros E. apply Z.eqb_eq in E. rewrite E in Hrot.
      apply Z.eqb_eq in Hrot. exact Hrot. }
  clear Hall cell_ok.
  exists m. split; [reflexivity |]. split; [| split; [exact Hw |
                                             split; [exact Hh | split]]].
  - unfold map_ok, INT_MAX. rewrite Hw, Hh, Lc, Lr. repeat split; lia.
  - intros x z Hin. apply in_map_bounds in Hin. rewrite Hw, Hh in Hin.
    apply Cells; lia.
  - intros oz ox Hoz Hox _.
    assert (R : (-1 <= oz <= 1 /\ -1 <= ox <= 1)%Z)
      by (simpl in Hoz, Hox; lia).
    destruct (Cells (3 + ox)%Z (3 + oz)%Z)
      as (t & r & Ht & _ & _ & _ & Hwedge & Hcube & _); try lia.
    exists t. split; [exact Ht |]. rewrite Hwedge, Hcube. lia.
Qed.

(** ** The loader's temporary arrays *)

Lemma count_up_pos (n : Z) :
  (0 < n)%Z -> exists rest, count_up n = 0%Z :: rest.
Proof.
  intros H. unfold count_up.
  destruct (Z.to_nat n) as [| k] eqn:E; [lia |].
  cbn. eauto.
Qed.

Lemma write_not_fuel (a : list Z) (i v : Z) : write a i v <> OutOfFuel.
Proof.
  unfold write. destruct ((i <? 0)%Z || (Z.of_nat (length a) <=? i)%Z);
    discriminate.
Qed.

Lemma write_empty (i v : Z) : write [] i v = Undefined.
Proof.
  unfold write. cbn [length Z.of_nat].
  destruct (Z.ltb_spec i 0); [reflexivity |].
  destruct (Z.leb_spec 0 i); [reflexivity | lia].
Qed.

(** X29.  The loader asks [calloc] for [tmp_rots] with an element size of
    0, so the block has no byte.  Every store of a scanned cell within the
    128x128 window then writes outside it, and the copy into the map reads
    outside it at its first cell: the copy completes only for a map without
    rows, which it does for a text with no row and no height. *)
Theorem loader_rots_block_is_empty :
  tmp_rots_block = [] /\
  (forall tmp_types row col type rot val,
     (0 <= row < tmph)%Z -> (0 <= col < tmpw)%Z ->
     store_pair (tmp_types, tmp_rots_block) row col type rot = Undefined /\
     store_value (tmp_types, tmp_rots_block) row col val = Undefined) /\
  (forall w h row tmp_types m,
     install_map w h row (tmp_types, tmp_rots_block) = Ok m ->
     (map_h m <= 0)%Z) /\
  (forall w tmp_types,
     (w <= INT_MAX)%Z ->
     install_map w 0 0 (tmp_types, tmp_rots_block)
     = Ok (mkMap (if (w <=? 0)%Z then tmpw else w) 0 [] [])).
Proof.
  assert (E : tmp_rots_block = []) by reflexivity.
  split; [exact E |]. rewrite E. split; [| split].
  - intros tmp_types row col type rot val Hr Hc.
    unfold store_pair, store_value, tmph, tmpw in *. cbv beta iota.
    destruct (Z.ltb_spec row 128); [| lia].
    destruct (Z.ltb_spec col 128); [| lia]. cbn [andb].
    unfold int_mul, int_add.
    rewrite !int_of_Ok by (unfold INT_MIN, INT_MAX; lia). cbn [bind].
    rewrite !int_of_Ok by (unfold INT_MIN, INT_MAX; lia). cbn [bind].
    split.
    + destruct (write tmp_types (row * 128 + col) (uint8 type)) eqn:W;
        cbn [bind].
      * rewrite write_empty. reflexivity.
      * reflexivity.
      * elim (write_not_fuel _ _ _ W).
    + destruct (write tmp_types (row * 128 + col) (uint8 val)) eqn:W;
        cbn [bind].
      * rewrite write_empty. reflexivity.
      * reflexivity.
      * elim (write_not_fuel _ _ _ W).
  - intros w h row tmp_types m H. unfold install_map in H.
    set (w' := if (w <=? 0)%Z then tmpw else w) in *.
    set (h' := if (h <=? 0)%Z then row else h) in *.
    apply bind_Ok in H as (n & Hn & H).
    apply bind_Ok in H as ([cells rots] & Hloop & H).
    injection H as <-. cbn [map_h].
    destruct (Z.leb_spec h' 0) as [L | L]; [exact L | exfalso].
    assert (W : (0 < w')%Z).
    { subst w'. unfold tmpw. destruct (Z.leb_spec w 0); lia. }
    destruct (count_up_pos h' L) as (hs & Eh).
    destruct (count_up_pos w' W) as (ws & Ew).
    rewrite Eh in Hloop. cbn [for_each] in Hloop.
    apply bind_Ok in Hloop as (s1 & Hrow & _).
    rewrite Ew in Hrow. cbn [for_each] in Hrow.
    apply bind_Ok in Hrow as (s2 & Hcell & _).
    apply bind_Ok in Hcell as ([v r] & Hread & _).
    cbn in Hread. destruct tmp_types; discriminate Hread.
  - intros w tmp_types Hw. unfold install_map. cbn [Z.leb Z.compare].
    set (w' := if (w <=? 0)%Z then tmpw else w).
    assert (W : (0 < w' <= INT_MAX)%Z).
    { subst w'. unfold tmpw, INT_MAX in *. destruct (Z.leb_spec w 0); lia. }
    unfold int_mul. rewrite Z.mul_0_r.
    rewrite int_of_Ok by (unfold INT_MIN, INT_MAX; lia). reflexivity.
Qed.

(** ** The menu and the events *)

(** Case analysis on the integer tests of the event handling. *)
Ltac eqb_cases :=
  repeat (match goal with
  | |- context [(?a =? ?b)%Z] => is_var a; destruct (Z.eqb_spec a b)
  | |- context [(?a >? ?b)%Z] => is_var a; destruct (Z.gtb_spec a b)
  | |- context [(?a + ?c <? ?b)%Z] =>
      is_var a; destruct (Z.ltb_spec (a + c) b)
  end; cbn).

Lemma rem5_range (a : Z) : (0 <= a)%Z -> (0 <= Z.rem a 5 < 5)%Z.
Proof. intros H. apply Z.rem_bound_pos; lia. Qed.

(** Mouse motion writes [in] only, and nothing while the menu is open. *)
Lemma mouse_motion_keeps (l l' : Loop) (xrel yrel : Z) :
  mouse_motion l xrel yrel = Ok l' ->
  exists i, l' = with_fr (set_inp i (fr l)) l /\
            (menu_open (fr l) = true -> i = inp (fr l)).
Proof.
  unfold mouse_motion. destruct (menu_open (fr l)) eqn:E; cbn [negb].
  - intros H. injection H as <-. exists (inp (fr l)). split; [| auto].
    destruct l as [u [c i o s iy ix] d m cm]. reflexivity.
  - intros H. apply bind_Ok in H as (dx & _ & H).
    apply bind_Ok in H as (dy & _ & H). injection H as <-.
    eexists. split; [reflexivity | discriminate].
Qed.

Section Menu.

Variable load_map_json_like : list Z -> Map -> Z * Map.

Lemma handle_event_menu_ok (l l' : Loop) (ev : Event) :
  menu_ok l -> handle_event load_map_json_like l ev = Ok l' -> menu_ok l'.
Proof.
  destruct l as [[run sel sub path len err rel txt] [c i open s iy ix] d m cm].
  unfold menu_ok. simpl. intros (Hsel & Hsub & Hopen & Hrel) H.
  destruct ev as [| sym | text | xrel yrel |]; cbn in H.
  - injection H as <-. simpl. auto.
  - injection H as <-.
    pose proof (rem5_range (sel + 4)) as R4.
    pose proof (rem5_range (sel + 1)) as R1.
    destruct sym, open; cbn;
      unfold load_key, load_return, menu_return, settings_key; cbn;
      eqb_cases;
      try destruct (load_map_json_like _ _) as [res loaded]; cbn;
      eqb_cases; subst;
      repeat split; try lia; try congruence;
      try (intros; exfalso; apply Hopen; try lia; discriminate);
      try (intros; apply Hopen; lia).
  - unfold text_typed in H. cbn in H.
    destruct (sub =? 1)%Z; cbn in H;
      [destruct (len + Z.of_nat (length text) <? 511)%Z |];
      injection H as <-; cbn; auto.
  - apply bind_Ok in H as (l1 & H1 & H). injection H as <-.
    apply mouse_motion_keeps in H1 as (j & -> & _). cbn. auto.
  - injection H as <-. simpl. auto.
Qed.

Lemma handle_event_path_ok (l l' : Loop) (ev : Event) :
  path_ok l -> handle_event load_map_json_like l ev = Ok l' -> path_ok l'.
Proof.
  destruct l as [[run sel sub path len err rel txt] [c i open s iy ix] d m cm].
  unfold path_ok. simpl. intros (Hlen & Hmax) H.
  destruct ev as [| sym | text | xrel yrel |]; cbn in H.
  - injection H as <-. simpl. auto.
  - injection H as <-.
    destruct sym, open; cbn;
      unfold load_key, load_return, menu_return, settings_key; cbn;
      eqb_cases;
      try destruct (load_map_json_like _ _) as [res loaded]; cbn;
      eqb_cases; subst; cbn;
      rewrite ?length_firstn; split; lia.
  - unfold text_typed in H. cbn in H.
    destruct (sub =? 1)%Z; cbn in H;
      [destruct (Z.ltb_spec (len + Z.of_nat (length text)) 511) |];
      injection H as <-; cbn; rewrite ?length_app; split; lia.
  - apply bind_Ok in H as (l1 & H1 & H). injection H as <-.
    apply mouse_motion_keeps in H1 as (j & -> & _). cbn. auto.
  - injection H as <-. simpl. auto.
Qed.

Lemma handle_event_sensitivity_ok (l l' : Loop) (ev : Event) :
  sensitivity_ok l -> handle_event load_map_json_like l ev = Ok l' ->
  sensitivity_ok l'.
Proof.
  destruct l as [[run sel sub path len err rel txt] [c i open s iy ix] d m cm].
  unfold sensitivity_ok. simpl. intros Hs H.
  assert (B : forall v, 0.0005 <= clampd v 0.0005 0.01 <= 0.01)
    by (intros v; apply clampd_bounds; lra).
  destruct ev as [| sym | text | xrel yrel |]; cbn in H.
  - injection H as <-. simpl. auto.
  - injection H as <-.
    destruct sym, open; cbn;
      unfold load_key, load_return, menu_return, settings_key; cbn;
      eqb_cases;
      try destruct (load_map_json_like _ _) as [res loaded]; cbn;
      eqb_cases; subst; cbn; solve [exact Hs | apply B].
  - unfold text_typed in H. cbn in H.
    destruct (sub =? 1)%Z; cbn in H;
      [destruct (Z.ltb_spec (len + Z.of_nat (length text)) 511) |];
      injection H as <-; cbn; exact Hs.
  - apply bind_Ok in H as (l1 & H1 & H). injection H as <-.
    apply mouse_motion_keeps in H1 as (j & -> & _). cbn. auto.
  - injection H as <-. simpl. auto.
Qed.

Lemma handle_event_running (l l' : Loop) (ev : Event) :
  handle_event load_map_json_like l ev = Ok l' ->
  (running (ui l) = false -> running (ui l') = false) /\
  (ev = SDL_QUIT -> running (ui l') = false).
Proof.
  destruct l as [[run sel sub path len err rel txt] [c i open s iy ix] d m cm].
  simpl. intros H.
  destruct ev as [| sym | text | xrel yrel |]; cbn in H.
  - injection H as <-. simpl. auto.
  - injection H as <-. split; [| discriminate].
    destruct sym, open; cbn;
      unfold load_key, load_return, menu_return, settings_key; cbn;
      eqb_cases;
      try destruct (load_map_json_like _ _) as [res loaded]; cbn;
      eqb_cases; subst; cbn; auto.
  - unfold text_typed in H. cbn in H. split; [| discriminate].
    destruct (sub =? 1)%Z; cbn in H;
      [destruct (Z.ltb_spec (len + Z.of_nat (length text)) 511) |];
      injection H as <-; cbn; auto.
  - apply bind_Ok in H as (l1 & H1 & H). injection H as <-.
    apply mouse_motion_keeps in H1 as (j & -> & _). cbn.
    split; [auto | discriminate].
  - injection H as <-. simpl. split; [auto | discriminate].
Qed.

(** The events reach the simulation only through a successful load, which
    keeps the orientation, the accumulator and the level-complete flag. *)
Lemma handle_event_simulation (l l' : Loop) (ev : Event) :
  handle_event load_map_json_like l ev = Ok l' ->
  pitch (state_curr (drv l')) = pitch (state_curr (drv l)) /\
  yaw (state_curr (drv l')) = yaw (state_curr (drv l)) /\
  accumulator (drv l') = accumulator (drv l) /\
  level_complete (drv l') = level_complete (drv l).
Proof.
  destruct l as [[run sel sub path len err rel txt] [c i open s iy ix] d m cm].
  simpl. intros H.
  destruct ev as [| sym | text | xrel yrel |]; cbn in H.
  - injection H as <-. simpl. auto.
  - injection H as <-.
    destruct sym, open; cbn;
      unfold load_key, load_return, menu_return, settings_key; cbn;
      eqb_cases;
      try destruct (load_map_json_like _ _) as [res loaded]; cbn;
      eqb_cases; subst; cbn; auto.
  - unfold text_typed in H. cbn in H.
    destruct (sub =? 1)%Z; cbn in H;
      [destruct (Z.ltb_spec (len + Z.of_nat (length text)) 511) |];
      injection H as <-; cbn; auto.
  - apply bind_Ok in H as (l1 & H1 & H). injection H as <-.
    apply mouse_motion_keeps in H1 as (j & -> & _). cbn. auto.
  - injection H as <-. simpl. auto.
Qed.

(** X20.  The menu stays in one of its states through any events: the
    selected entry is one of the five, the page is none or one of the
    three, a page is shown only while the menu is open, and relative mouse
    mode is on exactly while the menu is closed.  [main] starts in such a
    state. *)
Theorem menu_state_invariant (m : Map) (t0 : Q) (l l' : Loop)
    (evs : list Event) :
  menu_ok (init_loop m t0) /\
  (menu_ok l -> poll_events load_map_json_like l evs = Ok l' -> menu_ok l').
Proof.
  split.
  - unfold menu_ok. cbn. repeat split; lia.
  - intros Hl H. revert H. apply for_each_invariant; [| exact Hl].
    intros s v s' _. apply handle_event_menu_ok.
Qed.

Lemma text_input_fits (l : Loop) (text : list Z) :
  menu_sub (ui l) = 1%Z ->
  (load_path_len (ui l) + Z.of_nat (length text) <= 510)%Z ->
  exists l1,
    handle_event load_map_json_like l (SDL_TEXTINPUT text) = Ok l1 /\
    load_path (ui l1) = load_path (ui l) ++ text /\
    load_path_len (ui l1)
    = (load_path_len (ui l) + Z.of_nat (length text))%Z.
Proof.
  destruct l as [[run sel sub path len err rel txt] [c i open s iy ix] d m cm].
  cbn. intros -> H. unfold text_typed. cbn.
  destruct (Z.ltb_spec (len + Z.of_nat (length text)) 511); [| lia].
  eexists. split; [reflexivity |]. cbn. auto.
Qed.

Lemma text_input_dropped (l : Loop) (text : list Z) :
  menu_sub (ui l) = 1%Z ->
  (510 < load_path_len (ui l) + Z.of_nat (length text))%Z ->
  handle_event load_map_json_like l (SDL_TEXTINPUT text) = Ok l.
Proof.
  destruct l as [[run sel sub path len err rel txt] [c i open s iy ix] d m cm].
  cbn. intros -> H. unfold text_typed. cbn.
  destruct (Z.ltb_spec (len + Z.of_nat (length text)) 511); [lia |].
  reflexivity.
Qed.

Lemma backspace_empty (l : Loop) :
  menu_sub (ui l) = 1%Z -> load_path_len (ui l) = 0%Z ->
  handle_event load_map_json_like l (SDL_KEYDOWN SDLK_BACKSPACE) = Ok l.
Proof.
  destruct l as [[run sel sub path len err rel txt] [c i open s iy ix] d m cm].
  cbn. intros -> ->. destruct open; reflexivity.
Qed.

Lemma backspace_last (l : Loop) :
  menu_sub (ui l) = 1%Z -> path_ok l -> (0 < load_path_len (ui l))%Z ->
  exists l1,
    handle_event load_map_json_like l (SDL_KEYDOWN SDLK_BACKSPACE) = Ok l1 /\
    load_path (ui l1) = removelast (load_path (ui l)) /\
    load_path_len (ui l1) = (load_path_len (ui l) - 1)%Z.
Proof.
  destruct l as [[run sel sub path len err rel txt] [c i open s iy ix] d m cm].
  unfold path_ok. cbn. intros -> (Hl & _) H.
  assert (G : (len >? 0)%Z = true) by (apply Z.gtb_lt; lia).
  eexists. split.
  - destruct open; cbn; unfold load_key; cbn; rewrite G; reflexivity.
  - cbn. split; [| reflexivity].
    rewrite removelast_firstn_len. f_equal. lia.
Qed.

(** X21.  The typed path never overflows its buffer: through any events
    [load_path_len] is the length of the string in [load_path] and at most
    510, so the string and its NUL fit the 512 bytes.  On the load page,
    typed text that leaves the length at 510 or less is appended whole,
    text that would not is dropped whole and leaves the state as it was;
    Backspace on the empty path does nothing, and on another path removes
    its last byte. *)
Theorem load_path_fits_buffer (m : Map) (t0 : Q) (l l' : Loop)
    (evs : list Event) (text : list Z) :
  path_ok (init_loop m t0) /\
  (path_ok l -> poll_events load_map_json_like l evs = Ok l' -> path_ok l') /\
  (menu_sub (ui l) = 1%Z ->
   ((load_path_len (ui l) + Z.of_nat (length text) <= 510)%Z ->
    exists l1,
      handle_event load_map_json_like l (SDL_TEXTINPUT text) = Ok l1 /\
      load_path (ui l1) = load_path (ui l) ++ text /\
      load_path_len (ui l1)
      = (load_path_len (ui l) + Z.of_nat (length text))%Z) /\
   ((510 < load_path_len (ui l) + Z.of_nat (length text))%Z ->
    handle_event load_map_json_like l (SDL_TEXTINPUT text) = Ok l) /\
   (load_path_len (ui l) = 0%Z ->
    handle_event load_map_json_like l (SDL_KEYDOWN SDLK_BACKSPACE) = Ok l) /\
   (path_ok l -> (0 < load_path_len (ui l))%Z ->
    exists l1,
      handle_event load_map_json_like l (SDL_KEYDOWN SDLK_BACKSPACE)
      = Ok l1 /\
      load_path (ui l1) = removelast (load_path (ui l)) /\
      load_path_len (ui l1) = (load_path_len (ui l) - 1)%Z)).
Proof.
  split; [| split].
  - unfold path_ok. cbn. lia.
  - intros Hl H. revert H. apply for_each_invariant; [| exact Hl].
    intros s v s' _. apply handle_event_path_ok.
  - intros Hs. split; [| split; [| split]].
    + apply text_input_fits. exact Hs.
    + apply text_input_dropped. exact Hs.
    + apply backspace_empty. exact Hs.
    + apply backspace_last. exact Hs.
Qed.

(** X22.  The mouse sensitivity stays within [0.0005, 0.01] through any
    events, starting from the 0.0028 of [main]. *)
Theorem sensitivity_stays_in_range (m : Map) (t0 : Q) (l l' : Loop)
    (evs : list Event) :
  sensitivity_ok (init_loop m t0) /\
  (sensitivity_ok l -> poll_events load_map_json_like l evs = Ok l' ->
   sensitivity_ok l').
Proof.
  split.
  - unfold sensitivity_ok. cbn. lra.
  - intros Hl H. revert H. apply for_each_invariant; [| exact Hl].
    intros s v s' _. apply handle_event_sensitivity_ok.
Qed.

Lemma handle_event_up_down (l : Loop) (sym : Key) :
  sym = SDLK_UP \/ sym = SDLK_DOWN ->
  handle_event load_map_json_like l (SDL_KEYDOWN sym)
  = Ok (if menu_open (fr l)
        then with_ui (set_menu_selected
                        (Z.rem (menu_selected (ui l)
                                + (if Key_eqb sym SDLK_UP then 4 else 1)) 5)
                        (ui l)) l
        else l).
Proof.
  destruct l as [[run sel sub path len err rel txt] [c i open s iy ix] d m cm].
  intros [-> | ->]; destruct open; cbn; destruct (sub =? 1)%Z; reflexivity.
Qed.

(** X23.  Up and Down undo each other and Down five times comes back to
    the same entry: pressed in either order they leave the whole state as
    it was, on any page and with the menu open or closed.  With the menu
    open Down selects the next entry, and the first after the last. *)
Theorem menu_up_down_round_trip (l : Loop) :
  (0 <= menu_selected (ui l) < 5)%Z ->
  poll_events load_map_json_like l [SDL_KEYDOWN SDLK_UP; SDL_KEYDOWN SDLK_DOWN]
    = Ok l /\
  poll_events load_map_json_like l [SDL_KEYDOWN SDLK_DOWN; SDL_KEYDOWN SDLK_UP]
    = Ok l /\
  poll_events load_map_json_like l (repeat (SDL_KEYDOWN SDLK_DOWN) 5) = Ok l /\
  (menu_open (fr l) = true ->
   exists l1,
     handle_event load_map_json_like l (SDL_KEYDOWN SDLK_DOWN) = Ok l1 /\
     menu_selected (ui l1)
       = (if (menu_selected (ui l) =? 4)%Z then 0
          else menu_selected (ui l) + 1)%Z).
Proof.
  intros Hsel. unfold poll_events. cbn [repeat for_each].
  rewrite !handle_event_up_down by auto. cbn [bind].
  repeat (rewrite !handle_event_up_down by auto; cbn [bind]).
  destruct l as [[run sel sub path len err rel txt] [c i open s iy ix] d m cm].
  cbn in Hsel.
  assert (E : (sel = 0 \/ sel = 1 \/ sel = 2 \/ sel = 3 \/ sel = 4)%Z) by lia.
  destruct open; cbn.
  - destruct E as [E | [E | [E | [E | E]]]]; subst sel; cbn;
      repeat split; eauto.
  - repeat split. discriminate.
Qed.

Lemma handle_event_menu_open (l : Loop) (ev : Event) :
  menu_open (fr l) = true -> keeps_menu ev ->
  exists l', handle_event load_map_json_like l ev = Ok l' /\
             menu_open (fr l') = true /\ inp (fr l') = inp (fr l) /\
             cur (fr l') = cur (fr l) /\
             drv l' = drv l /\ world l' = world l /\ cam l' = cam l.
Proof.
  destruct l as [[run sel sub path len err rel txt] [c i open s iy ix] d m cm].
  simpl. intros -> (HE & HR).
  destruct ev as [| sym | text | xrel yrel |]; cbn.
  - eexists. split; [reflexivity |]. cbn. auto 10.
  - eexists. split; [reflexivity |].
    destruct sym; try (now elim HE); try (now elim HR); cbn;
      unfold load_key, settings_key; cbn; eqb_cases; cbn; auto 10.
  - eexists. split; [reflexivity |]. unfold text_typed. cbn.
    destruct (sub =? 1)%Z; cbn;
      [destruct (len + Z.of_nat (length text) <? 511)%Z |]; cbn; auto 10.
  - eexists. split; [reflexivity |]. cbn. auto 10.
  - eexists. split; [reflexivity |]. cbn. auto 10.
Qed.

(** X24.  While the menu is open the game takes no input: through any
    events other than Escape and Return the event loop is defined, the menu
    stays open, the simulation state and the map are untouched, and
    whatever keys are held and however the mouse moved the [Input] handed
    to the physics is all zero; the look update then leaves the current
    state as it is. *)
Theorem menu_blocks_input (l : Loop) (t : Q) (evs : list Event)
    (kb : Keyboard) :
  menu_open (fr l) = true -> Forall keeps_menu evs ->
  exists l',
    poll_events load_map_json_like (begin_frame l t) evs = Ok l' /\
    menu_open (fr l') = true /\
    drv l' = drv l /\ world l' = world l /\
    inp (fr (continuous_keys l' kb)) = mkInput 0 0 false false 0 0 /\
    forall d,
      state_curr (look_update d (fr (continuous_keys l' kb))) = state_curr d.
Proof.
  intros Hopen Hevs.
  assert (H : exists l',
             poll_events load_map_json_like (begin_frame l t) evs = Ok l' /\
             (menu_open (fr l') = true /\
              inp (fr l') = mkInput 0 0 false false 0 0 /\
              drv l' = drv l /\ world l' = world l)).
  { apply for_each_defined_invariant.
    - intros s ev Hev (Ho & Hi & Hd & Hw).
      rewrite Forall_forall in Hevs.
      destruct (handle_event_menu_open s ev Ho (Hevs ev Hev))
        as (s' & E & Ho' & Hi' & _ & Hd' & Hw' & _).
      exists s'. split; [exact E |]. repeat split; congruence.
    - destruct l as [u [c i open s iy ix] d m cm]. cbn in *. auto. }
  destruct H as (l' & E & Ho & Hi & Hd & Hw).
  exists l'. repeat split; auto.
  - unfold continuous_keys. destruct l' as [u [c i open s iy ix] d m cm].
    cbn in *. subst. reflexivity.
  - intros d0. apply look_update_menu.
    unfold continuous_keys. destruct l' as [u [c i open s iy ix] d m cm].
    cbn in *. subst. reflexivity.
Qed.

(** X25.  Choosing "Load World" with Return opens the load page with the
    error "Enter a path first" already shown: the same key press that opens
    the page with an empty path is then handled as Return on that page.
    The simulation and the map are untouched. *)
Theorem load_dialog_opens_with_error (l : Loop) :
  menu_open (fr l) = true -> menu_sub (ui l) <> 1%Z ->
  menu_selected (ui l) = 1%Z ->
  exists l',
    handle_event load_map_json_like l (SDL_KEYDOWN SDLK_RETURN) = Ok l' /\
    menu_open (fr l') = true /\ menu_sub (ui l') = 1%Z /\
    load_path (ui l') = [] /\ load_path_len (ui l') = 0%Z /\
    load_err (ui l') = enter_a_path_first /\
    drv l' = drv l /\ world l' = world l.
Proof.
  destruct l as [[run sel sub path len err rel txt] [c i open s iy ix] d m cm].
  simpl. intros -> Hsub ->.
  eexists. split; [reflexivity |]. cbn. unfold menu_return. cbn.
  destruct (Z.eqb_spec sub 1); [contradiction |]. cbn. auto 10.
Qed.

(** X26.  Return on the load page with a path typed.  When the loader
    answers 0 the loaded map replaces the old one, the menu closes, the
    mouse is captured and the player is put at the spawn point, at rest and
    in the air, keeping its yaw and pitch; the level-complete flag is not
    cleared.  When it answers anything else the simulation, the settings
    and the cells and rotations of the old map are kept, the page stays
    with the path as typed, and the message carries the code. *)
Theorem load_outcome (l : Loop) (res : Z) (loaded : Map) :
  menu_sub (ui l) = 1%Z -> (0 < load_path_len (ui l))%Z ->
  load_map_json_like (load_path (ui l)) (world l) = (res, loaded) ->
  exists l',
    handle_event load_map_json_like l (SDL_KEYDOWN SDLK_RETURN) = Ok l' /\
    (res = 0%Z ->
     world l' = loaded /\
     menu_open (fr l') = false /\ menu_sub (ui l') = 0%Z /\
     relative_mouse_mode (ui l') = true /\
     load_err (ui l') = no_message /\
     state_curr (drv l')
     = mkPlayer 3.5 2.0 3.5 0.0 0.0 0.0 (yaw (state_curr (drv l)))
                (pitch (state_curr (drv l))) false 0.0 /\
     level_complete (drv l') = level_complete (drv l)) /\
    (res <> 0%Z ->
     drv l' = drv l /\ fr l' = fr l /\
     map_cells (world l') = map_cells (world l) /\
     map_rots (world l') = map_rots (world l) /\
     menu_sub (ui l') = 1%Z /\ load_path (ui l') = load_path (ui l) /\
     load_err (ui l') = failed_to_load res).
Proof.
  destruct l as [[run sel sub path len err rel txt] [c i open s iy ix] d m cm].
  simpl. intros -> Hlen Hload.
  eexists. split; [reflexivity |].
  destruct open; cbn; unfold load_key, load_return; cbn;
    rewrite Hload; destruct (Z.gtb_spec len 0); try lia;
    destruct (Z.eqb_spec res 0); cbn; split; intros; try contradiction;
    auto 10.
Qed.

(** X27.  Quitting is final within the events of a frame: once [running] is
    cleared no later event sets it again, and a quit event anywhere among
    the events leaves it cleared, whatever else is pending. *)
Theorem quit_is_final (l l' : Loop) (evs : list Event) :
  poll_events load_map_json_like l evs = Ok l' ->
  running (ui l) = false \/ In SDL_QUIT evs ->
  running (ui l') = false.
Proof.
  intros H HQ.
  apply (for_each_reaches_if (fun l => running (ui l) = false)
           (fun ev => ev = SDL_QUIT) (handle_event load_map_json_like)
           evs) with (s := l); [| exact H |].
  - intros s v s' _. apply handle_event_running.
  - destruct HQ as [HQ | HQ]; [left; exact HQ | right; eauto].
Qed.

(** ** The whole loop *)

Variable libm : Libm.

Lemma poll_events_loop_ok (l l' : Loop) (evs : list Event) :
  loop_ok l -> poll_events load_map_json_like l evs = Ok l' -> loop_ok l'.
Proof.
  intros Hl H. revert H. apply for_each_invariant; [| exact Hl].
  intros s ev s' _ (M & P & S & Pi & A) H.
  destruct (handle_event_simulation s s' ev H) as (Ep & _ & Ea & _).
  unfold loop_ok. rewrite Ep, Ea.
  split; [eapply handle_event_menu_ok; eauto |].
  split; [eapply handle_event_path_ok; eauto |].
  split; [eapply handle_event_sensitivity_ok; eauto |].
  split; [exact Pi | exact A].
Qed.

Lemma main_iteration_loop_ok (fuel : nat) (l l' : Loop) (t : Q)
    (evs : list Event) (kb : Keyboard) (o : FrameOut) :
  loop_ok l ->
  main_iteration libm load_map_json_like fuel l t evs kb = Ok (l', o) ->
  loop_ok l' /\ 0 <= alpha o < 1 /\
  pitch_ok (r_pitch (render_player o)).
Proof.
  intros Hl H. unfold main_iteration in H.
  apply bind_Ok in H as (l1 & Hpoll & H).
  apply bind_Ok in H as ([d1 o1] & Hframe & H). injection H as <- <-.
  assert (H0 : loop_ok (begin_frame l t)).
  { destruct l as [u [c i open s iy ix] d m cm]. exact Hl. }
  pose proof (poll_events_loop_ok _ _ _ H0 Hpoll) as (M & P & S & Pi & A).
  set (l2 := continuous_keys l1 kb) in *.
  assert (E : ui l2 = ui l1 /\ drv l2 = drv l1 /\ world l2 = world l1 /\
              menu_open (fr l2) = menu_open (fr l1) /\
              mouse_sensitivity (fr l2) = mouse_sensitivity (fr l1)).
  { subst l2. destruct l1 as [u [c i open s iy ix] d m cm]. cbn. auto. }
  destruct E as (Eu & Ed & Ew & Eo & Es). clearbody l2.
  rewrite Ed in Hframe.
  assert (A0 : 0 <= accumulator (drv l1)) by lra.
  destruct (frame_pitch libm (world l2) fuel (drv l1) (fr l2) d1 o1 A0 Pi Hframe)
    as (P1 & R1 & _).
  destruct (frame_alpha libm (world l2) fuel (drv l1) (fr l2) d1 o1 A0 Hframe)
    as (Al & _ & Acc).
  split; [| split; [exact Al | exact R1]].
  unfold loop_ok, menu_ok, path_ok, sensitivity_ok in *. cbn.
  rewrite ?Eu, ?Eo, ?Es.
  assert (R : pitch (state_curr (restart d1 kb)) = pitch (state_curr d1) /\
              accumulator (restart d1 kb) = accumulator d1).
  { unfold restart. destruct (level_complete d1), (SDL_SCANCODE_R kb);
      cbn; auto. }
  destruct R as (-> & ->). auto 10.
Qed.

(** X28.  Whatever the clock, the events, the keys and the loader do, the
    main loop keeps its state sound from the start of [main] on: the menu
    in one of its states, the path within its buffer, the sensitivity
    within its range, the pitch of the player within 1.45 of level, and
    less than one fixed step in the accumulator; and every frame it renders
    has its interpolation factor in [0, 1) and its pitch within the same
    bound. *)
Theorem main_loop_keeps_invariants (m : Map) (t0 : Q) (fuel : nat)
    (l l' : Loop) (frames : list (Q * list Event * Keyboard))
    (os : list FrameOut) :
  loop_ok (init_loop m t0) /\
  (loop_ok l ->
   main_loop libm load_map_json_like fuel l frames = Ok (l', os) ->
   loop_ok l' /\
   Forall (fun o => 0 <= alpha o < 1 /\
                    - 1.45 <= r_pitch (render_player o) <= 1.45) os).
Proof.
  split.
  - unfold loop_ok, menu_ok, path_ok, sensitivity_ok, pitch_ok. cbn.
    pose proof PHYS_DT_value. repeat split; try lia; lra.
  - revert l l' os.
    induction frames as [| [[t evs] kb] frames IH]; intros l l' os Hl H;
      simpl in H.
    + injection H as <- <-. split; [exact Hl | constructor].
    + destruct (running (ui l)).
      * apply bind_Ok in H as ([l1 o] & Hit & H).
        apply bind_Ok in H as ([l2 os'] & Hrest & H). injection H as <- <-.
        destruct (main_iteration_loop_ok fuel l l1 t evs kb o Hl Hit)
          as (Hl1 & Ha & Hp).
        destruct (IH l1 l2 os' Hl1 Hrest) as (Hl2 & Hos).
        split; [exact Hl2 | constructor; [split; assumption | exact Hos]].
      * injection H as <- <-. split; [exact Hl | constructor].
Qed.

End Menu.

(** ** The further properties at concrete inputs *)

Lemma approach_no_overshoot_witness :
  0 <= 0.5 /\ approach 0 2 0.5 == 0 + 0.5 /\ approach 0 0.3 0.5 = 0.3.
Proof.
  assert (H : 0 <= 0.5) by (vm_compute; discriminate).
  split; [exact H |]. split.
  - destruct (approach_no_overshoot 0 2 0.5 H) as (_ & _ & _ & _ & A & _).
    apply A. vm_compute. reflexivity.
  - destruct (approach_no_overshoot 0 0.3 0.5 H) as (_ & _ & _ & A & _).
    apply A. split; vm_compute; discriminate.
Defined.

Lemma no_input_brakes_witness :
  move_fwd idle == 0 /\ move_strafe idle == 0 /\ 0 <= sub_dt /\
  slows (vx sliding) (vx (horizontal_velocity libm_yaw0 sliding idle sub_dt))
        (WALK_ACCEL * sub_dt) /\
  slows (vz sliding) (vz (horizontal_velocity libm_yaw0 sliding idle sub_dt))
        (WALK_ACCEL * sub_dt).
Proof.
  assert (D : 0 <= sub_dt) by (vm_compute; discriminate).
  split; [reflexivity |]. split; [reflexivity |]. split; [exact D |].
  exact (no_input_brakes libm_yaw0 sliding idle sub_dt
           (Qeq_refl 0) (Qeq_refl 0) D).
Defined.

Lemma resolve_cube_separates_witness :
  ~ py (resolve_cube in_cube 1 1) == py in_cube /\
  py (resolve_cube in_cube 1 1) == 1 + 0.001 /\
  boxes_apart (player_box (resolve_cube in_cube 1 1)) (cell_box 1 1) /\
  resolve_cube (resolve_cube in_cube 1 1) 1 1 = resolve_cube in_cube 1 1.
Proof.
  assert (A : ~ py (resolve_cube in_cube 1 1) == py in_cube).
  { intros E. vm_compute in E. discriminate E. }
  split; [exact A |].
  destruct (resolve_cube_separates in_cube 1 1 A) as (_ & _ & _ & S & I).
  split; [vm_compute; reflexivity |]. split; [exact S | exact I].
Defined.

Lemma resolve_cube_vertical_witness :
  ~ boxes_apart (player_box in_cube) (cell_box 1 1) /\
  ~ boxes_apart (player_box under_cube) (cell_box 1 1) /\
  py (resolve_cube in_cube 1 1) == 1 + 0.001 /\
  grounded (resolve_cube in_cube 1 1) = true /\
  py (resolve_cube under_cube 1 1) == - PLAYER_HEIGHT - 0.001 /\
  0 < vy under_cube /\
  vy (resolve_cube under_cube 1 1) == 0.
Proof.
  assert (A : ~ boxes_apart (player_box in_cube) (cell_box 1 1)).
  { rewrite <- cube_disjoint_apart. vm_compute. discriminate. }
  assert (B : ~ boxes_apart (player_box under_cube) (cell_box 1 1)).
  { rewrite <- cube_disjoint_apart. vm_compute. discriminate. }
  assert (C : 0 < vy under_cube) by (vm_compute; reflexivity).
  split; [exact A |]. split; [exact B |].
  destruct (resolve_cube_vertical in_cube 1 1 A) as (U & _);
    try (vm_compute; discriminate).
  destruct (resolve_cube_vertical under_cube 1 1 B) as (_ & V);
    try (vm_compute; discriminate).
  destruct U as (U1 & _ & U3); [vm_compute; reflexivity |].
  destruct V as (V1 & _ & V3 & _); [vm_compute; discriminate |].
  auto 10.
Defined.

Lemma open_map_ok : map_ok open_map.
Proof. unfold map_ok. cbn. repeat split; try lia; discriminate. Qed.

Lemma grid_lookup_total_witness :
  map_ok open_map /\
  (forall x z, exists t, tile_at open_map x z = Ok t) /\
  (forall x z x' z' i,
     in_map open_map x z = true -> in_map open_map x' z' = true ->
     cell_index open_map x z = Ok i -> cell_index open_map x' z' = Ok i ->
     x = x' /\ z = z').
Proof.
  split; [exact open_map_ok |].
  destruct (grid_lookup_total open_map open_map_ok) as (A & _ & C).
  split; [exact A | exact C].
Defined.

Lemma collisions_never_fault_witness :
  map_ok open_map /\
  cell_in_range (px (before_collisions libm_yaw0 sliding walk_jump sub_dt)) /\
  cell_in_range (pz (before_collisions libm_yaw0 sliding walk_jump sub_dt)) /\
  exists st',
    physics_step libm_yaw0 open_map (sliding, false) walk_jump sub_dt
    = Ok st'.
Proof.
  assert (X : cell_in_range
                (px (before_collisions libm_yaw0 sliding walk_jump sub_dt)))
    by (split; vm_compute; reflexivity).
  assert (Z : cell_in_range
                (pz (before_collisions libm_yaw0 sliding walk_jump sub_dt)))
    by (split; vm_compute; reflexivity).
  split; [exact open_map_ok |]. split; [exact X |]. split; [exact Z |].
  exact (proj2 (collisions_never_fault libm_yaw0 open_map sliding false
                  walk_jump sub_dt open_map_ok) X Z).
Defined.

Lemma open_ground_collisions_witness :
  cell_in_range (px at_floor) /\ cell_in_range (pz at_floor) /\
  no_solid_near open_map 1 1 /\
  exists lc',
    resolve_collisions open_map (at_floor, false)
    = Ok (floor_clamp at_floor, lc').
Proof.
  assert (X : cell_in_range (px at_floor)) by (split; vm_compute; reflexivity).
  assert (Z : cell_in_range (pz at_floor)) by (split; vm_compute; reflexivity).
  assert (N : no_solid_near open_map 1 1)
    by (apply no_solid_nearb_true; vm_compute; reflexivity).
  split; [exact X |]. split; [exact Z |]. split; [exact N |].
  destruct (open_ground_collisions open_map at_floor false X Z N)
    as (lc' & H & _).
  exists lc'. exact H.
Defined.

Lemma standing_in_goal_completes_witness :
  cell_in_range (px at_goal) /\ cell_in_range (pz at_goal) /\
  no_solid_near goal_map 1 1 /\
  tile_at goal_map 1 1 = Ok TILE_END /\
  resolve_collisions goal_map (at_goal, false)
  = Ok (floor_clamp at_goal, true).
Proof.
  assert (X : cell_in_range (px at_goal)) by (split; vm_compute; reflexivity).
  assert (Z : cell_in_range (pz at_goal)) by (split; vm_compute; reflexivity).
  assert (N : no_solid_near goal_map 1 1)
    by (apply no_solid_nearb_true; vm_compute; reflexivity).
  split; [exact X |]. split; [exact Z |]. split; [exact N |].
  split; [reflexivity |].
  exact (standing_in_goal_completes goal_map at_goal false X Z N
           eq_refl eq_refl).
Defined.

Lemma floor_rest_witness :
  jump idle = false /\ py sliding == 0 /\ vy sliding <= 0 /\ 0 < sub_dt /\
  exists p' lc',
    physics_step libm_yaw0 open_map (sliding, false) idle sub_dt
    = Ok (p', lc') /\
    py p' == 0 /\ vy p' == 0 /\ grounded p' = true.
Proof.
  assert (V : vy sliding <= 0) by (vm_compute; discriminate).
  assert (D : 0 < sub_dt) by (vm_compute; reflexivity).
  split; [reflexivity |]. split; [reflexivity |]. split; [exact V |].
  split; [exact D |].
  destruct (floor_rest libm_yaw0 open_map sliding false idle sub_dt
              eq_refl (Qeq_refl 0) V D)
    as (p' & lc' & H & Hy & Hv & Hg & _).
  - split; vm_compute; reflexivity.
  - split; vm_compute; reflexivity.
  - apply no_solid_nearb_true. vm_compute. reflexivity.
  - exists p', lc'. auto.
Defined.

Lemma frame_time_conserved_witness :
  0 <= accumulator (init_driver 0) /\
  (exists d' o,
     frame libm_yaw0 open_map 30 (init_driver 0) (menu_frame (3 # 100))
     = Ok (d', o) /\
     length (steps_run o) = 3%nat /\
     accumulator d' + inject_Z (Z.of_nat (length (steps_run o))) * PHYS_DT
     == accumulator (init_driver 0)
        + clampd (cur (menu_frame (3 # 100)) - prev_time (init_driver 0))
                 0.0 0.25 /\
     0 <= accumulator d' < PHYS_DT) /\
  (exists d' o,
     frame libm_yaw0 open_map 30 (init_driver 1) (still_frame (1 # 2))
     = Ok (d', o) /\
     steps_run o = [] /\ prev_time d' = 1 # 2).
Proof.
  assert (A : 0 <= accumulator (init_driver 0)) by (vm_compute; discriminate).
  split; [exact A |]. split.
  - eexists. eexists. split; [vm_compute; reflexivity |].
    split; [reflexivity |].
    refine (let H := frame_time_conserved libm_yaw0 open_map 30
                       (init_driver 0) (menu_frame (3 # 100)) _ _ A _ in
            conj (proj1 H) (proj1 (proj2 H))).
    vm_compute. reflexivity.
  - assert (B : 0 <= accumulator (init_driver 1))
      by (vm_compute; discriminate).
    eexists. eexists. split; [vm_compute; reflexivity |].
    edestruct (fun d' o =>
                 frame_time_conserved libm_yaw0 open_map 30 (init_driver 1)
                   (still_frame (1 # 2)) d' o B) as (_ & _ & P & N);
      [vm_compute; reflexivity |].
    destruct N as (N & _);
      [vm_compute; discriminate | vm_compute; reflexivity |].
    split; [exact N | exact P].
Defined.

Lemma render_between_witness :
  0 <= accumulator (init_driver 0) /\
  exists d' o,
    frame libm_yaw0 open_map 30 (init_driver 0) (menu_frame (3 # 100))
    = Ok (d', o) /\
    between (py (state_prev d')) (r_py (render_player o))
            (py (state_curr d')) /\
    between (vy (state_prev d')) (r_vy (render_player o))
            (vy (state_curr d')).
Proof.
  assert (A : 0 <= accumulator (init_driver 0)) by (vm_compute; discriminate).
  split; [exact A |].
  eexists. eexists. split; [vm_compute; reflexivity |].
  refine (let H := render_between libm_yaw0 open_map 30 (init_driver 0)
                     (menu_frame (3 # 100)) _ _ A _ in
          conj (proj1 (proj2 H)) (proj1 (proj2 (proj2 (proj2 (proj2 H)))))).
  vm_compute. reflexivity.
Defined.


Lemma menu_state_invariant_witness :
  exists l',
    poll_events no_file playing menu_tour = Ok l' /\ menu_ok l' /\
    menu_open (fr l') = false.
Proof.
  eexists. split; [vm_compute; reflexivity |]. split; [| reflexivity].
  apply (proj2 (menu_state_invariant no_file open_map 0 playing _ menu_tour)).
  - exact (proj1 (menu_state_invariant no_file open_map 0 playing playing [])).
  - vm_compute. reflexivity.
Defined.

Lemma load_path_fits_buffer_witness :
  (exists l',
     poll_events no_file playing (firstn 5 menu_tour) = Ok l' /\ path_ok l' /\
     load_path (ui l') = [97%Z]) /\
  handle_event no_file (in_menu 1 1 (repeat 97%Z 510)) (SDL_TEXTINPUT [98%Z])
  = Ok (in_menu 1 1 (repeat 97%Z 510)) /\
  (exists l1,
     handle_event no_file (in_menu 1 1 (repeat 97%Z 509))
                  (SDL_TEXTINPUT [98%Z]) = Ok l1 /\
     load_path (ui l1) = repeat 97%Z 509 ++ [98%Z] /\
     load_path_len (ui l1) = 510%Z) /\
  handle_event no_file (in_menu 1 1 []) (SDL_KEYDOWN SDLK_BACKSPACE)
  = Ok (in_menu 1 1 []).
Proof.
  split; [| split; [| split]].
  - eexists. split; [vm_compute; reflexivity |]. split; [| reflexivity].
    apply (proj1 (proj2 (load_path_fits_buffer no_file open_map 0 playing _
                           (firstn 5 menu_tour) []))).
    + exact (proj1 (load_path_fits_buffer no_file open_map 0 playing playing
                      [] [])).
    + vm_compute. reflexivity.
  - apply (proj2 (proj2 (load_path_fits_buffer no_file open_map 0
                           (in_menu 1 1 (repeat 97%Z 510)) playing []
                           [98%Z]))); [reflexivity |].
    vm_compute. reflexivity.
  - destruct (proj2 (proj2 (load_path_fits_buffer no_file open_map 0
                              (in_menu 1 1 (repeat 97%Z 509)) playing []
                              [98%Z])) eq_refl) as (F & _).
    destruct F as (l1 & E & P & L); [vm_compute; discriminate |].
    exists l1. split; [exact E |]. split; [exact P | exact L].
  - apply (proj2 (proj2 (load_path_fits_buffer no_file open_map 0
                           (in_menu 1 1 []) playing [] []))); reflexivity.
Defined.

Lemma sensitivity_stays_in_range_witness :
  exists l',
    poll_events no_file playing menu_tour = Ok l' /\ sensitivity_ok l' /\
    mouse_sensitivity (fr l') == 0.0023.
Proof.
  eexists. split; [vm_compute; reflexivity |]. split; [| reflexivity].
  apply (proj2 (sensitivity_stays_in_range no_file open_map 0 playing _
                  menu_tour)).
  - exact (proj1 (sensitivity_stays_in_range no_file open_map 0 playing
                    playing [])).
  - vm_compute. reflexivity.
Defined.

Lemma menu_up_down_round_trip_witness :
  (0 <= menu_selected (ui (in_menu 4 0 [])) < 5)%Z /\
  poll_events no_file (in_menu 4 0 [])
              [SDL_KEYDOWN SDLK_DOWN; SDL_KEYDOWN SDLK_UP]
  = Ok (in_menu 4 0 []) /\
  exists l1,
    handle_event no_file (in_menu 4 0 []) (SDL_KEYDOWN SDLK_DOWN) = Ok l1 /\
    menu_selected (ui l1) = 0%Z.
Proof.
  assert (H : (0 <= menu_selected (ui (in_menu 4 0 [])) < 5)%Z)
    by (split; [discriminate | reflexivity]).
  split; [exact H |].
  destruct (menu_up_down_round_trip no_file (in_menu 4 0 []) H)
    as (_ & A & _ & B).
  split; [exact A | exact (B eq_refl)].
Defined.

Lemma menu_blocks_input_witness :
  menu_open (fr (in_menu 0 1 [])) = true /\ Forall keeps_menu busy_events /\
  exists l',
    poll_events no_file (begin_frame (in_menu 0 1 []) 1) busy_events = Ok l' /\
    load_path (ui l') = [97%Z] /\
    inp (fr (continuous_keys l' keys_w_r)) = mkInput 0 0 false false 0 0.
Proof.
  assert (F : Forall keeps_menu busy_events).
  { unfold busy_events.
    repeat (apply Forall_cons; [split; discriminate |]). apply Forall_nil. }
  split; [reflexivity |]. split; [exact F |].
  eexists. split; [vm_compute; reflexivity |]. split; [reflexivity |].
  destruct (menu_blocks_input no_file (in_menu 0 1 []) 1 busy_events keys_w_r
              eq_refl F) as (l' & E & _ & _ & _ & I & _).
  assert (E' : poll_events no_file (begin_frame (in_menu 0 1 []) 1)
                 busy_events = Ok l') by exact E.
  vm_compute in E'. injection E' as <-. exact I.
Defined.

Lemma load_dialog_opens_with_error_witness :
  exists l',
    handle_event no_file (in_menu 1 0 []) (SDL_KEYDOWN SDLK_RETURN) = Ok l' /\
    menu_sub (ui l') = 1%Z /\ load_err (ui l') = enter_a_path_first.
Proof.
  destruct (load_dialog_opens_with_error no_file (in_menu 1 0 []) eq_refl)
    as (l' & E & _ & S & _ & _ & R & _);
    [discriminate | reflexivity |].
  exists l'. auto.
Defined.

Lemma load_outcome_witness :
  (exists l',
     handle_event no_file (in_menu 1 1 [97%Z]) (SDL_KEYDOWN SDLK_RETURN)
     = Ok l' /\
     load_err (ui l') = failed_to_load (-1) /\
     world l' = open_map /\ menu_open (fr l') = true) /\
  (exists l',
     handle_event goal_file (in_menu 1 1 [97%Z]) (SDL_KEYDOWN SDLK_RETURN)
     = Ok l' /\
     world l' = goal_map /\ menu_open (fr l') = false).
Proof.
  split.
  - destruct (load_outcome no_file (in_menu 1 1 [97%Z]) (-1) open_map
                eq_refl eq_refl eq_refl) as (l' & E & _ & F).
    exists l'. split; [exact E |].
    assert (E' : handle_event no_file (in_menu 1 1 [97%Z])
                   (SDL_KEYDOWN SDLK_RETURN) = Ok l') by exact E.
    vm_compute in E'. injection E' as <-.
    repeat split; apply F; discriminate.
  - destruct (load_outcome goal_file (in_menu 1 1 [97%Z]) 0 goal_map
                eq_refl eq_refl eq_refl) as (l' & E & S & _).
    exists l'. split; [exact E |].
    destruct (S eq_refl) as (W & O & _). auto.
Defined.

Lemma quit_is_final_witness :
  exists l',
    poll_events no_file playing
                [SDL_MOUSEMOTION 5 (-3); SDL_QUIT; SDL_KEYDOWN SDLK_ESCAPE]
    = Ok l' /\
    running (ui l') = false /\ menu_open (fr l') = true.
Proof.
  eexists. split; [vm_compute; reflexivity |]. split; [| reflexivity].
  refine (quit_is_final no_file playing _
            [SDL_MOUSEMOTION 5 (-3); SDL_QUIT; SDL_KEYDOWN SDLK_ESCAPE] _ _).
  - vm_compute. reflexivity.
  - right. simpl. auto.
Defined.

Lemma main_loop_keeps_invariants_witness :
  exists l' os,
    main_loop libm_yaw0 no_file 30 playing session = Ok (l', os) /\
    length os = 3%nat /\ running (ui l') = false /\
    loop_ok l' /\
    Forall (fun o => 0 <= alpha o < 1 /\
                     - 1.45 <= r_pitch (render_player o) <= 1.45) os.
Proof.
  eexists. eexists. split; [vm_compute; reflexivity |].
  split; [reflexivity |]. split; [reflexivity |].
  apply (proj2 (main_loop_keeps_invariants no_file libm_yaw0 open_map 0 30
                  playing _ session _)).
  - exact (proj1 (main_loop_keeps_invariants no_file libm_yaw0 open_map 0 30
                    playing playing [] [])).
  - vm_compute. reflexivity.
Defined.
